(** * NOVA SIEGE: the simulation and collision engine of [main.py]

    A shallow embedding of the gameplay code of [src/main.py] and the
    properties of its damage, scoring, spawning, pulse, pause and collision
    rules.

    Modelling conventions, used throughout:
    - Python [int] values (health, shield, damage, score, sizes) are [Z].
    - Python [float] values (positions, timers, delta time) are exact
      rationals [Q]; IEEE-754 rounding is outside the model, except for
      the spawn interval, which the module [F64] also evaluates in
      binary64, as the program does.  Rounding can move the frame on which
      a timer runs out by one: the properties that run a timer over several
      frames bound the time from both sides, a millisecond away from the
      exact instant.
    - [math.sin], [math.cos], [math.sqrt] and [math.radians] have no rational
      values in general: they are the operations of the class [MathLib].
      The same holds of [math.hypot], the body of [distance]: the pulse
      compares whatever it returns with the radius.
    - The global generator of the [random] module is the record [Rng]: an
      arbitrary sequence of draws and a cursor.  Every call of the module
      takes the next draw, the calls that the particle emitters make
      included; nothing is assumed of the values.
    - The particle system, the sound manager and the score-pop animation
      are cosmetic collaborators: the model keeps the trace of the calls
      made on them ([Call]), in order.  [ParticleSystem.update] is modelled
      on its own, apart from the game state.
    - Python mutates entities in place while iterating over the list that
      holds them; the model rebuilds the list position by position, which
      keeps every entity at its index. *)

From Stdlib Require Import ZArith QArith Qminmax List Lia Lqa String Bool.
From Stdlib Require PrimFloat.
Import ListNotations.

Local Open Scope Z_scope.

(** ** Constants and configuration *)

Definition BASE_W : Z := 480.
Definition BASE_H : Z := 720.
Definition FPS : Z := 60.

Definition PLAYER_SPEED   : Q := 280.
Definition PLAYER_HEALTH  : Z := 100.
Definition BULLET_SPEED   : Q := 600.
Definition EBULLET_SPEED  : Q := 260.
Definition ENEMY_SPAWN_CD : Q := 9 # 5.
Definition POWERUP_CHANCE : Q := 9 # 50.
Definition COMBO_WINDOW   : Q := 5 # 2.
Definition PULSE_RADIUS   : Q := 120.

Inductive GameState := MENU | PLAYING | GAME_OVER | PAUSED.

Definition GameState_eqb (a b : GameState) : bool :=
  match a, b with
  | MENU, MENU | PLAYING, PLAYING | GAME_OVER, GAME_OVER | PAUSED, PAUSED => true
  | _, _ => false
  end.

(** ** Utility helpers *)

Definition Qlt_bool (a b : Q) : bool := negb (Qle_bool b a).

(** [clamp(val, lo, hi) = max(lo, min(hi, val))] *)
Definition clamp (val lo hi : Q) : Q := Qmax lo (Qmin hi val).

(** [lerp(a, b, t) = a + (b - a) * t] *)
Definition lerp (a b t : Q) : Q := (a + (b - a) * t)%Q.

(** Python's [int(q)]: truncation towards zero. *)
Definition int_trunc (q : Q) : Z := Z.quot (Qnum q) (Zpos (Qden q)).

(** The functions of the [math] module that leave the rationals.  Nothing
    is assumed of the values they return. *)
Class MathLib := {
  math_sin     : Q -> Q;
  math_cos     : Q -> Q;
  math_sqrt    : Q -> Q;
  math_radians : Q -> Q;
  math_hypot   : Q -> Q -> Q
}.

(** [distance(ax, ay, bx, by) = math.hypot(ax - bx, ay - by)] *)
Definition distance `{MathLib} (ax ay bx by' : Q) : Q :=
  math_hypot (ax - bx) (ay - by').

(** ** The [random] module *)

Record Rng := mkRng { draws : nat -> Q; cursor : nat }.

(** [random.random()] *)
Definition random_random (r : Rng) : Q * Rng :=
  (draws r (cursor r), mkRng (draws r) (S (cursor r))).

(** [random.uniform(a, b) = a + (b - a) * random()] *)
Definition random_uniform (a b : Q) (r : Rng) : Q * Rng :=
  let (u, r') := random_random r in ((a + (b - a) * u)%Q, r').

(** ** pygame.Rect

    A [Rect] holds integers: float arguments are truncated.  [colliderect]
    is a strict overlap test (touching edges do not collide, an empty
    rectangle collides with nothing). *)

Record Rect := mkRect { left : Z; top : Z; width : Z; height : Z }.

Definition Rect_of (x y w h : Q) : Rect :=
  mkRect (int_trunc x) (int_trunc y) (int_trunc w) (int_trunc h).

Definition colliderect (a b : Rect) : bool :=
  if (width a =? 0) || (height a =? 0) || (width b =? 0) || (height b =? 0)
  then false
  else
    (Z.min (left a) (left a + width a) <? Z.max (left b) (left b + width b))
    && (Z.min (top a) (top a + height a) <? Z.max (top b) (top b + height b))
    && (Z.min (left b) (left b + width b) <? Z.max (left a) (left a + width a))
    && (Z.min (top b) (top b + height b) <? Z.max (top a) (top a + height a)).

(** ** Calls on the cosmetic collaborators *)

Inductive Call :=
| emit_explosion (x y : Q) (count : nat)
| emit_thrust (x y : Q)
| emit_hit (x y : Q)
| particles_update (dt : Q)
| sound_play (name : string) (volume : Q)
| pop_score.

(** The calls of the [random] module that a call on a collaborator makes:
    four for each particle of an explosion and for each of the eight of a
    hit (angle, speed, life, size), six for each of the three particles of
    the thrust (life, offset, two speeds, colour, size). *)
Definition call_draws (c : Call) : nat :=
  match c with
  | emit_explosion _ _ count => 4 * count
  | emit_hit _ _ => 4 * 8
  | emit_thrust _ _ => 6 * 3
  | particles_update _ | sound_play _ _ | pop_score => 0
  end.

(** [n] draws whose values go to a collaborator. *)
Definition discard_draws (n : nat) (r : Rng) : Rng :=
  Nat.iter n (fun r' => snd (random_random r')) r.

(** ** Bullet *)

Module Bullet.

Record t := mk {
  x : Q; y : Q; vx : Q; vy : Q;
  is_player : bool;
  radius : Z;
  damage : Z;
  alive : bool;
  trail : list (Q * Q)
}.

(** [Bullet.__init__] *)
Definition init (x y vx vy : Q) (is_player : bool) : t :=
  mk x y vx vy is_player
     (if is_player then 4 else 3)
     (if is_player then 20 else 10)
     true [].

Definition set_alive (a : bool) (b : t) : t :=
  mk (x b) (y b) (vx b) (vy b) (is_player b) (radius b) (damage b) a (trail b).

(** [Bullet.update] *)
Definition update (dt : Q) (b : t) : t :=
  let trail1 := trail b ++ [(x b, y b)] in
  let trail2 := if (5 <? Z.of_nat (List.length trail1)) then tl trail1 else trail1 in
  let x' := (x b + vx b * dt)%Q in
  let y' := (y b + vy b * dt)%Q in
  let out := Qlt_bool y' (-20) || Qlt_bool (inject_Z (BASE_H + 20)) y'
             || Qlt_bool x' (-20) || Qlt_bool (inject_Z (BASE_W + 20)) x' in
  mk x' y' (vx b) (vy b) (is_player b) (radius b) (damage b)
     (if out then false else alive b) trail2.

(** [Bullet.rect] *)
Definition rect (b : t) : Rect :=
  Rect_of (x b - inject_Z (radius b)) (y b - inject_Z (radius b))
          (inject_Z (radius b * 2)) (inject_Z (radius b * 2)).

End Bullet.

(** ** Power-up *)

Inductive PowerUpType := HEALTH | SHIELD | RAPID_FIRE | TRIPLE.

(** [random.choice(list(PowerUpType))]: the draw selects the position. *)
Definition random_choice_kind (r : Rng) : PowerUpType * Rng :=
  let (u, r') := random_random r in
  (match int_trunc (u * 4) with
   | 0 => HEALTH
   | 1 => SHIELD
   | 2 => RAPID_FIRE
   | _ => TRIPLE
   end, r').

Module PowerUp.

Record t := mk {
  x : Q; y : Q;
  kind : PowerUpType;
  radius : Z;
  speed : Q;
  alive : bool;
  age : Q
}.

(** [PowerUp.__init__] with [kind=None]: the kind is drawn. *)
Definition init (x y : Q) (r : Rng) : t * Rng :=
  let (k, r') := random_choice_kind r in
  (mk x y k 12 80 true 0, r').

Definition set_alive (a : bool) (p : t) : t :=
  mk (x p) (y p) (kind p) (radius p) (speed p) a (age p).

(** [PowerUp.update] *)
Definition update (dt : Q) (p : t) : t :=
  let y' := (y p + speed p * dt)%Q in
  mk (x p) y' (kind p) (radius p) (speed p)
     (if Qlt_bool (inject_Z (BASE_H + 30)) y' then false else alive p)
     (age p + dt)%Q.

(** [PowerUp.rect] *)
Definition rect (p : t) : Rect :=
  Rect_of (x p - inject_Z (radius p)) (y p - inject_Z (radius p))
          (inject_Z (radius p * 2)) (inject_Z (radius p * 2)).

End PowerUp.

(** ** Enemy *)

Inductive EnemyType := SCOUT | HUNTER | TANK.

Inductive MoveType := straight | sine | track.

Record EnemyConfig := mkEnemyConfig {
  cfg_hp : Z;
  cfg_speed : Q;
  cfg_size : Z;
  cfg_score : Z;
  cfg_fire_rate : Q;
  cfg_move_type : MoveType
}.

Definition ENEMY_CONFIGS (k : EnemyType) : EnemyConfig :=
  match k with
  | SCOUT  => mkEnemyConfig 20  160 16 100 (3 # 5) sine
  | HUNTER => mkEnemyConfig 50  110 20 250 (4 # 5) track
  | TANK   => mkEnemyConfig 120 55  26 500 (6 # 5) straight
  end.

Module Enemy.

Record t := mk {
  x : Q; y : Q;
  kind : EnemyType;
  hp : Z; max_hp : Z;
  speed : Q;
  size : Z;
  score : Z;
  fire_rate : Q;
  move_type : MoveType;
  alive : bool;
  age : Q;
  fire_cd : Q;
  vx : Q;
  sine_amp : Q; sine_freq : Q; origin_x : Q;
  hit_flash : Q
}.

(** [Enemy.__init__]; the reference to the player is passed to [update]. *)
Definition init (x y : Q) (kind : EnemyType) (r : Rng) : t * Rng :=
  let cfg := ENEMY_CONFIGS kind in
  let (cd, r1) := random_uniform 0 (1 / cfg_fire_rate cfg) r in
  let (amp, r2) := random_uniform 40 90 r1 in
  let (freq, r3) := random_uniform (3 # 2) 3 r2 in
  (mk x y kind (cfg_hp cfg) (cfg_hp cfg) (cfg_speed cfg) (cfg_size cfg)
      (cfg_score cfg) (cfg_fire_rate cfg) (cfg_move_type cfg)
      true 0 cd 0 amp freq x 0, r3).

Definition set_alive (a : bool) (e : t) : t :=
  mk (x e) (y e) (kind e) (hp e) (max_hp e) (speed e) (size e) (score e)
     (fire_rate e) (move_type e) a (age e) (fire_cd e) (vx e)
     (sine_amp e) (sine_freq e) (origin_x e) (hit_flash e).

Definition set_fire_cd (cd : Q) (e : t) : t :=
  mk (x e) (y e) (kind e) (hp e) (max_hp e) (speed e) (size e) (score e)
     (fire_rate e) (move_type e) (alive e) (age e) cd (vx e)
     (sine_amp e) (sine_freq e) (origin_x e) (hit_flash e).

(** [Enemy._fire] *)
Definition _fire `{MathLib} (e : t) : list Bullet.t :=
  match kind e with
  | TANK =>
      map (fun angle_offset : Q =>
             let rad := math_radians (90 + angle_offset) in
             Bullet.init (x e) (y e + inject_Z (size e))
                         (math_cos rad * EBULLET_SPEED)
                         (math_sin rad * EBULLET_SPEED) false)
          [-(15); 0; 15]%Q
  | _ => [Bullet.init (x e) (y e + inject_Z (size e)) 0 EBULLET_SPEED false]
  end.

(** [Enemy.update]; [player_x] is [self.player.x]. *)
Definition update `{MathLib} (dt player_x : Q) (e : t) : t * list Bullet.t :=
  let age' := (age e + dt)%Q in
  let fire_cd' := (fire_cd e - dt)%Q in
  let hit_flash' := Qmax 0 (hit_flash e - dt) in
  let '(x1, y1) :=
    match move_type e with
    | straight => (x e, y e + speed e * dt)%Q
    | sine =>
        ((origin_x e + math_sin (age' * sine_freq e) * sine_amp e)%Q,
         (y e + speed e * dt)%Q)
    | track =>
        let dx := (player_x - x e)%Q in
        ((x e + clamp (dx * (5 # 2) * dt) (- speed e * dt) (speed e * dt))%Q,
         (y e + speed e * (11 # 20) * dt)%Q)
    end in
  let x2 := clamp x1 (inject_Z (size e)) (inject_Z (BASE_W - size e)) in
  let alive' := if Qlt_bool (inject_Z (BASE_H + 60)) y1 then false else alive e in
  let e1 := mk x2 y1 (kind e) (hp e) (max_hp e) (speed e) (size e) (score e)
               (fire_rate e) (move_type e) alive' age' fire_cd' (vx e)
               (sine_amp e) (sine_freq e) (origin_x e) hit_flash' in
  if Qle_bool fire_cd' 0
  then let e2 := set_fire_cd (1 / fire_rate e) e1 in (e2, _fire e2)
  else (e1, []).

(** [Enemy.take_damage] *)
Definition take_damage (amount : Z) (e : t) : t :=
  let hp' := hp e - amount in
  mk (x e) (y e) (kind e) hp' (max_hp e) (speed e) (size e) (score e)
     (fire_rate e) (move_type e)
     (if hp' <=? 0 then false else alive e)
     (age e) (fire_cd e) (vx e)
     (sine_amp e) (sine_freq e) (origin_x e) (3 # 25).

(** [Enemy.rect] *)
Definition rect (e : t) : Rect :=
  Rect_of (x e - inject_Z (size e)) (y e - inject_Z (size e))
          (inject_Z (size e * 2)) (inject_Z (size e * 2)).

End Enemy.

(** ** Input *)

(** The keys read through [pygame.key.get_pressed()]. *)
Record Keys := mkKeys {
  K_LEFT : bool; K_a : bool;
  K_RIGHT : bool; K_d : bool;
  K_UP : bool; K_w : bool;
  K_DOWN : bool; K_s : bool;
  K_SPACE : bool; K_z : bool;
  K_x : bool
}.

(** The events of [pygame.event.get()] that [_handle_events] looks at. *)
Inductive Key := KEY_ESCAPE | KEY_SPACE | KEY_p | KEY_other.

Inductive Event := QUIT | KEYDOWN (key : Key) | OTHER_EVENT.

(** ** Player *)

Inductive AmmoType := normal | triple.

Module Player.

Record t := mk {
  x : Q; y : Q;
  speed : Q;
  width : Z; height : Z;
  hp : Z; max_hp : Z;
  alive : bool;
  shoot_cd : Q; shoot_rate : Q;
  ammo_type : AmmoType;
  rapid_fire : bool;
  triple_timer : Q; rapid_fire_timer : Q;
  shield_hp : Z; max_shield : Z;
  invincible : Q; invincible_cd : Q;
  pulse_cd : Q; pulse_max_cd : Q;
  age : Q; hit_flash : Q; tilt : Q; target_tilt : Q
}.

(** [Player.__init__] *)
Definition init : t :=
  mk (inject_Z (BASE_W / 2)) (inject_Z (BASE_H - 100))
     PLAYER_SPEED 22 30 PLAYER_HEALTH PLAYER_HEALTH true
     0 5 normal false
     0 0 0 60
     0 (3 # 2)
     0 8
     0 0 0 0.

(** [Player.handle_input] *)
Definition handle_input `{MathLib} (keys : Keys) (dt : Q) (p : t) : t :=
  let dx0 := ((if K_LEFT keys || K_a keys then -(1) else 0)
              + (if K_RIGHT keys || K_d keys then 1 else 0))%Q in
  let dy0 := ((if K_UP keys || K_w keys then -(1) else 0)
              + (if K_DOWN keys || K_s keys then 1 else 0))%Q in
  let diagonal := negb (Qeq_bool dx0 0) && negb (Qeq_bool dy0 0) in
  let factor := (1 / math_sqrt 2)%Q in
  let dx := if diagonal then (dx0 * factor)%Q else dx0 in
  let dy := if diagonal then (dy0 * factor)%Q else dy0 in
  let target_tilt' := (dx * 18)%Q in
  let x1 := (x p + dx * speed p * dt)%Q in
  let y1 := (y p + dy * speed p * dt)%Q in
  let x2 := clamp x1 (inject_Z (width p)) (inject_Z (BASE_W - width p)) in
  let y2 := clamp y1 (inject_Z (height p)) (inject_Z (BASE_H - height p)) in
  let tilt' := lerp (tilt p) target_tilt' (Qmin 1 (dt * 10)) in
  mk x2 y2 (speed p) (width p) (height p) (hp p) (max_hp p) (alive p)
     (shoot_cd p) (shoot_rate p) (ammo_type p) (rapid_fire p)
     (triple_timer p) (rapid_fire_timer p) (shield_hp p) (max_shield p)
     (invincible p) (invincible_cd p) (pulse_cd p) (pulse_max_cd p)
     (age p) (hit_flash p) tilt' target_tilt'.

Definition set_shoot_cd (cd : Q) (p : t) : t :=
  mk (x p) (y p) (speed p) (width p) (height p) (hp p) (max_hp p) (alive p)
     cd (shoot_rate p) (ammo_type p) (rapid_fire p)
     (triple_timer p) (rapid_fire_timer p) (shield_hp p) (max_shield p)
     (invincible p) (invincible_cd p) (pulse_cd p) (pulse_max_cd p)
     (age p) (hit_flash p) (tilt p) (target_tilt p).

(** [Player.try_shoot]: the player and the bullets fired. *)
Definition try_shoot `{MathLib} (keys : Keys) (p : t) : t * list Bullet.t :=
  if negb (K_SPACE keys || K_z keys) then (p, [])
  else if Qlt_bool 0 (shoot_cd p) then (p, [])
  else
    let rate := (shoot_rate p * (if rapid_fire p then 2 else 1))%Q in
    let p' := set_shoot_cd (1 / rate) p in
    (p',
     match ammo_type p with
     | triple =>
         map (fun offset : Q =>
                let rad := math_radians (-(90) + offset) in
                Bullet.init (x p + offset) (y p - inject_Z (height p))
                            (math_cos rad * BULLET_SPEED)
                            (math_sin rad * BULLET_SPEED) true)
             [-(18); 0; 18]%Q
     | normal =>
         [Bullet.init (x p) (y p - inject_Z (height p)) 0 (- BULLET_SPEED) true]
     end).

(** [Player.update]: the player and the call made on the particle system. *)
Definition update (dt : Q) (p : t) : t * list Call :=
  let age' := (age p + dt)%Q in
  let shoot_cd' := Qmax 0 (shoot_cd p - dt) in
  let invincible' := Qmax 0 (invincible p - dt) in
  let hit_flash' := Qmax 0 (hit_flash p - dt) in
  let pulse_cd' := Qmax 0 (pulse_cd p - dt) in
  let '(triple_timer', ammo_type') :=
    if Qlt_bool 0 (triple_timer p)
    then let t' := (triple_timer p - dt)%Q in
         (t', if Qle_bool t' 0 then normal else triple)
    else (triple_timer p, ammo_type p) in
  let '(rapid_fire_timer', rapid_fire') :=
    if Qlt_bool 0 (rapid_fire_timer p)
    then let t' := (rapid_fire_timer p - dt)%Q in
         (t', if Qle_bool t' 0 then false else true)
    else (rapid_fire_timer p, rapid_fire p) in
  (mk (x p) (y p) (speed p) (width p) (height p) (hp p) (max_hp p) (alive p)
      shoot_cd' (shoot_rate p) ammo_type' rapid_fire'
      triple_timer' rapid_fire_timer' (shield_hp p) (max_shield p)
      invincible' (invincible_cd p) pulse_cd' (pulse_max_cd p)
      age' hit_flash' (tilt p) (target_tilt p),
   [emit_thrust (x p) (y p + inject_Z (height p))]).

(** [Player.try_pulse] *)
Definition try_pulse (keys : Keys) (p : t) : t * bool :=
  if negb (K_x keys) then (p, false)
  else if Qlt_bool 0 (pulse_cd p) then (p, false)
  else
    (mk (x p) (y p) (speed p) (width p) (height p) (hp p) (max_hp p) (alive p)
        (shoot_cd p) (shoot_rate p) (ammo_type p) (rapid_fire p)
        (triple_timer p) (rapid_fire_timer p) (shield_hp p) (max_shield p)
        (invincible p) (invincible_cd p) (pulse_max_cd p) (pulse_max_cd p)
        (age p) (hit_flash p) (tilt p) (target_tilt p),
     true).

(** The shield after the absorption step of [take_damage]. *)
Definition set_shield_hp (s : Z) (p : t) : t :=
  mk (x p) (y p) (speed p) (width p) (height p) (hp p) (max_hp p) (alive p)
     (shoot_cd p) (shoot_rate p) (ammo_type p) (rapid_fire p)
     (triple_timer p) (rapid_fire_timer p) s (max_shield p)
     (invincible p) (invincible_cd p) (pulse_cd p) (pulse_max_cd p)
     (age p) (hit_flash p) (tilt p) (target_tilt p).

(** The assignments of [take_damage] when damage lands on the hull. *)
Definition land_damage (amount : Z) (p : t) : t :=
  let hp1 := hp p - amount in
  mk (x p) (y p) (speed p) (width p) (height p)
     (if hp1 <=? 0 then 0 else hp1) (max_hp p)
     (if hp1 <=? 0 then false else alive p)
     (shoot_cd p) (shoot_rate p) (ammo_type p) (rapid_fire p)
     (triple_timer p) (rapid_fire_timer p) (shield_hp p) (max_shield p)
     (invincible_cd p) (invincible_cd p) (pulse_cd p) (pulse_max_cd p)
     (age p) (3 # 20) (tilt p) (target_tilt p).

(** [Player.take_damage] *)
Definition take_damage (amount : Z) (p : t) : t :=
  if Qlt_bool 0 (invincible p) then p
  else
    let absorbed := if 0 <? shield_hp p then Z.min (shield_hp p) amount else 0 in
    let p1 := if 0 <? shield_hp p then set_shield_hp (shield_hp p - absorbed) p else p in
    let amount1 := amount - absorbed in
    if 0 <? amount1 then land_damage amount1 p1 else p1.

(** [Player.apply_powerup] *)
Definition apply_powerup (kind : PowerUpType) (p : t) : t :=
  match kind with
  | HEALTH =>
      mk (x p) (y p) (speed p) (width p) (height p)
         (Z.min (max_hp p) (hp p + 40)) (max_hp p) (alive p)
         (shoot_cd p) (shoot_rate p) (ammo_type p) (rapid_fire p)
         (triple_timer p) (rapid_fire_timer p) (shield_hp p) (max_shield p)
         (invincible p) (invincible_cd p) (pulse_cd p) (pulse_max_cd p)
         (age p) (hit_flash p) (tilt p) (target_tilt p)
  | SHIELD => set_shield_hp (max_shield p) p
  | RAPID_FIRE =>
      mk (x p) (y p) (speed p) (width p) (height p) (hp p) (max_hp p) (alive p)
         (shoot_cd p) (shoot_rate p) (ammo_type p) (rapid_fire p)
         (triple_timer p) 6 (shield_hp p) (max_shield p)
         (invincible p) (invincible_cd p) (pulse_cd p) (pulse_max_cd p)
         (age p) (hit_flash p) (tilt p) (target_tilt p)
  | TRIPLE =>
      mk (x p) (y p) (speed p) (width p) (height p) (hp p) (max_hp p) (alive p)
         (shoot_cd p) (shoot_rate p) (ammo_type p) (rapid_fire p)
         8 (rapid_fire_timer p) (shield_hp p) (max_shield p)
         (invincible p) (invincible_cd p) (pulse_cd p) (pulse_max_cd p)
         (age p) (hit_flash p) (tilt p) (target_tilt p)
  end.

(** [Player.rect] *)
Definition rect (p : t) : Rect :=
  let hw := width p - 4 in
  let hh := height p - 4 in
  Rect_of (x p - inject_Z hw) (y p - inject_Z hh)
          (inject_Z (hw * 2)) (inject_Z (hh * 2)).

End Player.

(** ** Star field *)

Record Star := mkStar { star_x : Q; star_y : Q; star_speed : Q; star_size : Z }.

Module StarField.

Definition t := list Star.

(** One layer of [StarField.__init__]: [n] stars of nominal speed [spd]. *)
Fixpoint layer (n : nat) (spd : Z) (r : Rng) : list Star * Rng :=
  match n with
  | O => ([], r)
  | S n' =>
      let (sx, r1) := random_uniform 0 (inject_Z BASE_W) r in
      let (sy, r2) := random_uniform 0 (inject_Z BASE_H) r1 in
      let (k, r3) := random_uniform (4 # 5) (6 # 5) r2 in
      let s := mkStar sx sy (inject_Z spd * k)
                      (if spd =? 1 then 1 else if spd =? 2 then 1 else 2) in
      let (rest, r4) := layer n' spd r3 in
      (s :: rest, r4)
  end.

(** [StarField.__init__] *)
Definition init (r : Rng) : t * Rng :=
  let (l1, r1) := layer 40 1 r in
  let (l2, r2) := layer 40 2 r1 in
  let (l3, r3) := layer 40 3 r2 in
  (l1 ++ l2 ++ l3, r3).

(** [StarField.update] *)
Fixpoint update (dt : Q) (stars : t) (r : Rng) : t * Rng :=
  match stars with
  | [] => ([], r)
  | s :: rest =>
      let y1 := (star_y s + star_speed s * 60 * dt)%Q in
      let '(s', r1) :=
        if Qlt_bool (inject_Z BASE_H) y1
        then let (nx, r') := random_uniform 0 (inject_Z BASE_W) r in
             (mkStar nx 0 (star_speed s) (star_size s), r')
        else (mkStar (star_x s) y1 (star_speed s) (star_size s), r) in
      let (rest', r2) := update dt rest r1 in
      (s' :: rest', r2)
  end.

End StarField.

(** ** Particles

    [Particle] without its colour.  The game records its calls on the
    particle system in [calls]; the system's own update is modelled here. *)

Record Particle := mkParticle {
  p_x : Q; p_y : Q;
  p_vx : Q; p_vy : Q;
  p_life : Q;
  p_max_life : Q;
  p_size : Q;
  p_gravity : Q
}.

Module ParticleSystem.

Definition t := list Particle.

(** [ParticleSystem.__init__] *)
Definition init : t := [].

(** [ParticleSystem.update] *)
Fixpoint update (dt : Q) (ps : t) : t :=
  match ps with
  | [] => []
  | p :: rest =>
      let life := (p_life p - dt)%Q in
      if Qlt_bool 0 life
      then mkParticle (p_x p + p_vx p * dt) (p_y p + p_vy p * dt)
                      (p_vx p) (p_vy p + p_gravity p * dt)
                      life (p_max_life p) (p_size p) (p_gravity p)
           :: update dt rest
      else update dt rest
  end.

End ParticleSystem.

(** ** Enemy spawner *)

Module EnemySpawner.

Record t := mk { spawn_cd : Q; timer : Q; wave : Z }.

(** [EnemySpawner.__init__] *)
Definition init : t := mk ENEMY_SPAWN_CD 0 1.

(** [difficulty = min(score / 5000, 1.0)] *)
Definition difficulty (score : Z) : Q := Qmin (inject_Z score / 5000) 1.

(** [current_cd = lerp(ENEMY_SPAWN_CD, 0.6, difficulty)], over the
    rationals; [F64.current_cd] is the value in binary64. *)
Definition current_cd (score : Z) : Q :=
  lerp ENEMY_SPAWN_CD (3 # 5) (difficulty score).

(** [1 + int(score / 2000)] *)
Definition wave_of (score : Z) : Z := 1 + int_trunc (inject_Z score / 2000).

(** [EnemySpawner._pick_enemy_type] *)
Definition _pick_enemy_type (difficulty : Q) (r : Rng) : EnemyType * Rng :=
  let (u, r') := random_random r in
  let tank_chance := (difficulty * (1 # 5))%Q in
  let hunter_chance := ((3 # 20) + difficulty * (7 # 20))%Q in
  (if Qlt_bool u tank_chance then TANK
   else if Qlt_bool u (tank_chance + hunter_chance) then HUNTER
   else SCOUT, r').

(** [EnemySpawner.update] *)
Definition update (dt : Q) (score : Z) (sp : t) (r : Rng)
  : option EnemyType * t * Rng :=
  let timer' := (timer sp + dt)%Q in
  if Qle_bool (current_cd score) timer'
  then let (k, r') := _pick_enemy_type (difficulty score) r in
       (Some k, mk (spawn_cd sp) 0 (wave_of score), r')
  else (None, mk (spawn_cd sp) timer' (wave_of score), r).

End EnemySpawner.

(** ** The spawn interval in binary64

    The arithmetic of [EnemySpawner.update] on the interval as Python
    evaluates it, on primitive floats. *)

Module F64.

Import PrimFloat.

(** The literals [0.6] and [1.8]: the nearest binary64 values. *)
Definition c0_6 : float := 0x1.3333333333333p-1%float.
Definition ENEMY_SPAWN_CD : float := 0x1.ccccccccccccdp+0%float.

(** The binary64 value just below [0.6]; Python prints it as
    0.5999999999999999. *)
Definition below_0_6 : float := 0x1.3333333333332p-1%float.

(** [lerp(a, b, t) = a + (b - a) * t] *)
Definition lerp (a b t : float) : float := (a + (b - a) * t)%float.

(** A Python [int] as the [float] that [/] makes of it; exact below
    [2^53]. *)
Fixpoint of_pos (p : positive) : float :=
  match p with
  | xH => 1%float
  | xO q => (2 * of_pos q)%float
  | xI q => (2 * of_pos q + 1)%float
  end.

Definition of_Z (z : Z) : float :=
  match z with
  | Z0 => 0%float
  | Zpos p => of_pos p
  | Zneg p => (- of_pos p)%float
  end.

(** [difficulty = min(score / 5000, 1.0)] *)
Definition difficulty (score : Z) : float :=
  let q := (of_Z score / 5000)%float in
  if (1 <? q)%float then 1%float else q.

(** [current_cd = lerp(ENEMY_SPAWN_CD, 0.6, difficulty)] *)
Definition current_cd (score : Z) : float :=
  lerp ENEMY_SPAWN_CD c0_6 (difficulty score).

End F64.

(** ** Game: the master controller *)

Module Game.

Record t := mk {
  state : GameState;
  high_score : Z;
  tick : Q;
  player : Player.t;
  enemies : list Enemy.t;
  bullets : list Bullet.t;
  powerups : list PowerUp.t;
  stars : StarField.t;
  spawner : EnemySpawner.t;
  score : Z;
  new_record : bool;
  combo_chain : Z;
  combo_timer : Q;
  multiplier : Z;
  rng : Rng;
  calls : list Call
}.

Definition set_state v g :=
  mk v (high_score g) (tick g) (player g) (enemies g) (bullets g)
     (powerups g) (stars g) (spawner g) (score g) (new_record g)
     (combo_chain g) (combo_timer g) (multiplier g) (rng g) (calls g).

Definition set_tick v g :=
  mk (state g) (high_score g) v (player g) (enemies g) (bullets g)
     (powerups g) (stars g) (spawner g) (score g) (new_record g)
     (combo_chain g) (combo_timer g) (multiplier g) (rng g) (calls g).

Definition set_player v g :=
  mk (state g) (high_score g) (tick g) v (enemies g) (bullets g)
     (powerups g) (stars g) (spawner g) (score g) (new_record g)
     (combo_chain g) (combo_timer g) (multiplier g) (rng g) (calls g).

Definition set_enemies v g :=
  mk (state g) (high_score g) (tick g) (player g) v (bullets g)
     (powerups g) (stars g) (spawner g) (score g) (new_record g)
     (combo_chain g) (combo_timer g) (multiplier g) (rng g) (calls g).

Definition set_bullets v g :=
  mk (state g) (high_score g) (tick g) (player g) (enemies g) v
     (powerups g) (stars g) (spawner g) (score g) (new_record g)
     (combo_chain g) (combo_timer g) (multiplier g) (rng g) (calls g).

Definition set_powerups v g :=
  mk (state g) (high_score g) (tick g) (player g) (enemies g) (bullets g)
     v (stars g) (spawner g) (score g) (new_record g)
     (combo_chain g) (combo_timer g) (multiplier g) (rng g) (calls g).

Definition set_stars v g :=
  mk (state g) (high_score g) (tick g) (player g) (enemies g) (bullets g)
     (powerups g) v (spawner g) (score g) (new_record g)
     (combo_chain g) (combo_timer g) (multiplier g) (rng g) (calls g).

Definition set_spawner v g :=
  mk (state g) (high_score g) (tick g) (player g) (enemies g) (bullets g)
     (powerups g) (stars g) v (score g) (new_record g)
     (combo_chain g) (combo_timer g) (multiplier g) (rng g) (calls g).

Definition set_combo_timer v g :=
  mk (state g) (high_score g) (tick g) (player g) (enemies g) (bullets g)
     (powerups g) (stars g) (spawner g) (score g) (new_record g)
     (combo_chain g) v (multiplier g) (rng g) (calls g).

Definition set_rng v g :=
  mk (state g) (high_score g) (tick g) (player g) (enemies g) (bullets g)
     (powerups g) (stars g) (spawner g) (score g) (new_record g)
     (combo_chain g) (combo_timer g) (multiplier g) v (calls g).

(** A call on a cosmetic collaborator, appended to the trace; the random
    numbers it draws are taken from the generator. *)
Definition call (c : Call) g :=
  mk (state g) (high_score g) (tick g) (player g) (enemies g) (bullets g)
     (powerups g) (stars g) (spawner g) (score g) (new_record g)
     (combo_chain g) (combo_timer g) (multiplier g)
     (discard_draws (call_draws c) (rng g)) (calls g ++ [c]).

(** [Game._init_session]; [state], [high_score], [tick] and the
    collaborators outlive the session. *)
Definition _init_session (g : t) : t :=
  let (st, r) := StarField.init (rng g) in
  mk (state g) (high_score g) (tick g) Player.init [] [] [] st
     EnemySpawner.init 0 false 0 0 1 r (calls g).

(** [Game._start_game] *)
Definition _start_game (g : t) : t := set_state PLAYING (_init_session g).

(** One event of the loop of [Game._handle_events]; [None] is
    [pygame.quit(); sys.exit()]. *)
Definition handle_event (ev : Event) (g : t) : option t :=
  match ev with
  | QUIT => None
  | OTHER_EVENT => Some g
  | KEYDOWN key =>
      match key, state g with
      | KEY_ESCAPE, PLAYING => None
      | KEY_SPACE, MENU => Some (_start_game g)
      | KEY_SPACE, GAME_OVER => Some (_start_game g)
      | KEY_p, PLAYING => Some (set_state PAUSED g)
      | KEY_p, PAUSED => Some (set_state PLAYING g)
      | _, _ => Some g
      end
  end.

(** [Game._handle_events] *)
Fixpoint _handle_events (events : list Event) (g : t) : option t :=
  match events with
  | [] => Some g
  | ev :: rest =>
      match handle_event ev g with
      | None => None
      | Some g' => _handle_events rest g'
      end
  end.

(** [Game._break_combo] *)
Definition _break_combo (g : t) : t :=
  mk (state g) (high_score g) (tick g) (player g) (enemies g) (bullets g)
     (powerups g) (stars g) (spawner g) (score g) (new_record g)
     0 0 1 (rng g) (calls g).

(** [Game._on_enemy_killed] *)
Definition _on_enemy_killed (enemy : Enemy.t) (g : t) : t :=
  let chain := combo_chain g + 1 in
  let mult := Z.min 5 (1 + chain / 3) in
  let g1 :=
    mk (state g) (high_score g) (tick g) (player g) (enemies g) (bullets g)
       (powerups g) (stars g) (spawner g)
       (score g + Enemy.score enemy * mult) (new_record g)
       chain COMBO_WINDOW mult (rng g) (calls g) in
  let g2 := call pop_score g1 in
  let g3 := call (emit_explosion (Enemy.x enemy) (Enemy.y enemy) 20) g2 in
  let g4 := call (sound_play "explosion" (3 # 5)) g3 in
  let (u, r1) := random_random (rng g4) in
  if Qlt_bool u POWERUP_CHANCE
  then let (p, r2) := PowerUp.init (Enemy.x enemy) (Enemy.y enemy) r1 in
       set_powerups (powerups g4 ++ [p]) (set_rng r2 g4)
  else set_rng r1 g4.

(** The comparison of [health + shield] around [player.take_damage] that
    both collision loops with the player make. *)
Definition damage_player (amount : Z) (g : t) : t :=
  let hp_before := Player.hp (player g) + Player.shield_hp (player g) in
  let g1 := set_player (Player.take_damage amount (player g)) g in
  if Player.hp (player g1) + Player.shield_hp (player g1) <? hp_before
  then _break_combo g1
  else g1.

(** The loop [for e in self.enemies] of a player bullet: the first alive
    enemy that the bullet overlaps takes the damage, then [break].  The
    result is the list with that enemy damaged, and that enemy. *)
Fixpoint hit_first_enemy (b : Bullet.t) (es : list Enemy.t)
  : option (list Enemy.t * Enemy.t) :=
  match es with
  | [] => None
  | e :: rest =>
      if Enemy.alive e && colliderect (Bullet.rect b) (Enemy.rect e)
      then let e' := Enemy.take_damage (Bullet.damage b) e in
           Some (e' :: rest, e')
      else match hit_first_enemy b rest with
           | None => None
           | Some (rest', e') => Some (e :: rest', e')
           end
  end.

(** The body of the loop [for b in self.bullets] of [_check_collisions]. *)
Definition collide_bullet (player_rect : Rect) (b : Bullet.t) (g : t)
  : Bullet.t * t :=
  if negb (Bullet.alive b) then (b, g)
  else if Bullet.is_player b then
    match hit_first_enemy b (enemies g) with
    | None => (b, g)
    | Some (es', e') =>
        let g1 := set_enemies es' g in
        let g2 := call (emit_hit (Bullet.x b) (Bullet.y b)) g1 in
        let g3 := call (sound_play "hit" (1 # 2)) g2 in
        (Bullet.set_alive false b,
         if negb (Enemy.alive e') then _on_enemy_killed e' g3 else g3)
    end
  else if colliderect (Bullet.rect b) player_rect then
    let g1 := damage_player (Bullet.damage b) g in
    let g2 := call (emit_hit (Bullet.x b) (Bullet.y b)) g1 in
    (Bullet.set_alive false b, call (sound_play "hit" (1 # 2)) g2)
  else (b, g).

Fixpoint collide_bullets (player_rect : Rect) (bs : list Bullet.t) (g : t)
  : list Bullet.t * t :=
  match bs with
  | [] => ([], g)
  | b :: rest =>
      let (b', g1) := collide_bullet player_rect b g in
      let (rest', g2) := collide_bullets player_rect rest g1 in
      (b' :: rest', g2)
  end.

(** The body of the loop of enemy bodies against the player. *)
Definition collide_body (player_rect : Rect) (e : Enemy.t) (g : t)
  : Enemy.t * t :=
  if Enemy.alive e && colliderect (Enemy.rect e) player_rect then
    let g1 := damage_player 25 g in
    let g2 := call (emit_explosion (Enemy.x e) (Enemy.y e) 18) g1 in
    (Enemy.set_alive false e, call (sound_play "explosion" (7 # 10)) g2)
  else (e, g).

Fixpoint collide_bodies (player_rect : Rect) (es : list Enemy.t) (g : t)
  : list Enemy.t * t :=
  match es with
  | [] => ([], g)
  | e :: rest =>
      let (e', g1) := collide_body player_rect e g in
      let (rest', g2) := collide_bodies player_rect rest g1 in
      (e' :: rest', g2)
  end.

(** The body of the power-up collection loop. *)
Definition collect_powerup (player_rect : Rect) (p : PowerUp.t) (g : t)
  : PowerUp.t * t :=
  if PowerUp.alive p && colliderect (PowerUp.rect p) player_rect then
    let g1 := set_player (Player.apply_powerup (PowerUp.kind p) (player g)) g in
    let g2 := call (emit_explosion (PowerUp.x p) (PowerUp.y p) 12) g1 in
    (PowerUp.set_alive false p, call (sound_play "powerup" (4 # 5)) g2)
  else (p, g).

Fixpoint collect_powerups (player_rect : Rect) (ps : list PowerUp.t) (g : t)
  : list PowerUp.t * t :=
  match ps with
  | [] => ([], g)
  | p :: rest =>
      let (p', g1) := collect_powerup player_rect p g in
      let (rest', g2) := collect_powerups player_rect rest g1 in
      (p' :: rest', g2)
  end.

(** The bullet loop of [_check_collisions]. *)
Definition bullets_pass (player_rect : Rect) (g : t) : t :=
  let (bs, g1) := collide_bullets player_rect (bullets g) g in
  set_bullets bs g1.

(** The enemy-body loop of [_check_collisions]. *)
Definition bodies_pass (player_rect : Rect) (g : t) : t :=
  let (es, g1) := collide_bodies player_rect (enemies g) g in
  set_enemies es g1.

(** The power-up loop of [_check_collisions]. *)
Definition powerups_pass (player_rect : Rect) (g : t) : t :=
  let (ps, g1) := collect_powerups player_rect (powerups g) g in
  set_powerups ps g1.

(** [Game._check_collisions] *)
Definition _check_collisions (g : t) : t :=
  let player_rect := Player.rect (player g) in
  powerups_pass player_rect (bodies_pass player_rect (bullets_pass player_rect g)).

(** The test of the bullet loop of [_trigger_pulse]. *)
Definition pulse_hits_bullet `{MathLib} (px py : Q) (b : Bullet.t) : bool :=
  Bullet.alive b && negb (Bullet.is_player b)
  && Qle_bool (distance (Bullet.x b) (Bullet.y b) px py) PULSE_RADIUS.

(** The test of the enemy loop of [_trigger_pulse]. *)
Definition pulse_hits_enemy `{MathLib} (px py : Q) (e : Enemy.t) : bool :=
  Enemy.alive e
  && Qle_bool (distance (Enemy.x e) (Enemy.y e) px py) PULSE_RADIUS.

Fixpoint pulse_bullets `{MathLib} (px py : Q) (bs : list Bullet.t) (g : t)
  : list Bullet.t * t :=
  match bs with
  | [] => ([], g)
  | b :: rest =>
      let (b', g1) :=
        if pulse_hits_bullet px py b
        then (Bullet.set_alive false b,
              call (emit_hit (Bullet.x b) (Bullet.y b)) g)
        else (b, g) in
      let (rest', g2) := pulse_bullets px py rest g1 in
      (b' :: rest', g2)
  end.

Fixpoint pulse_enemies `{MathLib} (px py : Q) (es : list Enemy.t) (g : t)
  : list Enemy.t * t :=
  match es with
  | [] => ([], g)
  | e :: rest =>
      let (e', g1) :=
        if pulse_hits_enemy px py e
        then let e1 := Enemy.take_damage 35 e in
             (e1, if negb (Enemy.alive e1) then _on_enemy_killed e1 g else g)
        else (e, g) in
      let (rest', g2) := pulse_enemies px py rest g1 in
      (e' :: rest', g2)
  end.

(** [Game._trigger_pulse] *)
Definition _trigger_pulse `{MathLib} (g : t) : t :=
  let px := Player.x (player g) in
  let py := Player.y (player g) in
  let g0 := call (emit_explosion px py 28) g in
  let (bs, g1) := pulse_bullets px py (bullets g0) g0 in
  let g2 := set_bullets bs g1 in
  let (es, g3) := pulse_enemies px py (enemies g2) g2 in
  set_enemies es g3.

(** [Game._on_player_death] *)
Definition _on_player_death (g : t) : t :=
  let g1 := call (emit_explosion (Player.x (player g)) (Player.y (player g)) 40) g in
  let g2 := call (sound_play "gameover" (9 # 10)) g1 in
  let record := high_score g2 <? score g2 in
  mk GAME_OVER (if record then score g2 else high_score g2) (tick g2)
     (player g2) (enemies g2) (bullets g2) (powerups g2) (stars g2)
     (spawner g2) (score g2) record
     (combo_chain g2) (combo_timer g2) (multiplier g2) (rng g2) (calls g2).

(** The loop [for enemy in self.enemies] of [_update]: the enemies after
    their update and the bullets they fired, in order. *)
Fixpoint update_enemies `{MathLib} (dt player_x : Q) (es : list Enemy.t)
  : list Enemy.t * list Bullet.t :=
  match es with
  | [] => ([], [])
  | e :: rest =>
      let (e', fired) := Enemy.update dt player_x e in
      let (rest', fired') := update_enemies dt player_x rest in
      (e' :: rest', fired ++ fired')
  end.

(** [Game._update] *)
Definition _update `{MathLib} (dt : Q) (keys : Keys) (g : t) : t :=
  (* background *)
  let (st, r1) := StarField.update dt (stars g) (rng g) in
  let g := set_rng r1 (set_stars st g) in
  (* player *)
  let g := set_player (Player.handle_input keys dt (player g)) g in
  let g := set_combo_timer (Qmax 0 (combo_timer g - dt)) g in
  let g := if Qle_bool (combo_timer g) 0 && (1 <? multiplier g)
           then _break_combo g else g in
  let (p1, new_bullets) := Player.try_shoot keys (player g) in
  let g := set_player p1 g in
  let g := match new_bullets with
           | [] => g
           | _ => call (sound_play "shoot" (2 # 5)) g
           end in
  let g := set_bullets (bullets g ++ new_bullets) g in
  let (p2, pulse) := Player.try_pulse keys (player g) in
  let g := set_player p2 g in
  let g := if pulse then _trigger_pulse g else g in
  let (p3, thrust) := Player.update dt (player g) in
  let g := fold_left (fun g c => call c g) thrust (set_player p3 g) in
  (* enemy spawning *)
  let '(spawn_type, sp, r2) := EnemySpawner.update dt (score g) (spawner g) (rng g) in
  let g := set_rng r2 (set_spawner sp g) in
  let g := match spawn_type with
           | None => g
           | Some k =>
               let (ex, r3) := random_uniform 30 (inject_Z (BASE_W - 30)) (rng g) in
               let (e, r4) := Enemy.init ex (-(40)) k r3 in
               set_rng r4 (set_enemies (enemies g ++ [e]) g)
           end in
  (* update enemies, bullets, power-ups, particles *)
  let (es, fired) := update_enemies dt (Player.x (player g)) (enemies g) in
  let g := set_bullets (bullets g ++ fired) (set_enemies es g) in
  let g := set_bullets (map (Bullet.update dt) (bullets g)) g in
  let g := set_powerups (map (PowerUp.update dt) (powerups g)) g in
  let g := call (particles_update dt) g in
  (* collision detection *)
  let g := _check_collisions g in
  (* prune dead objects *)
  let g := set_enemies (filter Enemy.alive (enemies g)) g in
  let g := set_bullets (filter Bullet.alive (bullets g)) g in
  let g := set_powerups (filter PowerUp.alive (powerups g)) g in
  (* player death *)
  if negb (Player.alive (player g)) then _on_player_death g else g.

(** [dt = min(clock.tick(FPS) / 1000.0, 0.05)]; [ms] is the number of
    milliseconds that [clock.tick] returns. *)
Definition frame_dt (ms : Z) : Q := Qmin (inject_Z ms / 1000) (1 # 20).

(** One iteration of the loop of [Game.run]; [_draw] changes nothing in
    the state.  [None] is the exit of the process. *)
Definition run_iteration `{MathLib}
    (ms : Z) (events : list Event) (keys : Keys) (g : t) : option t :=
  let dt := frame_dt ms in
  let g1 := set_tick (tick g + dt)%Q g in
  match _handle_events events g1 with
  | None => None
  | Some g2 =>
      Some match state g2 with
           | PLAYING => _update dt keys g2
           | MENU =>
               let (st, r) := StarField.update dt (stars g2) (rng g2) in
               set_rng r (set_stars st g2)
           | GAME_OVER =>
               let (st, r) := StarField.update dt (stars g2) (rng g2) in
               call (particles_update dt) (set_rng r (set_stars st g2))
           | PAUSED => g2
           end
  end.

(** What one iteration of the loop reads from the outside. *)
Record Frame := mkFrame {
  frame_ms : Z;
  frame_events : list Event;
  frame_keys : Keys
}.

(** [Game.run] over the frames of a finite prefix of the loop. *)
Fixpoint run `{MathLib} (frames : list Frame) (g : t) : option t :=
  match frames with
  | [] => Some g
  | f :: rest =>
      match run_iteration (frame_ms f) (frame_events f) (frame_keys f) g with
      | None => None
      | Some g' => run rest g'
      end
  end.

(** [Game.__init__]: the state before the first iteration. *)
Definition init (r : Rng) : t :=
  _init_session (mk MENU 0 0 Player.init [] [] [] [] EnemySpawner.init
                    0 false 0 0 1 r []).

End Game.

(** ** Derived notions used by the properties *)

(** [take_damage] called once per element of [amounts], in order. *)
Definition take_damages (amounts : list Z) (p : Player.t) : Player.t :=
  fold_left (fun q a => Player.take_damage a q) amounts p.

(** The two states between which the pause key toggles. *)
Definition in_play (s : GameState) : Prop := s = PLAYING \/ s = PAUSED.

(** The test of the inner loop of a player bullet fails on this enemy. *)
Definition misses (b : Bullet.t) (e : Enemy.t) : Prop :=
  Enemy.alive e && colliderect (Bullet.rect b) (Enemy.rect e) = false.

(** The combo has not been reset between [g] and [g']: the chain has not
    dropped, and if it has not grown the timer and multiplier are the same. *)
Definition combo_kept (g g' : Game.t) : Prop :=
  Game.combo_chain g <= Game.combo_chain g'
  /\ (Game.combo_chain g' = Game.combo_chain g ->
      Game.combo_timer g' = Game.combo_timer g
      /\ Game.multiplier g' = Game.multiplier g).

(** What the bullet loop of the pulse makes of a bullet. *)
Definition pulse_bullet_result `{MathLib} (px py : Q) (b : Bullet.t) : Bullet.t :=
  if Game.pulse_hits_bullet px py b then Bullet.set_alive false b else b.

(** What the enemy loop of the pulse makes of an enemy. *)
Definition pulse_enemy_result `{MathLib} (px py : Q) (e : Enemy.t) : Enemy.t :=
  if Game.pulse_hits_enemy px py e then Enemy.take_damage 35 e else e.

(** The sparks of the bullets that the pulse clears, in list order. *)
Definition pulse_sparks `{MathLib} (px py : Q) (bs : list Bullet.t) : list Call :=
  map (fun b => emit_hit (Bullet.x b) (Bullet.y b))
      (filter (Game.pulse_hits_bullet px py) bs).

(** The enemies that the pulse kills, as they are after the damage, in
    list order. *)
Definition pulse_kills `{MathLib} (px py : Q) (es : list Enemy.t) : list Enemy.t :=
  filter (fun e => negb (Enemy.alive e))
         (map (Enemy.take_damage 35) (filter (Game.pulse_hits_enemy px py) es)).

(** The calls [cs] made in order. *)
Definition calls_all (cs : list Call) (g : Game.t) : Game.t :=
  fold_left (fun s c => Game.call c s) cs g.

(** The kill scoring of the bullet path, [_on_enemy_killed], run for each
    enemy of [es] in order. *)
Definition kills_all (es : list Enemy.t) (g : Game.t) : Game.t :=
  fold_left (fun s e => Game._on_enemy_killed e s) es g.

(** *** Sample states for the examples *)

(** A generator whose every draw is [1/2]. *)
Definition rng_half : Rng := mkRng (fun _ => 1 # 2) 0.

(** The state that [Game.__init__] builds from [rng_half]. *)
Definition game0 : Game.t := Game.init rng_half.

(** A freshly built Scout at [(x, y)]. *)
Definition scout_at (x y : Q) : Enemy.t := fst (Enemy.init x y SCOUT rng_half).

(** A freshly built Hunter at [(x, y)]. *)
Definition hunter_at (x y : Q) : Enemy.t := fst (Enemy.init x y HUNTER rng_half).

(** The square root of a rational that is not negative, rounded down to
    six decimals; exact on the squares of numbers with up to six decimals. *)
Definition Qsqrt_micro (q : Q) : Q :=
  Z.sqrt (Qnum q * 1000000000000 / Zpos (Qden q)) # 1000000.

(** Rational stand-ins for the functions of [math], to run the examples:
    truncated series, one Newton step, [355/113] for pi, and the root of
    the sum of squares to six decimals. *)
Definition math_approx : MathLib :=
  {| math_sin := fun a => (a - a * a * a / 6)%Q;
     math_cos := fun a => (1 - a * a / 2)%Q;
     math_sqrt := fun a => ((a + 1) / 2)%Q;
     math_radians := fun d => (d * (355 # 113) / 180)%Q;
     math_hypot := fun a b => Qsqrt_micro (a * a + b * b) |}.

(** No key held. *)
Definition no_keys : Keys :=
  mkKeys false false false false false false false false false false false.

(** Only the pulse key held. *)
Definition pulse_key : Keys :=
  mkKeys false false false false false false false false false false true.

(** A session that has just started. *)
Definition playing0 : Game.t := Game._start_game game0.

(** The same session, paused. *)
Definition paused0 : Game.t := Game.set_state PAUSED playing0.

(** A session in which a Hunter that a player bullet has already hit once
    (30 HP left) flies 100 px above the ship, its fire cooldown about to
    elapse; the pulse is ready. *)
Definition pulse_session : Game.t :=
  Game.set_enemies
    [Enemy.set_fire_cd (1 # 100) (Enemy.take_damage 20 (hunter_at 240 520))]
    playing0.

(** A session with one fresh Scout and two player bullets inside its body. *)
Definition two_bullets_session : Game.t :=
  Game.set_bullets
    [Bullet.init 100 100 0 (- BULLET_SPEED) true;
     Bullet.init 102 101 0 (- BULLET_SPEED) true]
    (Game.set_enemies [scout_at 100 100] playing0).

(** A session in which the player has just been hit (invincibility running)
    while a Scout and an enemy bullet sit on the ship. *)
Definition invincible_session : Game.t :=
  Game.set_player (Player.land_damage 10 Player.init)
    (Game.set_bullets [Bullet.init 240 620 0 EBULLET_SPEED false]
       (Game.set_enemies [scout_at 240 620] playing0)).

(** A session with a Scout exactly 120 px to the right of the ship, an
    enemy bullet exactly 120 px above it and another one 121 px above it. *)
Definition boundary_session : Game.t :=
  Game.set_bullets
    [Bullet.init 240 500 0 EBULLET_SPEED false;
     Bullet.init 240 499 0 EBULLET_SPEED false]
    (Game.set_enemies [scout_at 360 620] playing0).


(** [f] holds of the [n] integers from [lo] on. *)
Fixpoint holds_from (f : Z -> bool) (lo : Z) (n : nat) : bool :=
  match n with
  | O => true
  | S n' => f lo && holds_from f (lo + 1) n'
  end.

(** *** Notions for the properties of the entities *)

(** The sum of a list of rationals. *)
Definition Qsum (l : list Q) : Q := fold_right Qplus 0%Q l.

(** [Player.update] run once per element of [dts], in order; the calls on
    the particle system are dropped. *)
Definition player_updates (dts : list Q) (p : Player.t) : Player.t :=
  fold_left (fun q dt => fst (Player.update dt q)) dts p.

(** [n] calls of [Enemy.take_damage] with the same amount. *)
Definition enemy_hits (n : nat) (amount : Z) (e : Enemy.t) : Enemy.t :=
  Nat.iter n (Enemy.take_damage amount) e.

(** *** Notions for the properties of a whole tick *)

(** The combo fields agree: the chain is not negative and the multiplier is
    what the chain gives. *)
Definition combo_ok (g : Game.t) : Prop :=
  0 <= Game.combo_chain g
  /\ Game.multiplier g = Z.min 5 (1 + Game.combo_chain g / 3).

(** No enemy of the list has a negative score value. *)
Definition enemy_scores_ok (es : list Enemy.t) : Prop :=
  Forall (fun e => 0 <= Enemy.score e) es.

(** From [g] to [g']: the state of the game, the high score and the clock
    are the same; the combo stays consistent, the enemies keep
    non-negative score values, and the score has not dropped. *)
Definition proceeds (g g' : Game.t) : Prop :=
  Game.state g' = Game.state g
  /\ Game.high_score g' = Game.high_score g
  /\ Game.tick g' = Game.tick g
  /\ (combo_ok g -> combo_ok g')
  /\ (enemy_scores_ok (Game.enemies g) -> enemy_scores_ok (Game.enemies g'))
  /\ (combo_ok g -> enemy_scores_ok (Game.enemies g) ->
      Game.score g <= Game.score g').

(** The pruning at the end of [_update]. *)
Definition prune (g : Game.t) : Game.t :=
  Game.set_powerups (filter PowerUp.alive (Game.powerups g))
    (Game.set_bullets (filter Bullet.alive (Game.bullets g))
       (Game.set_enemies (filter Enemy.alive (Game.enemies g)) g)).

(** The last step of [_update]: the death of the player. *)
Definition finish (g : Game.t) : Game.t :=
  if negb (Player.alive (Game.player g)) then Game._on_player_death g else g.

(** The output of [_update] from a state that [proceeds] from [g0]. *)
Definition shaped (g0 out : Game.t) : Prop :=
  exists g1, out = finish (prune (Game._check_collisions g1)) /\ proceeds g0 g1.

(** *** Notions for the properties of the collision pass *)

(** What a collision pass may make of a bullet: nothing, or deactivate it
    if it was alive. *)
Definition bullet_after (b b' : Bullet.t) : Prop :=
  b' = b \/ (Bullet.alive b = true /\ b' = Bullet.set_alive false b).

(** What a collision pass may make of an enemy: it stays where and what it
    is, it is left untouched if it was not alive, it is not revived, and
    its HP does not grow. *)
Definition enemy_after (e e' : Enemy.t) : Prop :=
  Enemy.x e' = Enemy.x e /\ Enemy.y e' = Enemy.y e
  /\ Enemy.kind e' = Enemy.kind e /\ Enemy.size e' = Enemy.size e
  /\ Enemy.score e' = Enemy.score e
  /\ (Enemy.alive e = false -> e' = e)
  /\ (Enemy.alive e' = true -> Enemy.alive e = true).

(** The enemy kinds by strength. *)
Definition kind_rank (k : EnemyType) : Z :=
  match k with SCOUT => 0 | HUNTER => 1 | TANK => 2 end.

(** [EnemySpawner.update] run once per element of [steps] (the time step and
    the score of each call), in order, with what each call returned. *)
Fixpoint spawner_updates (steps : list (Q * Z)) (sp : EnemySpawner.t) (r : Rng)
  : list (option EnemyType) * EnemySpawner.t * Rng :=
  match steps with
  | [] => ([], sp, r)
  | (dt, s) :: rest =>
      let '(k, sp1, r1) := EnemySpawner.update dt s sp r in
      let '(ks, sp2, r2) := spawner_updates rest sp1 r1 in
      (k :: ks, sp2, r2)
  end.

(** The test of [StarField.update]: the star leaves the screen this frame. *)
Definition star_wraps (dt : Q) (s : Star) : bool :=
  Qlt_bool (inject_Z BASE_H) (star_y s + star_speed s * 60 * dt).

(** What [StarField.__init__] gives a star of the layer of nominal speed
    [spd], for draws in [0, 1]. *)
Definition star_of_layer (spd : Z) (s : Star) : Prop :=
  (0 <= star_x s <= inject_Z BASE_W)%Q
  /\ (0 <= star_y s <= inject_Z BASE_H)%Q
  /\ ((4 # 5) * inject_Z spd <= star_speed s <= (6 # 5) * inject_Z spd)%Q
  /\ star_size s = (if spd <=? 2 then 1 else 2).

(** The draws of [random.random()] lie in [0, 1]. *)
Definition unit_draws (r : Rng) : Prop :=
  forall n, (0 <= draws r n <= 1)%Q.

(** [ParticleSystem.update] run once per element of [dts], in order. *)
Definition particle_updates (dts : list Q) (ps : ParticleSystem.t)
  : ParticleSystem.t :=
  fold_left (fun l dt => ParticleSystem.update dt l) dts ps.

(** What [ParticleSystem.update] makes of a particle that it keeps. *)
Definition particle_step (dt : Q) (p : Particle) : Particle :=
  mkParticle (p_x p + p_vx p * dt) (p_y p + p_vy p * dt)
             (p_vx p) (p_vy p + p_gravity p * dt)
             (p_life p - dt) (p_max_life p) (p_size p) (p_gravity p).

(** The fields of a particle that no update changes. *)
Definition same_make (p p' : Particle) : Prop :=
  p_vx p' = p_vx p /\ p_max_life p' = p_max_life p
  /\ p_size p' = p_size p /\ p_gravity p' = p_gravity p.

(** The particles whose life exceeds [c]. *)
Definition outliving (c : Q) (ps : ParticleSystem.t) : ParticleSystem.t :=
  filter (fun p => Qlt_bool c (p_life p)) ps.

(** A particle [T] seconds later, over the rationals: lifetime, horizontal
    position and vertical speed; the size, the total life and the gravity
    stay. *)
Definition aged (T : Q) (p p' : Particle) : Prop :=
  (p_life p' == p_life p - T)%Q
  /\ (p_x p' == p_x p + p_vx p * T)%Q
  /\ (p_vy p' == p_vy p + p_gravity p * T)%Q
  /\ p_vx p' = p_vx p
  /\ p_max_life p' = p_max_life p
  /\ p_size p' = p_size p
  /\ p_gravity p' = p_gravity p.

(** [PowerUp.update] run once per element of [dts], in order. *)
Definition powerup_updates (dts : list Q) (p : PowerUp.t) : PowerUp.t :=
  fold_left (fun q dt => PowerUp.update dt q) dts p.

(** The menu state with a random source whose draws are all 0.1. *)
Definition lucky_session : Game.t :=
  Game.set_rng (mkRng (fun _ => 1 # 10) 0) game0.

(** * Properties *)

(** ** Comparisons on rationals *)

Lemma Qlt_bool_iff (a b : Q) : Qlt_bool a b = true <-> (a < b)%Q.
Proof.
  unfold Qlt_bool. rewrite negb_true_iff. split; intro H.
  - apply Qnot_le_lt. intro L. apply Qle_bool_iff in L. congruence.
  - destruct (Qle_bool b a) eqn:E; [|reflexivity].
    apply Qle_bool_iff in E. exfalso. exact (Qlt_not_le _ _ H E).
Qed.

Lemma Qlt_bool_false_iff (a b : Q) : Qlt_bool a b = false <-> (b <= a)%Q.
Proof.
  unfold Qlt_bool. rewrite negb_false_iff. apply Qle_bool_iff.
Qed.

(** ** Player.take_damage *)

Section PlayerDamage.

Variable p : Player.t.

Lemma take_damage_invincible (amount : Z) :
  (0 < Player.invincible p)%Q -> Player.take_damage amount p = p.
Proof.
  intro H. unfold Player.take_damage.
  apply Qlt_bool_iff in H. now rewrite H.
Qed.

Lemma take_damage_vulnerable (amount : Z) :
  (Player.invincible p <= 0)%Q ->
  Player.take_damage amount p =
  let absorbed :=
    if 0 <? Player.shield_hp p then Z.min (Player.shield_hp p) amount else 0 in
  let p1 :=
    if 0 <? Player.shield_hp p
    then Player.set_shield_hp (Player.shield_hp p - absorbed) p else p in
  if 0 <? amount - absorbed
  then Player.land_damage (amount - absorbed) p1 else p1.
Proof.
  intro H. unfold Player.take_damage.
  apply Qlt_bool_false_iff in H. now rewrite H.
Qed.

(** The shield never leaves [0 .. shield] and stays non-negative. *)
Lemma take_damage_shield_nonneg (amount : Z) :
  0 <= Player.shield_hp p ->
  0 <= Player.shield_hp (Player.take_damage amount p).
Proof.
  intro S. unfold Player.take_damage.
  destruct (Qlt_bool 0 (Player.invincible p)); [assumption|].
  destruct (0 <? Player.shield_hp p) eqn:E;
    [apply Z.ltb_lt in E | apply Z.ltb_ge in E];
    destruct (0 <? _) eqn:F; simpl; lia.
Qed.

End PlayerDamage.

(** C1. Shield absorption order.  For a player that is not invincible, with
    health [H], shield [S >= 0] and damage [D > 0]: if [D <= S] the shield
    becomes [S - D] and the health stays [H]; otherwise the shield becomes
    [0] and the health [max 0 (H - (D - S))]; when the health reaches [0]
    or less it is clamped to [0] and the alive flag is cleared. *)
Theorem take_damage_shield_then_health (p : Player.t) (D : Z) :
  (Player.invincible p == 0)%Q ->
  0 <= Player.shield_hp p ->
  0 < D ->
  let H := Player.hp p in
  let S := Player.shield_hp p in
  let p' := Player.take_damage D p in
  (D <= S ->
     Player.shield_hp p' = S - D /\ Player.hp p' = H
     /\ Player.alive p' = Player.alive p)
  /\ (S < D ->
     Player.shield_hp p' = 0
     /\ Player.hp p' = Z.max 0 (H - (D - S))
     /\ (H - (D - S) <= 0 -> Player.hp p' = 0 /\ Player.alive p' = false)
     /\ (0 < H - (D - S) -> Player.alive p' = Player.alive p)).
Proof.
  intros Hinv HS HD H S p'.
  assert (E : p' = _) by (apply take_damage_vulnerable; rewrite Hinv; apply Qle_refl).
  cbv zeta in E. subst H S.
  split; intro C.
  - destruct (0 <? Player.shield_hp p) eqn:E1.
    + rewrite Z.min_r in E by lia.
      replace (0 <? D - D) with false in E by (symmetry; apply Z.ltb_ge; lia).
      rewrite E. simpl. auto.
    + apply Z.ltb_ge in E1. lia.
  - destruct (0 <? Player.shield_hp p) eqn:E1.
    + rewrite Z.min_l in E by lia.
      replace (0 <? D - Player.shield_hp p) with true in E
        by (symmetry; apply Z.ltb_lt; lia).
      rewrite E. unfold Player.land_damage. simpl.
      destruct (_ <=? 0) eqn:E2;
        [apply Z.leb_le in E2 | apply Z.leb_gt in E2];
        repeat split; intros; try lia; reflexivity.
    + apply Z.ltb_ge in E1.
      replace (0 <? D - 0) with true in E by (symmetry; apply Z.ltb_lt; lia).
      rewrite E. unfold Player.land_damage. simpl.
      destruct (_ <=? 0) eqn:E2;
        [apply Z.leb_le in E2 | apply Z.leb_gt in E2];
        repeat split; intros; try lia; reflexivity.
Qed.

(** Scenario B of the spec: health 100, no shield, 25 contact damage. *)
Lemma take_damage_shield_then_health_witness :
  (Player.invincible Player.init == 0)%Q
  /\ 0 <= Player.shield_hp Player.init
  /\ 0 < 25
  /\ Player.hp (Player.take_damage 25 Player.init) = 75.
Proof.
  split; [reflexivity|]. split; [vm_compute; discriminate|].
  split; [lia|].
  apply (proj2 (take_damage_shield_then_health Player.init 25
                  ltac:(reflexivity) ltac:(vm_compute; discriminate) ltac:(lia))).
  vm_compute. reflexivity.
Defined.

(** C8. Invincibility suppression: while [invincible > 0], any number of
    calls of [take_damage], with any amounts, leaves the player unchanged:
    health, shield, alive flag and everything else. *)
Theorem take_damage_invincible_noop (p : Player.t) (amounts : list Z) :
  (0 < Player.invincible p)%Q ->
  take_damages amounts p = p
  /\ Player.hp (take_damages amounts p) = Player.hp p
  /\ Player.shield_hp (take_damages amounts p) = Player.shield_hp p
  /\ Player.alive (take_damages amounts p) = Player.alive p.
Proof.
  intro H.
  assert (E : take_damages amounts p = p).
  { unfold take_damages. induction amounts as [|a l IH]; simpl.
    - reflexivity.
    - rewrite take_damage_invincible by assumption. exact IH. }
  rewrite E. auto.
Qed.

Lemma take_damage_invincible_noop_witness :
  (0 < Player.invincible (Player.land_damage 10 Player.init))%Q
  /\ Player.hp (take_damages [25; 10; 1000] (Player.land_damage 10 Player.init)) = 90.
Proof.
  split; [reflexivity|].
  rewrite (proj1 (proj2 (take_damage_invincible_noop
                           (Player.land_damage 10 Player.init) [25; 10; 1000]
                           ltac:(reflexivity)))).
  reflexivity.
Defined.

(** ** Kill scoring and the combo *)

Section Combo.

Variables (e : Enemy.t) (g : Game.t).

Lemma on_enemy_killed_combo :
  Game.combo_chain (Game._on_enemy_killed e g) = Game.combo_chain g + 1
  /\ Game.multiplier (Game._on_enemy_killed e g)
     = Z.min 5 (1 + (Game.combo_chain g + 1) / 3)
  /\ Game.combo_timer (Game._on_enemy_killed e g) = COMBO_WINDOW
  /\ Game.score (Game._on_enemy_killed e g)
     = Game.score g + Enemy.score e * Z.min 5 (1 + (Game.combo_chain g + 1) / 3).
Proof.
  unfold Game._on_enemy_killed.
  destruct (random_random _) as [u r1]. cbv zeta.
  destruct (Qlt_bool u POWERUP_CHANCE).
  - destruct (PowerUp.init _ _ r1) as [pu r2]. simpl. auto.
  - simpl. auto.
Qed.

Lemma on_enemy_killed_frame :
  Game.state (Game._on_enemy_killed e g) = Game.state g
  /\ Game.player (Game._on_enemy_killed e g) = Game.player g
  /\ Game.enemies (Game._on_enemy_killed e g) = Game.enemies g
  /\ Game.bullets (Game._on_enemy_killed e g) = Game.bullets g.
Proof.
  unfold Game._on_enemy_killed.
  destruct (random_random _) as [u r1]. cbv zeta.
  destruct (Qlt_bool u POWERUP_CHANCE).
  - destruct (PowerUp.init _ _ r1) as [pu r2]. simpl. auto.
  - simpl. auto.
Qed.

Lemma on_enemy_killed_calls :
  Game.calls (Game._on_enemy_killed e g)
  = Game.calls g ++ [pop_score;
                     emit_explosion (Enemy.x e) (Enemy.y e) 20;
                     sound_play "explosion" (3 # 5)].
Proof.
  unfold Game._on_enemy_killed.
  destruct (random_random _) as [u r1]. cbv zeta.
  destruct (Qlt_bool u POWERUP_CHANCE).
  - destruct (PowerUp.init _ _ r1) as [pu r2]. simpl.
    now rewrite <- !app_assoc.
  - simpl. now rewrite <- !app_assoc.
Qed.

End Combo.

(** The multiplier as a step function of the chain. *)
Lemma multiplier_steps (c : Z) :
  (0 <= c <= 2 -> Z.min 5 (1 + c / 3) = 1)
  /\ (3 <= c <= 5 -> Z.min 5 (1 + c / 3) = 2)
  /\ (6 <= c <= 8 -> Z.min 5 (1 + c / 3) = 3)
  /\ (9 <= c <= 11 -> Z.min 5 (1 + c / 3) = 4)
  /\ (12 <= c -> Z.min 5 (1 + c / 3) = 5).
Proof.
  repeat split; intro H;
    pose proof (Z.div_mod c 3 ltac:(lia)) as D;
    pose proof (Z.mod_pos_bound c 3 ltac:(lia)) as B; lia.
Qed.

(** C3. Kill scoring: a kill increments the combo chain by one, recomputes
    the multiplier as [min 5 (1 + chain / 3)] (floor division) from the new
    chain, and adds the enemy's base score times that multiplier to the
    score; the multiplier is 1 for a chain in 0..2, 2 for 3..5, and the cap
    5 from 12 on. *)
Theorem on_enemy_killed_scoring (e : Enemy.t) (g : Game.t) :
  let g' := Game._on_enemy_killed e g in
  Game.combo_chain g' = Game.combo_chain g + 1
  /\ Game.multiplier g' = Z.min 5 (1 + Game.combo_chain g' / 3)
  /\ Game.score g' = Game.score g + Enemy.score e * Game.multiplier g'
  /\ (0 <= Game.combo_chain g' <= 2 -> Game.multiplier g' = 1)
  /\ (3 <= Game.combo_chain g' <= 5 -> Game.multiplier g' = 2)
  /\ (6 <= Game.combo_chain g' <= 8 -> Game.multiplier g' = 3)
  /\ (9 <= Game.combo_chain g' <= 11 -> Game.multiplier g' = 4)
  /\ (12 <= Game.combo_chain g' -> Game.multiplier g' = 5).
Proof.
  intro g'. subst g'.
  destruct (on_enemy_killed_combo e g) as (C & M & _ & S).
  rewrite C, M, S.
  destruct (multiplier_steps (Game.combo_chain g + 1)) as (T1 & T2 & T3 & T4 & T5).
  repeat split; assumption.
Qed.

Lemma on_enemy_killed_scoring_witness :
  0 <= Game.combo_chain (Game._on_enemy_killed (scout_at 100 100) game0) <= 2
  /\ Game.multiplier (Game._on_enemy_killed (scout_at 100 100) game0) = 1
  /\ Game.score (Game._on_enemy_killed (scout_at 100 100) game0) = 100.
Proof.
  pose proof (on_enemy_killed_scoring (scout_at 100 100) game0) as T.
  cbv zeta in T. destruct T as (_ & _ & S & T1 & _).
  assert (C : 0 <= Game.combo_chain (Game._on_enemy_killed (scout_at 100 100) game0) <= 2)
    by (vm_compute; split; discriminate).
  split; [exact C|]. split; [exact (T1 C)|].
  rewrite S, (T1 C). reflexivity.
Defined.

(** ** Frame delta time *)




(** ** The difficulty curve of the spawner *)

Section Spawner.

Import EnemySpawner.

Lemma difficulty_mono (s1 s2 : Z) :
  s1 <= s2 -> (difficulty s1 <= difficulty s2)%Q.
Proof.
  intro H. unfold difficulty. apply Q.min_le_compat_r.
  unfold Qdiv. apply Qmult_le_compat_r; [|discriminate].
  now rewrite <- Zle_Qle.
Qed.

Lemma difficulty_saturated (s : Z) : 5000 <= s -> (difficulty s == 1)%Q.
Proof.
  intro H. unfold difficulty. apply Q.min_r.
  rewrite Zle_Qle in H. unfold Qdiv.
  apply Qle_trans with (inject_Z 5000 * / 5000)%Q; [discriminate|].
  apply Qmult_le_compat_r; [assumption|discriminate].
Qed.

Lemma current_cd_mono (s1 s2 : Z) :
  s1 <= s2 -> (current_cd s2 <= current_cd s1)%Q.
Proof.
  intro H. apply difficulty_mono in H.
  unfold current_cd, lerp, ENEMY_SPAWN_CD. lra.
Qed.

Lemma current_cd_floor (s : Z) :
  5000 <= s -> (current_cd s == current_cd 5000)%Q.
Proof.
  intro H. pose proof (difficulty_saturated s H) as D.
  pose proof (difficulty_saturated 5000 ltac:(lia)) as D0.
  unfold current_cd, lerp, ENEMY_SPAWN_CD. lra.
Qed.

Lemma wave_of_quot (s : Z) : wave_of s = 1 + Z.quot s 2000.
Proof.
  unfold wave_of, int_trunc. simpl. now rewrite Z.mul_1_r.
Qed.

Lemma update_wave dt s sp r : wave (snd (fst (update dt s sp r))) = wave_of s.
Proof.
  unfold update. destruct (Qle_bool _ _).
  - destruct (_pick_enemy_type _ r). reflexivity.
  - reflexivity.
Qed.

Lemma update_spawns_iff dt s sp r :
  fst (fst (update dt s sp r)) <> None <-> (current_cd s <= timer sp + dt)%Q.
Proof.
  unfold update. destruct (Qle_bool _ _) eqn:E.
  - destruct (_pick_enemy_type _ r). simpl.
    apply Qle_bool_iff in E. split; [auto|discriminate].
  - simpl. split; [congruence|].
    intro L. apply Qle_bool_iff in L. congruence.
Qed.

End Spawner.

Lemma holds_from_spec (f : Z -> bool) (n : nat) : forall lo,
  holds_from f lo n = true ->
  forall s, lo <= s < lo + Z.of_nat n -> f s = true.
Proof.
  induction n as [|n IH]; intros lo H s B; [lia|].
  cbn [holds_from] in H. apply andb_true_iff in H. destruct H as [H0 H1].
  destruct (Z.eq_dec s lo) as [->|N]; [exact H0|].
  apply (IH (lo + 1) H1). lia.
Qed.

(** C6. Difficulty monotonicity.  Over the rationals, the interval that
    [EnemySpawner.update] compares its timer with is a non-increasing
    function of the score, equal to the base interval at score 0 and
    constant from score 5000 on; the wave number that [update] stores is
    [1 + floor(score / 2000)] and is non-decreasing in the score.  In
    binary64, as the program computes it, the interval is the base 1.8 at
    score 0, does not rise from one score to the next up to 5000, and for
    every score from 5000 to 1000000 it is the float just below 0.6,
    0.5999999999999999, not the configured floor 0.6. *)
Theorem spawn_interval_and_wave :
  (forall dt s sp r,
      fst (fst (EnemySpawner.update dt s sp r)) <> None
      <-> (EnemySpawner.current_cd s <= EnemySpawner.timer sp + dt)%Q)
  /\ (forall s1 s2, s1 <= s2 ->
        (EnemySpawner.current_cd s2 <= EnemySpawner.current_cd s1)%Q)
  /\ (EnemySpawner.current_cd 0 == ENEMY_SPAWN_CD)%Q
  /\ (forall s, 5000 <= s ->
        (EnemySpawner.current_cd s == EnemySpawner.current_cd 5000)%Q)
  /\ (forall dt s sp r,
        EnemySpawner.wave (snd (fst (EnemySpawner.update dt s sp r)))
        = EnemySpawner.wave_of s)
  /\ (forall s, 0 <= s -> EnemySpawner.wave_of s = 1 + s / 2000)
  /\ (forall s1 s2, s1 <= s2 ->
        EnemySpawner.wave_of s1 <= EnemySpawner.wave_of s2)
  /\ F64.current_cd 0 = F64.ENEMY_SPAWN_CD
  /\ (forall s, 0 <= s < 5000 ->
        PrimFloat.leb (F64.current_cd (s + 1)) (F64.current_cd s) = true)
  /\ (forall s, 5000 <= s <= 1000000 ->
        PrimFloat.eqb (F64.current_cd s) F64.below_0_6 = true)
  /\ PrimFloat.ltb F64.below_0_6 F64.c0_6 = true.
Proof.
  split; [exact update_spawns_iff|].
  split; [exact current_cd_mono|].
  split; [reflexivity|].
  split; [exact current_cd_floor|].
  split; [exact update_wave|].
  split.
  { intros s H. rewrite wave_of_quot, Z.quot_div_nonneg by lia. reflexivity. }
  split.
  { intros s1 s2 H. rewrite !wave_of_quot.
    pose proof (Z.quot_le_mono s1 s2 2000 ltac:(lia) H). lia. }
  split; [vm_compute; reflexivity|].
  split.
  { intros s B.
    apply (holds_from_spec
             (fun s => PrimFloat.leb (F64.current_cd (s + 1)) (F64.current_cd s))
             (Z.to_nat 5000) 0).
    - vm_compute. reflexivity.
    - rewrite Z2Nat.id by lia. lia. }
  split; [|vm_compute; reflexivity].
  intros s B.
  apply (holds_from_spec
           (fun s => PrimFloat.eqb (F64.current_cd s) F64.below_0_6)
           (Z.to_nat 995001) 5000).
  - vm_compute. reflexivity.
  - rewrite Z2Nat.id by lia. lia.
Qed.

Lemma spawn_interval_and_wave_witness :
  4000 <= 5000 /\ 5000 <= 7500 <= 1000000 /\ 0 <= 7500
  /\ (EnemySpawner.current_cd 7500 <= EnemySpawner.current_cd 4000)%Q
  /\ (EnemySpawner.current_cd 7500 == EnemySpawner.current_cd 5000)%Q
  /\ EnemySpawner.wave_of 7500 = 4
  /\ PrimFloat.eqb (F64.current_cd 7500) F64.below_0_6 = true.
Proof.
  destruct spawn_interval_and_wave
    as (_ & M & _ & F & _ & W & _ & _ & _ & B & _).
  split; [lia|]. split; [lia|]. split; [lia|].
  split; [apply M; lia|].
  split; [apply F; lia|].
  split; [rewrite W by lia; reflexivity|].
  apply B. lia.
Defined.

(** At score 5000 the interval that the program computes is below the
    configured floor 0.6, not equal to it. *)
Lemma spawn_floor_below_configured :
  PrimFloat.eqb (F64.current_cd 5000) F64.c0_6 = false
  /\ PrimFloat.ltb (F64.current_cd 5000) F64.c0_6 = true
  /\ F64.current_cd 5000 = F64.below_0_6.
Proof. repeat split; vm_compute; reflexivity. Qed.

(** ** Pause *)

Section Pause.

Import Game.

Lemma set_state_same (g : t) : set_state (state g) g = g.
Proof. now destruct g. Qed.

Lemma handle_event_in_play (ev : Event) (g g' : t) :
  in_play (state g) -> handle_event ev g = Some g' ->
  in_play (state g') /\ g' = set_state (state g') g.
Proof.
  intros [S|S] E; destruct ev as [|[]|]; simpl in E; try rewrite S in E;
    inversion E; subst; simpl; unfold in_play;
    (split; [auto|]); try reflexivity;
    symmetry; apply set_state_same.
Qed.

Lemma handle_events_in_play (evs : list Event) : forall (g g' : t),
  in_play (state g) -> _handle_events evs g = Some g' ->
  in_play (state g') /\ g' = set_state (state g') g.
Proof.
  induction evs as [|ev rest IH]; intros g g' S E; simpl in E.
  - inversion E; subst. split; [assumption|]. symmetry. apply set_state_same.
  - destruct (handle_event ev g) as [g1|] eqn:E1; [|discriminate].
    destruct (handle_event_in_play _ _ _ S E1) as [S1 G1].
    destruct (IH _ _ S1 E) as [S2 G2].
    split; [assumption|]. rewrite G2, G1. reflexivity.
Qed.

End Pause.

Lemma run_iteration_paused `{MathLib} ms evs keys (g g1 : Game.t) :
  Game.state g = PAUSED ->
  Game._handle_events evs (Game.set_tick (Game.tick g + Game.frame_dt ms) g)
    = Some g1 ->
  Game.state g1 = PAUSED ->
  Game.run_iteration ms evs keys g
  = Some (Game.set_tick (Game.tick g + Game.frame_dt ms) g).
Proof.
  intros S E S1.
  assert (P : in_play (Game.state (Game.set_tick (Game.tick g + Game.frame_dt ms) g)))
    by (right; exact S).
  destruct (handle_events_in_play _ _ _ P E) as [_ G1].
  rewrite S1 in G1.
  assert (G : g1 = Game.set_tick (Game.tick g + Game.frame_dt ms) g).
  { rewrite G1. destruct g; simpl in *. now rewrite S. }
  unfold Game.run_iteration. rewrite E, S1. now rewrite G.
Qed.

(** C4 (amended). The pause key toggles Playing to Paused and Paused back
    to Playing.  An iteration of the loop that finds the game Paused after
    its events leaves the whole session unchanged: player, enemies,
    bullets, power-ups, score, combo, spawner, and the star field too,
    which does not scroll; only the animation clock [tick] advances. *)
Theorem paused_iteration_frozen `{MathLib} :
  (forall g, Game.state g = PLAYING ->
     Game._handle_events [KEYDOWN KEY_p] g = Some (Game.set_state PAUSED g))
  /\ (forall g, Game.state g = PAUSED ->
     Game._handle_events [KEYDOWN KEY_p] g = Some (Game.set_state PLAYING g))
  /\ (forall ms evs keys g g1,
     Game.state g = PAUSED ->
     Game._handle_events evs (Game.set_tick (Game.tick g + Game.frame_dt ms) g)
       = Some g1 ->
     Game.state g1 = PAUSED ->
     exists g',
       Game.run_iteration ms evs keys g = Some g'
       /\ g' = Game.set_tick (Game.tick g + Game.frame_dt ms) g
       /\ Game.state g' = PAUSED
       /\ Game.player g' = Game.player g
       /\ Game.enemies g' = Game.enemies g
       /\ Game.bullets g' = Game.bullets g
       /\ Game.powerups g' = Game.powerups g
       /\ Game.score g' = Game.score g
       /\ (Game.combo_chain g', Game.combo_timer g', Game.multiplier g')
          = (Game.combo_chain g, Game.combo_timer g, Game.multiplier g)
       /\ Game.spawner g' = Game.spawner g
       /\ Game.stars g' = Game.stars g).
Proof.
  split; [|split].
  - intros g S. simpl. now rewrite S.
  - intros g S. simpl. now rewrite S.
  - intros ms evs keys g g1 S E S1.
    exists (Game.set_tick (Game.tick g + Game.frame_dt ms) g).
    split; [exact (run_iteration_paused ms evs keys g g1 S E S1)|].
    simpl. repeat split; try reflexivity. exact S.
Qed.

Lemma paused_iteration_frozen_witness :
  Game.state paused0 = PAUSED
  /\ Game.state (Game.set_tick (Game.tick paused0 + Game.frame_dt 16) paused0) = PAUSED
  /\ exists g',
       @Game.run_iteration math_approx 16 [] no_keys paused0 = Some g'
       /\ Game.stars g' = Game.stars paused0.
Proof.
  split; [reflexivity|]. split; [reflexivity|].
  destruct (proj2 (proj2 (@paused_iteration_frozen math_approx))
              16 [] no_keys paused0
              (Game.set_tick (Game.tick paused0 + Game.frame_dt 16) paused0)
              eq_refl eq_refl eq_refl)
    as (g' & R & _ & _ & _ & _ & _ & _ & _ & _ & _ & St).
  exists g'. split; assumption.
Defined.

(** While paused the star field does not scroll: the iteration keeps the
    stars where an update of the star field would have moved them. *)
Lemma paused_stars_do_not_scroll :
  exists g',
    @Game.run_iteration math_approx 16 [] no_keys paused0 = Some g'
    /\ Game.stars g' = Game.stars paused0
    /\ fst (StarField.update (Game.frame_dt 16) (Game.stars paused0) (Game.rng paused0))
       <> Game.stars paused0.
Proof.
  exists (Game.set_tick (Game.tick paused0 + Game.frame_dt 16) paused0).
  split; [apply (@run_iteration_paused math_approx) with (g1 := Game.set_tick (Game.tick paused0 + Game.frame_dt 16) paused0); reflexivity|].
  split; [vm_compute; reflexivity|].
  intro E.
  apply (f_equal (fun l => match l with
                           | s :: _ => Qnum (star_y s)
                           | [] => 0
                           end)) in E.
  vm_compute in E. discriminate.
Qed.

(** ** Collisions: what the loops leave alone *)

Section CollisionFrames.

Import Game.

Variable player_rect : Rect.

Lemma damage_player_frame (a : Z) (g : t) :
  enemies (damage_player a g) = enemies g
  /\ bullets (damage_player a g) = bullets g
  /\ powerups (damage_player a g) = powerups g
  /\ score (damage_player a g) = score g
  /\ calls (damage_player a g) = calls g
  /\ player (damage_player a g) = Player.take_damage a (player g).
Proof.
  unfold damage_player. destruct (_ <? _); simpl; auto 10.
Qed.

Lemma damage_player_invincible (a : Z) (g : t) :
  (0 < Player.invincible (player g))%Q -> damage_player a g = g.
Proof.
  intro H. unfold damage_player.
  rewrite take_damage_invincible by assumption. simpl.
  rewrite Z.ltb_irrefl. now destruct g.
Qed.

(** The scan of a player bullet keeps the length of the enemy list and
    every enemy that is not alive. *)
Lemma hit_first_enemy_dead_frozen (b : Bullet.t) (es : list Enemy.t) :
  forall es' e', hit_first_enemy b es = Some (es', e') ->
  forall i x, nth_error es i = Some x -> Enemy.alive x = false ->
  nth_error es' i = Some x.
Proof.
  induction es as [|e rest IH]; intros es' e' H i x N A; simpl in H.
  - discriminate.
  - destruct (Enemy.alive e && colliderect (Bullet.rect b) (Enemy.rect e)) eqn:C.
    + inversion H; subst. destruct i as [|i]; simpl in *; [|assumption].
      inversion N; subst. rewrite A in C. discriminate.
    + destruct (hit_first_enemy b rest) as [[rest' e1]|] eqn:R; [|discriminate].
      inversion H; subst. destruct i as [|i]; simpl in *; [assumption|].
      eapply IH; eauto.
Qed.

(** A bullet that overlaps no alive enemy hits nothing. *)
Lemma hit_first_enemy_none (b : Bullet.t) (es : list Enemy.t) :
  (forall x, In x es ->
     Enemy.alive x && colliderect (Bullet.rect b) (Enemy.rect x) = false) ->
  hit_first_enemy b es = None.
Proof.
  induction es as [|e rest IH]; intro H; simpl; [reflexivity|].
  rewrite (H e (or_introl eq_refl)).
  rewrite IH; [reflexivity|]. intros x I. apply H. now right.
Qed.

(** The scan passes over the enemies that the bullet does not hit. *)
Lemma hit_first_enemy_skip (b : Bullet.t) (es1 es2 : list Enemy.t) :
  (forall x, In x es1 ->
     Enemy.alive x && colliderect (Bullet.rect b) (Enemy.rect x) = false) ->
  hit_first_enemy b (es1 ++ es2)
  = match hit_first_enemy b es2 with
    | None => None
    | Some (l, h) => Some (es1 ++ l, h)
    end.
Proof.
  induction es1 as [|e rest IH]; intro H; simpl.
  - destruct (hit_first_enemy b es2) as [[l h]|]; reflexivity.
  - rewrite (H e (or_introl eq_refl)).
    rewrite IH by (intros x I; apply H; now right).
    destruct (hit_first_enemy b es2) as [[l h]|]; reflexivity.
Qed.

Lemma collide_bullet_dead_frozen (b : Bullet.t) (g : t) :
  forall i x, nth_error (enemies g) i = Some x -> Enemy.alive x = false ->
  nth_error (enemies (snd (collide_bullet player_rect b g))) i = Some x.
Proof.
  intros i x N A. unfold collide_bullet.
  destruct (negb (Bullet.alive b)); [assumption|].
  destruct (Bullet.is_player b).
  - destruct (hit_first_enemy b (enemies g)) as [[es' e']|] eqn:Hf; [|assumption].
    simpl. pose proof (hit_first_enemy_dead_frozen _ _ _ _ Hf _ _ N A) as N'.
    destruct (negb (Enemy.alive e')); [|exact N'].
    now rewrite (proj1 (proj2 (proj2 (on_enemy_killed_frame e' _)))).
  - destruct (colliderect _ _); [|assumption]. simpl.
    now rewrite (proj1 (damage_player_frame _ _)).
Qed.

Lemma collide_bullets_dead_frozen (bs : list Bullet.t) :
  forall (g : t) i x,
  nth_error (enemies g) i = Some x -> Enemy.alive x = false ->
  nth_error (enemies (snd (collide_bullets player_rect bs g))) i = Some x.
Proof.
  induction bs as [|b rest IH]; intros g i x N A; simpl; [assumption|].
  pose proof (collide_bullet_dead_frozen b g i x N A) as N1.
  destruct (collide_bullet player_rect b g) as [b' g1]. simpl in N1.
  specialize (IH g1 i x N1 A).
  destruct (collide_bullets player_rect rest g1) as [rest' g2]. exact IH.
Qed.

Lemma collide_bodies_dead_frozen (es : list Enemy.t) :
  forall (g : t) i x,
  nth_error es i = Some x -> Enemy.alive x = false ->
  nth_error (fst (collide_bodies player_rect es g)) i = Some x.
Proof.
  induction es as [|e rest IH]; intros g i x N A; simpl.
  - destruct i; discriminate.
  - destruct (collide_body player_rect e g) as [e' g1] eqn:B.
    specialize (IH g1).
    destruct (collide_bodies player_rect rest g1) as [rest' g2]. simpl in *.
    destruct i as [|i]; simpl in *.
    + inversion N; subst. unfold collide_body in B. rewrite A in B.
      simpl in B. now inversion B.
    + now apply IH.
Qed.

Lemma bullets_pass_bullets (g : t) :
  bullets (bullets_pass player_rect g)
  = fst (collide_bullets player_rect (bullets g) g).
Proof.
  unfold bullets_pass. now destruct (collide_bullets _ _ _).
Qed.

Lemma bullets_pass_enemies (g : t) :
  enemies (bullets_pass player_rect g)
  = enemies (snd (collide_bullets player_rect (bullets g) g)).
Proof.
  unfold bullets_pass. now destruct (collide_bullets _ _ _).
Qed.

Lemma collide_body_frame (e : Enemy.t) (g : t) :
  bullets (snd (collide_body player_rect e g)) = bullets g.
Proof.
  unfold collide_body. destruct (_ && _); [|reflexivity]. simpl.
  apply (proj1 (proj2 (damage_player_frame _ _))).
Qed.

Lemma collide_bodies_bullets (es : list Enemy.t) : forall g : t,
  bullets (snd (collide_bodies player_rect es g)) = bullets g.
Proof.
  induction es as [|e rest IH]; intro g; simpl; [reflexivity|].
  pose proof (collide_body_frame e g) as F.
  destruct (collide_body player_rect e g) as [e' g1]. simpl in F.
  specialize (IH g1).
  destruct (collide_bodies player_rect rest g1) as [rest' g2]. simpl in *.
  congruence.
Qed.

Lemma bodies_pass_bullets (g : t) :
  bullets (bodies_pass player_rect g) = bullets g.
Proof.
  unfold bodies_pass.
  pose proof (collide_bodies_bullets (enemies g) g) as F.
  now destruct (collide_bodies _ _ _).
Qed.

Lemma bodies_pass_enemies (g : t) :
  enemies (bodies_pass player_rect g)
  = fst (collide_bodies player_rect (enemies g) g).
Proof.
  unfold bodies_pass. now destruct (collide_bodies _ _ _).
Qed.

Lemma collect_powerups_frame (ps : list PowerUp.t) : forall g : t,
  bullets (snd (collect_powerups player_rect ps g)) = bullets g
  /\ enemies (snd (collect_powerups player_rect ps g)) = enemies g
  /\ combo_chain (snd (collect_powerups player_rect ps g)) = combo_chain g
  /\ combo_timer (snd (collect_powerups player_rect ps g)) = combo_timer g
  /\ multiplier (snd (collect_powerups player_rect ps g)) = multiplier g
  /\ score (snd (collect_powerups player_rect ps g)) = score g.
Proof.
  induction ps as [|p rest IH]; intro g; simpl; [auto 10|].
  destruct (collect_powerup player_rect p g) as [p' g1] eqn:C.
  specialize (IH g1).
  destruct (collect_powerups player_rect rest g1) as [rest' g2]. simpl in *.
  assert (F : bullets g1 = bullets g /\ enemies g1 = enemies g
              /\ combo_chain g1 = combo_chain g /\ combo_timer g1 = combo_timer g
              /\ multiplier g1 = multiplier g /\ score g1 = score g).
  { unfold collect_powerup in C. destruct (_ && _); inversion C; simpl; auto 10. }
  destruct IH as (I1 & I2 & I3 & I4 & I5 & I6).
  destruct F as (F1 & F2 & F3 & F4 & F5 & F6).
  repeat split; congruence.
Qed.

Lemma powerups_pass_frame (g : t) :
  bullets (powerups_pass player_rect g) = bullets g
  /\ enemies (powerups_pass player_rect g) = enemies g
  /\ combo_chain (powerups_pass player_rect g) = combo_chain g
  /\ combo_timer (powerups_pass player_rect g) = combo_timer g
  /\ multiplier (powerups_pass player_rect g) = multiplier g
  /\ score (powerups_pass player_rect g) = score g.
Proof.
  unfold powerups_pass.
  pose proof (collect_powerups_frame (powerups g) g) as F.
  now destruct (collect_powerups _ _ _).
Qed.

End CollisionFrames.

(** ** Two bullets on one Scout *)

Section TwoBullets.

Import Game.

Variables (g : t) (b1 b2 : Bullet.t) (e : Enemy.t) (es1 es2 : list Enemy.t).

Hypothesis enemies_g : enemies g = es1 ++ e :: es2.
Hypothesis b1_alive : Bullet.alive b1 = true.
Hypothesis b1_player : Bullet.is_player b1 = true.
Hypothesis b1_damage : Bullet.damage b1 = 20.
Hypothesis b2_alive : Bullet.alive b2 = true.
Hypothesis b2_player : Bullet.is_player b2 = true.
Hypothesis e_alive : Enemy.alive e = true.
Hypothesis e_hp : Enemy.hp e = 20.
Hypothesis b1_overlaps : colliderect (Bullet.rect b1) (Enemy.rect e) = true.
Hypothesis b1_first : forall x, In x es1 -> misses b1 x.
Hypothesis b2_others : forall x, In x (es1 ++ es2) -> misses b2 x.

Let e' := Enemy.take_damage 20 e.

Lemma scout_killed : Enemy.alive e' = false /\ Enemy.hp e' = 0.
Proof.
  unfold e', Enemy.take_damage. simpl. rewrite e_hp. simpl. auto.
Qed.

Let g1 : t :=
  _on_enemy_killed e'
    (call (sound_play "hit" (1 # 2))
       (call (emit_hit (Bullet.x b1) (Bullet.y b1))
          (set_enemies (es1 ++ e' :: es2) g))).

Lemma first_bullet_kills (pr : Rect) :
  collide_bullet pr b1 g = (Bullet.set_alive false b1, g1).
Proof.
  unfold collide_bullet. rewrite b1_alive, b1_player, enemies_g. simpl negb. cbv iota.
  rewrite hit_first_enemy_skip by exact b1_first.
  simpl hit_first_enemy. rewrite e_alive, b1_overlaps, b1_damage. simpl andb. cbv iota.
  fold e'. rewrite (proj1 scout_killed). reflexivity.
Qed.

Lemma after_first_bullet :
  enemies g1 = es1 ++ e' :: es2
  /\ score g1 = score g + Enemy.score e * Z.min 5 (1 + (combo_chain g + 1) / 3)
  /\ combo_chain g1 = combo_chain g + 1.
Proof.
  unfold g1. split; [|split].
  - now rewrite (proj1 (proj2 (proj2 (on_enemy_killed_frame _ _)))).
  - now rewrite (proj2 (proj2 (proj2 (on_enemy_killed_combo _ _)))).
  - now rewrite (proj1 (on_enemy_killed_combo _ _)).
Qed.

Lemma second_bullet_misses (pr : Rect) :
  collide_bullet pr b2 g1 = (b2, g1).
Proof.
  unfold collide_bullet.
  rewrite b2_alive, b2_player, (proj1 after_first_bullet). simpl negb. cbv iota.
  rewrite hit_first_enemy_none; [reflexivity|].
  intros x I. apply in_app_or in I. destruct I as [I|[I|I]].
  - apply b2_others. apply in_or_app. now left.
  - subst x. unfold misses. now rewrite (proj1 scout_killed).
  - apply b2_others. apply in_or_app. now right.
Qed.

Lemma two_bullets_prefix (pr : Rect) (rest : list Bullet.t) :
  exists g2,
    enemies g2 = es1 ++ e' :: es2
    /\ score g2 = score g + Enemy.score e * Z.min 5 (1 + (combo_chain g + 1) / 3)
    /\ combo_chain g2 = combo_chain g + 1
    /\ collide_bullets pr (b1 :: b2 :: rest) g
       = (Bullet.set_alive false b1 :: b2 :: fst (collide_bullets pr rest g2),
          snd (collide_bullets pr rest g2)).
Proof.
  exists g1. destruct after_first_bullet as (A1 & A2 & A3).
  repeat split; try assumption.
  simpl. rewrite first_bullet_kills, second_bullet_misses.
  destruct (collide_bullets pr rest g1); reflexivity.
Qed.

End TwoBullets.

Lemma nth_error_middle {A : Type} (l1 l2 : list A) (a : A) :
  nth_error (l1 ++ a :: l2) (List.length l1) = Some a.
Proof.
  induction l1 as [|h t IH]; simpl; [reflexivity|exact IH].
Qed.

(** C2. Scenario A.  Two alive player bullets of damage 20 are the first
    two bullets of the pass and both overlap the same alive Scout with 20
    HP (the first bullet reaches no enemy before it, the second overlaps no
    other alive enemy).  After the collision pass the first bullet is
    deactivated (its alive flag is false, the rest of it as before), the
    Scout is dead with 0 HP, and the second bullet is in the list
    unchanged, still alive; the kill was scored once, by the first
    bullet. *)
Theorem second_bullet_not_consumed
    (g : Game.t) (b1 b2 : Bullet.t) (rest : list Bullet.t)
    (e : Enemy.t) (es1 es2 : list Enemy.t) :
  Game.bullets g = b1 :: b2 :: rest ->
  Game.enemies g = es1 ++ e :: es2 ->
  Bullet.alive b1 = true -> Bullet.is_player b1 = true -> Bullet.damage b1 = 20 ->
  Bullet.alive b2 = true -> Bullet.is_player b2 = true -> Bullet.damage b2 = 20 ->
  Enemy.kind e = SCOUT -> Enemy.alive e = true -> Enemy.hp e = 20 ->
  colliderect (Bullet.rect b1) (Enemy.rect e) = true ->
  colliderect (Bullet.rect b2) (Enemy.rect e) = true ->
  (forall x, In x es1 -> misses b1 x) ->
  (forall x, In x (es1 ++ es2) -> misses b2 x) ->
  (exists rest',
      Game.bullets (Game._check_collisions g)
      = Bullet.set_alive false b1 :: b2 :: rest')
  /\ nth_error (Game.enemies (Game._check_collisions g)) (List.length es1)
     = Some (Enemy.take_damage 20 e)
  /\ Enemy.alive (Enemy.take_damage 20 e) = false
  /\ Enemy.hp (Enemy.take_damage 20 e) = 0
  /\ (exists g2,
        Game.collide_bullets (Player.rect (Game.player g)) [b1; b2] g
        = ([Bullet.set_alive false b1; b2], g2)
        /\ Game.combo_chain g2 = Game.combo_chain g + 1
        /\ Game.score g2
           = Game.score g
             + Enemy.score e * Z.min 5 (1 + (Game.combo_chain g + 1) / 3))
  /\ (exists b1' b2' rest',
        Game.bullets (Game._check_collisions g) = b1' :: b2' :: rest'
        /\ Bullet.alive b1' = false
        /\ (Bullet.x b1', Bullet.y b1', Bullet.is_player b1', Bullet.damage b1')
           = (Bullet.x b1, Bullet.y b1, Bullet.is_player b1, Bullet.damage b1)
        /\ b2' = b2 /\ Bullet.alive b2' = true).
Proof.
  intros Hb He A1 P1 D1 A2 P2 D2 K Ae Hp O1 O2 F1 F2.
  unfold Game._check_collisions.
  set (pr := Player.rect (Game.player g)).
  destruct (two_bullets_prefix g b1 b2 e es1 es2 He A1 P1 D1 A2 P2 Ae Hp O1 F1 F2 pr rest)
    as (g2 & E2 & S2 & C2 & CB).
  destruct (powerups_pass_frame pr (Game.bodies_pass pr (Game.bullets_pass pr g)))
    as (PB & PE & _).
  assert (BL : Game.bullets
                 (Game.powerups_pass pr
                    (Game.bodies_pass pr (Game.bullets_pass pr g)))
               = Bullet.set_alive false b1 :: b2
                 :: fst (Game.collide_bullets pr rest g2)).
  { rewrite PB, bodies_pass_bullets, bullets_pass_bullets, Hb, CB. reflexivity. }
  split; [|split; [|split; [|split; [|split]]]];
    [| | | | |exists (Bullet.set_alive false b1), b2,
                (fst (Game.collide_bullets pr rest g2));
              split; [exact BL|]; split; [reflexivity|];
              split; [reflexivity|]; split; [reflexivity|exact A2]].
  - exists (fst (Game.collide_bullets pr rest g2)). exact BL.
  - rewrite PE, bodies_pass_enemies.
    apply collide_bodies_dead_frozen; [|apply (scout_killed e Hp)].
    rewrite bullets_pass_enemies, Hb, CB. simpl snd.
    apply collide_bullets_dead_frozen; [|apply (scout_killed e Hp)].
    rewrite E2. apply nth_error_middle.
  - apply (scout_killed e Hp).
  - apply (scout_killed e Hp).
  - destruct (two_bullets_prefix g b1 b2 e es1 es2 He A1 P1 D1 A2 P2 Ae Hp O1 F1 F2 pr [])
      as (g3 & _ & S3 & C3 & CB3).
    exists g3. simpl in CB3. auto.
Qed.

Lemma second_bullet_not_consumed_witness :
  exists b1' b2' rest',
    Game.bullets (Game._check_collisions two_bullets_session)
    = b1' :: b2' :: rest'
    /\ Bullet.alive b1' = false
    /\ (Bullet.x b1', Bullet.y b1', Bullet.is_player b1', Bullet.damage b1')
       = (Bullet.x (Bullet.init 100 100 0 (- BULLET_SPEED) true),
          Bullet.y (Bullet.init 100 100 0 (- BULLET_SPEED) true),
          Bullet.is_player (Bullet.init 100 100 0 (- BULLET_SPEED) true),
          Bullet.damage (Bullet.init 100 100 0 (- BULLET_SPEED) true))
    /\ b2' = Bullet.init 102 101 0 (- BULLET_SPEED) true
    /\ Bullet.alive b2' = true.
Proof.
  refine (proj2 (proj2 (proj2 (proj2 (proj2
           (second_bullet_not_consumed two_bullets_session
            (Bullet.init 100 100 0 (- BULLET_SPEED) true)
            (Bullet.init 102 101 0 (- BULLET_SPEED) true)
            [] (scout_at 100 100) [] []
            _ _ _ _ _ _ _ _ _ _ _ _ _ _ _))))));
    try (vm_compute; reflexivity);
    intros x I; destruct I.
Defined.

(** ** Collisions with an invincible player *)

Section InvincibleCollisions.

Import Game.

Variable pr : Rect.

Lemma combo_kept_refl (g : t) : combo_kept g g.
Proof. unfold combo_kept. split; [lia|auto]. Qed.

Lemma combo_kept_trans (g1 g2 g3 : t) :
  combo_kept g1 g2 -> combo_kept g2 g3 -> combo_kept g1 g3.
Proof.
  unfold combo_kept. intros [L1 E1] [L2 E2]. split; [lia|].
  intro E. destruct E1 as [T1 M1]; [lia|]. destruct E2 as [T2 M2]; [lia|].
  split; congruence.
Qed.

(** An enemy bullet that overlaps the invincible player is consumed, and
    nothing but the trace changes. *)
Lemma collide_bullet_invincible (b : Bullet.t) (g : t) :
  (0 < Player.invincible (player g))%Q ->
  Bullet.alive b = true -> Bullet.is_player b = false ->
  colliderect (Bullet.rect b) pr = true ->
  collide_bullet pr b g
  = (Bullet.set_alive false b,
     call (sound_play "hit" (1 # 2))
       (call (emit_hit (Bullet.x b) (Bullet.y b)) g)).
Proof.
  intros I A P C. unfold collide_bullet.
  rewrite A, P, C. simpl. now rewrite damage_player_invincible.
Qed.

(** An enemy whose body overlaps the invincible player is deactivated,
    with an explosion, and nothing but the trace changes. *)
Lemma collide_body_invincible (e : Enemy.t) (g : t) :
  (0 < Player.invincible (player g))%Q ->
  Enemy.alive e = true -> colliderect (Enemy.rect e) pr = true ->
  collide_body pr e g
  = (Enemy.set_alive false e,
     call (sound_play "explosion" (7 # 10))
       (call (emit_explosion (Enemy.x e) (Enemy.y e) 18) g)).
Proof.
  intros I A C. unfold collide_body.
  rewrite A, C. simpl. now rewrite damage_player_invincible.
Qed.

Lemma collide_bullet_keeps (b : Bullet.t) (g : t) :
  (0 < Player.invincible (player g))%Q ->
  player (snd (collide_bullet pr b g)) = player g
  /\ combo_kept g (snd (collide_bullet pr b g)).
Proof.
  intro I. unfold collide_bullet.
  destruct (negb (Bullet.alive b)); [split; [reflexivity|apply combo_kept_refl]|].
  destruct (Bullet.is_player b).
  - destruct (hit_first_enemy b (enemies g)) as [[es' e']|];
      [|split; [reflexivity|apply combo_kept_refl]].
    simpl. destruct (negb (Enemy.alive e')).
    + split.
      * now rewrite (proj1 (proj2 (on_enemy_killed_frame _ _))).
      * destruct (on_enemy_killed_combo e'
                    (call (sound_play "hit" (1 # 2))
                       (call (emit_hit (Bullet.x b) (Bullet.y b))
                          (set_enemies es' g)))) as (C & _).
        unfold combo_kept. rewrite C. simpl. split; intros; lia.
    + split; [reflexivity|]. unfold combo_kept. simpl. split; [lia|auto].
  - destruct (colliderect (Bullet.rect b) pr).
    + simpl. rewrite damage_player_invincible by assumption.
      split; [reflexivity|]. unfold combo_kept. simpl. split; [lia|auto].
    + split; [reflexivity|apply combo_kept_refl].
Qed.

(** What the bullet loop makes of an enemy bullet does not depend on the
    state of the game. *)
Lemma collide_bullet_enemy_bullet (b : Bullet.t) (g : t) :
  Bullet.alive b = true -> Bullet.is_player b = false ->
  colliderect (Bullet.rect b) pr = true ->
  fst (collide_bullet pr b g) = Bullet.set_alive false b.
Proof.
  intros A P C. unfold collide_bullet. now rewrite A, P, C.
Qed.

Lemma collide_bullets_invincible (bs : list Bullet.t) : forall g : t,
  (0 < Player.invincible (player g))%Q ->
  player (snd (collide_bullets pr bs g)) = player g
  /\ combo_kept g (snd (collide_bullets pr bs g)).
Proof.
  induction bs as [|b rest IH]; intros g I; simpl.
  - split; [reflexivity|apply combo_kept_refl].
  - destruct (collide_bullet_keeps b g I) as [P1 K1].
    destruct (collide_bullet pr b g) as [b' g1]. simpl in *.
    assert (I1 : (0 < Player.invincible (player g1))%Q) by now rewrite P1.
    destruct (IH g1 I1) as [P2 K2].
    destruct (collide_bullets pr rest g1) as [rest' g2]. simpl in *.
    split; [congruence|]. eapply combo_kept_trans; eassumption.
Qed.

Lemma collide_bullets_consumes (bs : list Bullet.t) : forall (g : t) i b,
  nth_error bs i = Some b ->
  Bullet.alive b = true -> Bullet.is_player b = false ->
  colliderect (Bullet.rect b) pr = true ->
  nth_error (fst (collide_bullets pr bs g)) i = Some (Bullet.set_alive false b).
Proof.
  induction bs as [|b0 rest IH]; intros g i b N A P C.
  - destruct i; discriminate.
  - simpl.
    pose proof (collide_bullet_enemy_bullet b0 g) as F.
    destruct (collide_bullet pr b0 g) as [b' g1]. simpl in F.
    specialize (IH g1).
    destruct (collide_bullets pr rest g1) as [rest' g2]. simpl in *.
    destruct i as [|i]; simpl in *.
    + inversion N; subst. now rewrite F.
    + now apply IH.
Qed.

Lemma collide_body_calls (e : Enemy.t) (g : t) (c : Call) :
  In c (calls g) -> In c (calls (snd (collide_body pr e g))).
Proof.
  intro H. unfold collide_body. destruct (_ && _); [|assumption]. simpl.
  rewrite (proj1 (proj2 (proj2 (proj2 (proj2 (damage_player_frame _ _)))))).
  apply in_or_app. left. apply in_or_app. now left.
Qed.

Lemma collide_bodies_calls (es : list Enemy.t) : forall (g : t) (c : Call),
  In c (calls g) -> In c (calls (snd (collide_bodies pr es g))).
Proof.
  induction es as [|e rest IH]; intros g c H; simpl; [assumption|].
  pose proof (collide_body_calls e g c H) as H1.
  destruct (collide_body pr e g) as [e' g1]. simpl in H1.
  specialize (IH g1 c H1).
  destruct (collide_bodies pr rest g1) as [rest' g2]. exact IH.
Qed.

Lemma collide_bodies_invincible (es : list Enemy.t) : forall g : t,
  (0 < Player.invincible (player g))%Q ->
  player (snd (collide_bodies pr es g)) = player g
  /\ combo_chain (snd (collide_bodies pr es g)) = combo_chain g
  /\ combo_timer (snd (collide_bodies pr es g)) = combo_timer g
  /\ multiplier (snd (collide_bodies pr es g)) = multiplier g
  /\ score (snd (collide_bodies pr es g)) = score g
  /\ forall i e, nth_error es i = Some e ->
       Enemy.alive e = true -> colliderect (Enemy.rect e) pr = true ->
       nth_error (fst (collide_bodies pr es g)) i = Some (Enemy.set_alive false e)
       /\ In (emit_explosion (Enemy.x e) (Enemy.y e) 18)
             (calls (snd (collide_bodies pr es g))).
Proof.
  induction es as [|e0 rest IH]; intros g I; simpl.
  - repeat split; try reflexivity; destruct i; discriminate.
  - assert (B : exists g1, collide_body pr e0 g
                   = (if Enemy.alive e0 && colliderect (Enemy.rect e0) pr
                      then Enemy.set_alive false e0 else e0, g1)
                 /\ player g1 = player g /\ combo_chain g1 = combo_chain g
                 /\ combo_timer g1 = combo_timer g /\ multiplier g1 = multiplier g
                 /\ score g1 = score g
                 /\ (Enemy.alive e0 && colliderect (Enemy.rect e0) pr = true ->
                     In (emit_explosion (Enemy.x e0) (Enemy.y e0) 18) (calls g1))).
    { unfold collide_body.
      destruct (Enemy.alive e0 && colliderect (Enemy.rect e0) pr).
      - rewrite damage_player_invincible by assumption.
        eexists. split; [reflexivity|]. simpl. repeat split.
        intros _. apply in_or_app. left. apply in_or_app. right. now left.
      - eexists. split; [reflexivity|]. repeat split. discriminate. }
    destruct B as (g1 & B & P1 & C1 & T1 & M1 & S1 & X1). rewrite B.
    assert (I1 : (0 < Player.invincible (player g1))%Q) by now rewrite P1.
    destruct (IH g1 I1) as (P2 & C2 & T2 & M2 & S2 & N2).
    pose proof (collide_bodies_calls rest g1) as Mono.
    destruct (collide_bodies pr rest g1) as [rest' g2]. simpl in *.
    repeat split; try congruence.
    + destruct i as [|i]; simpl in *.
      * inversion H; subst. now rewrite H0, H1.
      * now apply N2.
    + destruct i as [|i]; simpl in *.
      * inversion H; subst. apply Mono, X1. now rewrite H0, H1.
      * now apply (N2 i e).
Qed.

End InvincibleCollisions.

Lemma bullets_pass_rest (pr : Rect) (g : Game.t) :
  Game.player (Game.bullets_pass pr g)
  = Game.player (snd (Game.collide_bullets pr (Game.bullets g) g))
  /\ combo_kept (snd (Game.collide_bullets pr (Game.bullets g) g))
                (Game.bullets_pass pr g).
Proof.
  unfold Game.bullets_pass. destruct (Game.collide_bullets _ _ _) as [bs g1].
  simpl. split; [reflexivity|]. unfold combo_kept. simpl. split; [lia|auto].
Qed.

Lemma bodies_pass_rest (pr : Rect) (g : Game.t) :
  Game.player (Game.bodies_pass pr g)
  = Game.player (snd (Game.collide_bodies pr (Game.enemies g) g))
  /\ Game.calls (Game.bodies_pass pr g)
     = Game.calls (snd (Game.collide_bodies pr (Game.enemies g) g))
  /\ Game.combo_chain (Game.bodies_pass pr g)
     = Game.combo_chain (snd (Game.collide_bodies pr (Game.enemies g) g))
  /\ Game.combo_timer (Game.bodies_pass pr g)
     = Game.combo_timer (snd (Game.collide_bodies pr (Game.enemies g) g))
  /\ Game.multiplier (Game.bodies_pass pr g)
     = Game.multiplier (snd (Game.collide_bodies pr (Game.enemies g) g)).
Proof.
  unfold Game.bodies_pass. destruct (Game.collide_bodies _ _ _) as [es g1].
  simpl. auto.
Qed.

(** C10. With the player invincible, the collision pass still consumes what
    touches the ship: every alive enemy bullet that overlaps the player is
    deactivated, and every enemy that is alive when the body loop starts
    and overlaps the player is deactivated, with its explosion in the
    trace; deactivated means that the alive flag is false afterwards, with
    position, damage and HP as before.  After the two loops the player is
    unchanged, health and shield included, and the combo has not been
    reset. *)
Theorem invincible_player_consumes_colliders (g : Game.t) :
  (0 < Player.invincible (Game.player g))%Q ->
  let pr := Player.rect (Game.player g) in
  let g1 := Game.bullets_pass pr g in
  let g2 := Game.bodies_pass pr g1 in
  (forall i b, nth_error (Game.bullets g) i = Some b ->
     Bullet.alive b = true -> Bullet.is_player b = false ->
     colliderect (Bullet.rect b) pr = true ->
     exists b', nth_error (Game.bullets (Game._check_collisions g)) i = Some b'
       /\ Bullet.alive b' = false
       /\ b' = Bullet.set_alive false b
       /\ (Bullet.x b', Bullet.y b', Bullet.is_player b', Bullet.damage b')
          = (Bullet.x b, Bullet.y b, Bullet.is_player b, Bullet.damage b))
  /\ (forall i e, nth_error (Game.enemies g1) i = Some e ->
     Enemy.alive e = true -> colliderect (Enemy.rect e) pr = true ->
     (exists e', nth_error (Game.enemies (Game._check_collisions g)) i = Some e'
        /\ Enemy.alive e' = false
        /\ e' = Enemy.set_alive false e
        /\ (Enemy.x e', Enemy.y e', Enemy.hp e', Enemy.kind e')
           = (Enemy.x e, Enemy.y e, Enemy.hp e, Enemy.kind e))
     /\ In (emit_explosion (Enemy.x e) (Enemy.y e) 18) (Game.calls g2))
  /\ Game.player g2 = Game.player g
  /\ Player.hp (Game.player g2) = Player.hp (Game.player g)
  /\ Player.shield_hp (Game.player g2) = Player.shield_hp (Game.player g)
  /\ combo_kept g (Game._check_collisions g).
Proof.
  intros I pr g1 g2.
  destruct (powerups_pass_frame pr g2) as (PB & PE & PC & PT & PM & _).
  destruct (bullets_pass_rest pr g) as (BP & BK).
  destruct (collide_bullets_invincible pr (Game.bullets g) g I) as (CP & CK).
  assert (P1 : Game.player g1 = Game.player g) by (unfold g1; congruence).
  assert (I1 : (0 < Player.invincible (Game.player g1))%Q) by now rewrite P1.
  destruct (collide_bodies_invincible pr (Game.enemies g1) g1 I1)
    as (DP & DC & DT & DM & _ & DN).
  destruct (bodies_pass_rest pr g1) as (RP & RL & RC & RT & RM).
  assert (P2 : Game.player g2 = Game.player g) by (unfold g2; congruence).
  unfold Game._check_collisions. fold pr. fold g1. fold g2.
  split; [|split; [|split; [|split; [|split]]]].
  - intros i b N A P C. exists (Bullet.set_alive false b).
    split; [|repeat split].
    rewrite PB. unfold g2. rewrite bodies_pass_bullets. unfold g1.
    rewrite bullets_pass_bullets. now apply collide_bullets_consumes.
  - intros i e N A C. destruct (DN i e N A C) as [N' X].
    split.
    + exists (Enemy.set_alive false e). split; [|repeat split].
      rewrite PE. unfold g2. now rewrite bodies_pass_enemies.
    + unfold g2. now rewrite RL.
  - exact P2.
  - now rewrite P2.
  - now rewrite P2.
  - apply combo_kept_trans with g1;
      [eapply combo_kept_trans; [exact CK|exact BK]|].
    unfold combo_kept. rewrite PC, PT, PM.
    fold g2 in RC, RT, RM. rewrite RC, RT, RM, DC, DT, DM.
    split; [lia|auto].
Qed.

Lemma invincible_player_consumes_colliders_witness :
  (0 < Player.invincible (Game.player invincible_session))%Q
  /\ (exists b',
        nth_error (Game.bullets (Game._check_collisions invincible_session)) 0
        = Some b'
        /\ Bullet.alive b' = false)
  /\ (exists e',
        nth_error (Game.enemies (Game._check_collisions invincible_session)) 0
        = Some e'
        /\ Enemy.alive e' = false)
  /\ Player.hp (Game.player
        (Game.bodies_pass (Player.rect (Game.player invincible_session))
           (Game.bullets_pass (Player.rect (Game.player invincible_session))
              invincible_session)))
     = Player.hp (Game.player invincible_session).
Proof.
  assert (I : (0 < Player.invincible (Game.player invincible_session))%Q)
    by (vm_compute; reflexivity).
  pose proof (invincible_player_consumes_colliders invincible_session I) as T.
  cbv zeta in T. destruct T as (B & E & _ & Hh & _).
  split; [exact I|]. split; [|split; [|exact Hh]].
  - destruct (B 0%nat (Bullet.init 240 620 0 EBULLET_SPEED false))
      as (b' & N & A & _); try (vm_compute; reflexivity).
    exists b'. split; [exact N|exact A].
  - destruct (E 0%nat (scout_at 240 620)) as [(e' & N & A & _) _];
      try (vm_compute; reflexivity).
    exists e'. split; [exact N|exact A].
Defined.

(** ** The defensive pulse *)

Section Pulse.

Import Game.

Context {M : MathLib}.

Variables px py : Q.

Lemma pulse_bullets_spec (bs : list Bullet.t) : forall g : t,
  pulse_bullets px py bs g
  = (map (pulse_bullet_result px py) bs, calls_all (pulse_sparks px py bs) g).
Proof.
  induction bs as [|b rest IH]; intro g; simpl; [reflexivity|].
  unfold pulse_bullet_result at 1. unfold pulse_sparks. simpl filter.
  destruct (pulse_hits_bullet px py b); rewrite IH; reflexivity.
Qed.

Lemma pulse_enemies_spec (es : list Enemy.t) : forall g : t,
  pulse_enemies px py es g
  = (map (pulse_enemy_result px py) es, kills_all (pulse_kills px py es) g).
Proof.
  induction es as [|e rest IH]; intro g; [reflexivity|].
  cbn [pulse_enemies map]. unfold pulse_enemy_result at 1. unfold pulse_kills.
  cbn [filter].
  destruct (pulse_hits_enemy px py e).
  - cbn [map filter].
    destruct (negb (Enemy.alive (Enemy.take_damage 35 e)));
      rewrite IH; reflexivity.
  - rewrite IH. reflexivity.
Qed.

Lemma kills_all_frame (es : list Enemy.t) : forall g : t,
  bullets (kills_all es g) = bullets g
  /\ enemies (kills_all es g) = enemies g
  /\ player (kills_all es g) = player g.
Proof.
  unfold kills_all.
  induction es as [|e rest IH]; intro g; simpl; [auto|].
  destruct (IH (_on_enemy_killed e g)) as (B & E & P).
  destruct (on_enemy_killed_frame e g) as (_ & P' & E' & B').
  repeat split; congruence.
Qed.

Lemma pulse_hits_bullet_iff (b : Bullet.t) :
  pulse_hits_bullet px py b = true
  <-> Bullet.alive b = true /\ Bullet.is_player b = false
      /\ (distance (Bullet.x b) (Bullet.y b) px py <= PULSE_RADIUS)%Q.
Proof.
  unfold pulse_hits_bullet.
  rewrite !andb_true_iff, negb_true_iff, Qle_bool_iff. tauto.
Qed.

Lemma pulse_hits_enemy_iff (e : Enemy.t) :
  pulse_hits_enemy px py e = true
  <-> Enemy.alive e = true
      /\ (distance (Enemy.x e) (Enemy.y e) px py <= PULSE_RADIUS)%Q.
Proof.
  unfold pulse_hits_enemy.
  rewrite andb_true_iff, Qle_bool_iff. tauto.
Qed.

End Pulse.

Lemma calls_all_frame (cs : list Call) : forall g : Game.t,
  Game.enemies (calls_all cs g) = Game.enemies g
  /\ Game.bullets (calls_all cs g) = Game.bullets g
  /\ Game.player (calls_all cs g) = Game.player g
  /\ Game.score (calls_all cs g) = Game.score g
  /\ Game.calls (calls_all cs g) = Game.calls g ++ cs.
Proof.
  unfold calls_all.
  induction cs as [|c rest IH]; intro g; simpl.
  - rewrite app_nil_r. auto.
  - destruct (IH (Game.call c g)) as (E & B & P & S & C).
    simpl in *. rewrite <- app_assoc in C. auto.
Qed.

Lemma trigger_pulse_spec `{MathLib} (g : Game.t) :
  Game._trigger_pulse g
  = Game.set_enemies
      (map (pulse_enemy_result (Player.x (Game.player g)) (Player.y (Game.player g)))
           (Game.enemies g))
      (kills_all
         (pulse_kills (Player.x (Game.player g)) (Player.y (Game.player g))
                      (Game.enemies g))
         (Game.set_bullets
            (map (pulse_bullet_result (Player.x (Game.player g))
                                      (Player.y (Game.player g)))
                 (Game.bullets g))
            (calls_all
               (emit_explosion (Player.x (Game.player g)) (Player.y (Game.player g)) 28
                :: pulse_sparks (Player.x (Game.player g)) (Player.y (Game.player g))
                                (Game.bullets g))
               g))).
Proof.
  unfold Game._trigger_pulse. cbv zeta.
  change (Game.bullets (Game.call _ g)) with (Game.bullets g).
  rewrite pulse_bullets_spec.
  change (Game.enemies (Game.set_bullets ?bs ?s)) with (Game.enemies s).
  rewrite (proj1 (calls_all_frame _ _)).
  change (Game.enemies (Game.call _ g)) with (Game.enemies g).
  rewrite pulse_enemies_spec. reflexivity.
Qed.

Lemma pulse_kills_iff {M : MathLib} (px py : Q) (es : list Enemy.t) (e : Enemy.t) :
  In e (pulse_kills px py es)
  <-> exists e0, In e0 es
        /\ Enemy.alive e0 = true
        /\ (distance (Enemy.x e0) (Enemy.y e0) px py <= PULSE_RADIUS)%Q
        /\ e = Enemy.take_damage 35 e0
        /\ Enemy.alive e = false.
Proof.
  unfold pulse_kills. rewrite filter_In, in_map_iff, negb_true_iff. split.
  - intros [(e0 & E & I) D]. apply filter_In in I. destruct I as [I H].
    apply pulse_hits_enemy_iff in H. destruct H as [A L].
    exists e0. auto.
  - intros (e0 & I & A & L & E & D). split; [|exact D].
    exists e0. split; [now symmetry|]. apply filter_In. split; [exact I|].
    apply pulse_hits_enemy_iff. auto.
Qed.

(** C7. The pulse.  [distance] is what [math.hypot] returns for the offsets
    to the ship, whatever its rounding.  Every alive enemy bullet at a
    distance of at most the radius, the radius itself included, is
    deactivated: its alive flag is false afterwards, and nothing else of it
    changes; a bullet beyond the radius is left as it is.  Every alive
    enemy within the radius, boundary included, loses 35 HP and is dead
    afterwards exactly when it had 35 HP or less; an enemy beyond it is left
    as it is.  The rest of the state is what [_on_enemy_killed], the kill
    scoring of the bullet path, makes of it when run for each enemy that the
    pulse kills, in list order. *)
Theorem pulse_affects_radius_inclusive `{MathLib} (g : Game.t) :
  let px := Player.x (Game.player g) in
  let py := Player.y (Game.player g) in
  let g' := Game._trigger_pulse g in
  (forall i b, nth_error (Game.bullets g) i = Some b ->
     Bullet.alive b = true -> Bullet.is_player b = false ->
     (distance (Bullet.x b) (Bullet.y b) px py <= PULSE_RADIUS)%Q ->
     exists b', nth_error (Game.bullets g') i = Some b'
       /\ Bullet.alive b' = false
       /\ b' = Bullet.set_alive false b
       /\ (Bullet.x b', Bullet.y b', Bullet.is_player b', Bullet.damage b')
          = (Bullet.x b, Bullet.y b, Bullet.is_player b, Bullet.damage b))
  /\ (forall i b, nth_error (Game.bullets g) i = Some b ->
     (PULSE_RADIUS < distance (Bullet.x b) (Bullet.y b) px py)%Q ->
     nth_error (Game.bullets g') i = Some b)
  /\ (forall i e, nth_error (Game.enemies g) i = Some e ->
     Enemy.alive e = true ->
     (distance (Enemy.x e) (Enemy.y e) px py <= PULSE_RADIUS)%Q ->
     exists e', nth_error (Game.enemies g') i = Some e'
       /\ Enemy.hp e' = Enemy.hp e - 35
       /\ (Enemy.alive e' = false <-> Enemy.hp e <= 35)
       /\ e' = Enemy.take_damage 35 e)
  /\ (forall i e, nth_error (Game.enemies g) i = Some e ->
     (PULSE_RADIUS < distance (Enemy.x e) (Enemy.y e) px py)%Q ->
     nth_error (Game.enemies g') i = Some e)
  /\ g' = Game.set_enemies (Game.enemies g')
            (kills_all (pulse_kills px py (Game.enemies g))
               (Game.set_bullets (Game.bullets g')
                  (calls_all
                     (emit_explosion px py 28 :: pulse_sparks px py (Game.bullets g))
                     g)))
  /\ (forall e, In e (pulse_kills px py (Game.enemies g))
      <-> exists e0, In e0 (Game.enemies g)
            /\ Enemy.alive e0 = true
            /\ (distance (Enemy.x e0) (Enemy.y e0) px py <= PULSE_RADIUS)%Q
            /\ e = Enemy.take_damage 35 e0
            /\ Enemy.alive e = false).
Proof.
  intros px py g'.
  pose proof (trigger_pulse_spec g) as S. fold px py g' in S.
  assert (EB : Game.bullets g' = map (pulse_bullet_result px py) (Game.bullets g)).
  { rewrite S. simpl Game.bullets.
    now rewrite (proj1 (kills_all_frame _ _)). }
  assert (EE : Game.enemies g' = map (pulse_enemy_result px py) (Game.enemies g)).
  { rewrite S. reflexivity. }
  split; [|split; [|split; [|split; [|split]]]].
  - intros i b N A P L. exists (Bullet.set_alive false b).
    split; [|repeat split].
    rewrite EB. rewrite (map_nth_error _ _ _ N).
    unfold pulse_bullet_result.
    now rewrite (proj2 (pulse_hits_bullet_iff px py b) (conj A (conj P L))).
  - intros i b N L. rewrite EB. rewrite (map_nth_error _ _ _ N).
    unfold pulse_bullet_result.
    destruct (Game.pulse_hits_bullet px py b) eqn:Hb; [|reflexivity].
    apply pulse_hits_bullet_iff in Hb. destruct Hb as (_ & _ & Hb).
    exfalso. exact (Qlt_not_le _ _ L Hb).
  - intros i e N A L. exists (Enemy.take_damage 35 e).
    split; [|split; [reflexivity|split; [|reflexivity]]].
    + rewrite EE. rewrite (map_nth_error _ _ _ N).
      unfold pulse_enemy_result.
      now rewrite (proj2 (pulse_hits_enemy_iff px py e) (conj A L)).
    + cbn [Enemy.take_damage Enemy.alive]. rewrite A.
      destruct (Enemy.hp e - 35 <=? 0) eqn:C.
      * apply Z.leb_le in C. split; [lia|reflexivity].
      * apply Z.leb_gt in C. split; [discriminate|lia].
  - intros i e N L. rewrite EE. rewrite (map_nth_error _ _ _ N).
    unfold pulse_enemy_result.
    destruct (Game.pulse_hits_enemy px py e) eqn:He; [|reflexivity].
    apply pulse_hits_enemy_iff in He. destruct He as (_ & He).
    exfalso. exact (Qlt_not_le _ _ L He).
  - rewrite EB, EE. exact S.
  - intro e. apply pulse_kills_iff.
Qed.

(** On the boundary: the bullet at distance exactly 120 is cleared, the one
    at 121 is not, and the Scout at exactly 120 takes the pulse damage,
    which kills it. *)
Lemma pulse_affects_radius_inclusive_witness :
  (@distance math_approx 240 500 240 620 == PULSE_RADIUS)%Q
  /\ (@distance math_approx 360 620 240 620 == PULSE_RADIUS)%Q
  /\ (exists b',
        nth_error (Game.bullets (@Game._trigger_pulse math_approx boundary_session)) 0
        = Some b'
        /\ Bullet.alive b' = false)
  /\ nth_error (Game.bullets (@Game._trigger_pulse math_approx boundary_session)) 1
     = Some (Bullet.init 240 499 0 EBULLET_SPEED false)
  /\ (exists e',
        nth_error (Game.enemies (@Game._trigger_pulse math_approx boundary_session)) 0
        = Some e'
        /\ Enemy.hp e' = Enemy.hp (scout_at 360 620) - 35).
Proof.
  destruct (@pulse_affects_radius_inclusive math_approx boundary_session)
    as (B1 & B2 & E1 & _).
  split; [vm_compute; reflexivity|]. split; [vm_compute; reflexivity|].
  split; [|split].
  - destruct (B1 0%nat (Bullet.init 240 500 0 EBULLET_SPEED false))
      as (b' & N & A & _); try (vm_compute; reflexivity).
    { vm_compute. discriminate. }
    exists b'. split; [exact N|exact A].
  - apply B2; vm_compute; reflexivity.
  - destruct (E1 0%nat (scout_at 360 620)) as (e' & N & Hp & _);
      try (vm_compute; reflexivity).
    { vm_compute. discriminate. }
    exists e'. split; [exact N|exact Hp].
Defined.

(** ** Entities after death *)

(** No method turns the alive flag back on. *)
Lemma alive_flag_monotone `{MathLib} (dt px : Q) (a : Z) :
  (forall b, Bullet.alive b = false -> Bullet.alive (Bullet.update dt b) = false)
  /\ (forall p, PowerUp.alive p = false -> PowerUp.alive (PowerUp.update dt p) = false)
  /\ (forall e, Enemy.alive e = false ->
        Enemy.alive (fst (Enemy.update dt px e)) = false)
  /\ (forall e, Enemy.alive e = false ->
        Enemy.alive (Enemy.take_damage a e) = false)
  /\ (forall p, Player.alive p = false ->
        Player.alive (Player.take_damage a p) = false).
Proof.
  repeat split.
  - intros b A. unfold Bullet.update. simpl. rewrite A. now destruct (_ || _).
  - intros p A. unfold PowerUp.update. simpl. rewrite A. now destruct (Qlt_bool _ _).
  - intros e A. unfold Enemy.update.
    destruct (Enemy.move_type e); destruct (Qle_bool _ _); simpl;
      rewrite A; now destruct (Qlt_bool _ _).
  - intros e A. unfold Enemy.take_damage. simpl. rewrite A. now destruct (_ <=? _).
  - intros p A. unfold Player.take_damage.
    destruct (Qlt_bool 0 (Player.invincible p)); [assumption|].
    destruct (0 <? Player.shield_hp p); destruct (0 <? _); simpl;
      try assumption; rewrite A; now destruct (_ <=? _).
Qed.

(** [Enemy.update] does not look at the alive flag: an enemy that is not
    alive fires when its cooldown elapses. *)
Lemma dead_enemy_fires `{MathLib} (dt px : Q) (e : Enemy.t) :
  Enemy.alive e = false ->
  (Enemy.fire_cd e - dt <= 0)%Q ->
  snd (Enemy.update dt px e) <> [].
Proof.
  intros _ C. unfold Enemy.update. apply Qle_bool_iff in C.
  destruct (Enemy.move_type e); rewrite C; simpl;
    unfold Enemy._fire; simpl; destruct (Enemy.kind e); discriminate.
Qed.

(** C9, at a failing input.  In [pulse_session] the pulse key is held and
    the only enemy, a Hunter with 30 HP and an elapsing fire cooldown, is
    100 px from the ship.  Within the one tick the pulse kills it (the kill
    is scored), and the enemy loop of [_update] still updates it: it moves
    down and fires.  After the tick the enemy is pruned and its bullet
    stays in play, alive. *)
Theorem pulse_killed_enemy_still_acts :
  map Enemy.alive (Game.enemies pulse_session) = [true]
  /\ Game.bullets pulse_session = []
  /\ map Enemy.alive (Game.enemies (@Game._trigger_pulse math_approx pulse_session)) = [false]
  /\ Game.score (@Game._trigger_pulse math_approx pulse_session) = 250
  /\ (forall e, In e (Game.enemies (@Game._trigger_pulse math_approx pulse_session)) ->
        Enemy.alive e = false
        /\ (Enemy.y e < Enemy.y (fst (@Enemy.update math_approx (Game.frame_dt 16) 240 e)))%Q
        /\ List.length (snd (@Enemy.update math_approx (Game.frame_dt 16) 240 e)) = 1%nat)
  /\ Game.enemies (@Game._update math_approx (Game.frame_dt 16) pulse_key pulse_session)
     = []
  /\ map (fun b => (Bullet.is_player b, Bullet.alive b, Bullet.damage b))
         (Game.bullets
            (@Game._update math_approx (Game.frame_dt 16) pulse_key pulse_session))
     = [(false, true, 10)]
  /\ Game.score (@Game._update math_approx (Game.frame_dt 16) pulse_key pulse_session)
     = 250.
Proof.
  split; [vm_compute; reflexivity|].
  split; [vm_compute; reflexivity|].
  split; [vm_compute; reflexivity|].
  split; [vm_compute; reflexivity|].
  split.
  - assert (E : Game.enemies (@Game._trigger_pulse math_approx pulse_session)
                = [Enemy.take_damage 35
                     (Enemy.set_fire_cd (1 # 100)
                        (Enemy.take_damage 20 (hunter_at 240 520)))])
      by (vm_compute; reflexivity).
    rewrite E. intros e [<-|[]].
    split; [vm_compute; reflexivity|].
    split; vm_compute; reflexivity.
  - split; [vm_compute; reflexivity|].
    split; vm_compute; reflexivity.
Qed.

(** * Further properties of the code *)

(** ** Clamping *)

Lemma Qmax0_nonneg (a : Q) : (0 <= Qmax 0 a)%Q.
Proof. apply Q.le_max_l. Qed.

Lemma Qmax0_pos_iff (a : Q) : (0 < Qmax 0 a)%Q <-> (0 < a)%Q.
Proof.
  destruct (Q.max_spec 0 a) as [[L E]|[L E]]; rewrite E; split; intro H;
    try assumption; lra.
Qed.

Lemma Qmax0_chain (c d s : Q) :
  (0 <= s)%Q -> (Qmax 0 (Qmax 0 (c - d) - s) == Qmax 0 (c - (d + s)))%Q.
Proof.
  intro S.
  destruct (Q.max_spec 0 (c - d)) as [[L1 E1]|[L1 E1]];
    destruct (Q.max_spec 0 (Qmax 0 (c - d) - s)) as [[L2 E2]|[L2 E2]];
    destruct (Q.max_spec 0 (c - (d + s))) as [[L3 E3]|[L3 E3]];
    rewrite E2, E3; rewrite E1 in L2; try rewrite E1; lra.
Qed.

Lemma clamp_bounds (v lo hi : Q) :
  (lo <= hi)%Q -> (lo <= clamp v lo hi)%Q /\ (clamp v lo hi <= hi)%Q.
Proof.
  intro H. unfold clamp. split; [apply Q.le_max_l|].
  apply Q.max_lub; [assumption|apply Q.le_min_l].
Qed.

(** X1. [clamp(val, lo, hi)] with [lo <= hi] lies in [lo, hi], is [val]
    itself when [val] is already inside, [lo] when [val] is below and [hi]
    when it is above. *)
Theorem clamp_in_range (v lo hi : Q) :
  (lo <= hi)%Q ->
  (lo <= clamp v lo hi)%Q /\ (clamp v lo hi <= hi)%Q
  /\ ((lo <= v)%Q -> (v <= hi)%Q -> (clamp v lo hi == v)%Q)
  /\ ((v <= lo)%Q -> (clamp v lo hi == lo)%Q)
  /\ ((hi <= v)%Q -> (clamp v lo hi == hi)%Q).
Proof.
  intro H. destruct (clamp_bounds v lo hi H) as [B1 B2].
  split; [exact B1|]. split; [exact B2|].
  unfold clamp.
  destruct (Q.min_spec hi v) as [[L1 E1]|[L1 E1]];
    destruct (Q.max_spec lo (Qmin hi v)) as [[L2 E2]|[L2 E2]];
    rewrite E2; rewrite E1 in L2; try rewrite E1;
    repeat split; intros; lra.
Qed.

Lemma clamp_in_range_witness :
  (16 <= 464)%Q /\ (clamp 500 16 464 == 464)%Q /\ (clamp (-3) 16 464 == 16)%Q.
Proof.
  assert (H : (16 <= 464)%Q) by (vm_compute; discriminate).
  destruct (clamp_in_range 500 16 464 H) as (_ & _ & _ & _ & U).
  destruct (clamp_in_range (-3) 16 464 H) as (_ & _ & _ & D & _).
  split; [exact H|]. split; [apply U|apply D]; vm_compute; discriminate.
Defined.

(** ** The player ship *)

(** X2. Whatever keys are held, for whatever time step and whatever the
    [math] functions return, [handle_input] leaves the ship inside the
    playfield, one ship extent away from each edge, and touches neither
    health, shield, alive flag nor the timers. *)
Theorem handle_input_stays_in_playfield `{MathLib}
    (keys : Keys) (dt : Q) (p : Player.t) :
  2 * Player.width p <= BASE_W ->
  2 * Player.height p <= BASE_H ->
  (inject_Z (Player.width p) <= Player.x (Player.handle_input keys dt p))%Q
  /\ (Player.x (Player.handle_input keys dt p)
      <= inject_Z (BASE_W - Player.width p))%Q
  /\ (inject_Z (Player.height p) <= Player.y (Player.handle_input keys dt p))%Q
  /\ (Player.y (Player.handle_input keys dt p)
      <= inject_Z (BASE_H - Player.height p))%Q
  /\ Player.hp (Player.handle_input keys dt p) = Player.hp p
  /\ Player.shield_hp (Player.handle_input keys dt p) = Player.shield_hp p
  /\ Player.alive (Player.handle_input keys dt p) = Player.alive p
  /\ Player.invincible (Player.handle_input keys dt p) = Player.invincible p
  /\ Player.shoot_cd (Player.handle_input keys dt p) = Player.shoot_cd p
  /\ Player.pulse_cd (Player.handle_input keys dt p) = Player.pulse_cd p.
Proof.
  intros W Hh. unfold Player.handle_input. simpl.
  assert (BW : (inject_Z (Player.width p) <= inject_Z (BASE_W - Player.width p))%Q)
    by (rewrite <- Zle_Qle; lia).
  assert (BH : (inject_Z (Player.height p) <= inject_Z (BASE_H - Player.height p))%Q)
    by (rewrite <- Zle_Qle; lia).
  repeat split; try apply clamp_bounds; assumption.
Qed.

Lemma handle_input_stays_in_playfield_witness :
  2 * Player.width Player.init <= BASE_W
  /\ 2 * Player.height Player.init <= BASE_H
  /\ (Player.x (@Player.handle_input math_approx
                  (mkKeys true false false false false false false false
                          false false false) 100 Player.init)
      <= inject_Z (BASE_W - Player.width Player.init))%Q.
Proof.
  split; [vm_compute; discriminate|]. split; [vm_compute; discriminate|].
  apply (@handle_input_stays_in_playfield math_approx); vm_compute; discriminate.
Defined.

(** X3. The health pool.  For a player that is not invincible, with
    non-negative health and shield, [take_damage] of a non-negative amount
    removes exactly that amount from [health + shield], stopping at zero;
    neither health nor shield grows or becomes negative. *)
Theorem take_damage_pool (p : Player.t) (D : Z) :
  (Player.invincible p <= 0)%Q ->
  0 <= Player.hp p -> 0 <= Player.shield_hp p -> 0 <= D ->
  Player.hp (Player.take_damage D p) + Player.shield_hp (Player.take_damage D p)
  = Z.max 0 (Player.hp p + Player.shield_hp p - D)
  /\ 0 <= Player.hp (Player.take_damage D p) <= Player.hp p
  /\ 0 <= Player.shield_hp (Player.take_damage D p) <= Player.shield_hp p.
Proof.
  intros I H S HD. rewrite take_damage_vulnerable by assumption. cbv zeta.
  destruct (0 <? Player.shield_hp p) eqn:E1;
    [apply Z.ltb_lt in E1 | apply Z.ltb_ge in E1];
    destruct (0 <? _) eqn:E2;
    [apply Z.ltb_lt in E2 | apply Z.ltb_ge in E2
    |apply Z.ltb_lt in E2 | apply Z.ltb_ge in E2];
    unfold Player.land_damage; simpl;
    try (destruct (_ <=? 0) eqn:E3;
         [apply Z.leb_le in E3 | apply Z.leb_gt in E3]);
    simpl in *; lia.
Qed.

Lemma take_damage_pool_witness :
  (Player.invincible (Player.apply_powerup SHIELD Player.init) <= 0)%Q
  /\ Player.hp (Player.take_damage 70 (Player.apply_powerup SHIELD Player.init))
     + Player.shield_hp (Player.take_damage 70 (Player.apply_powerup SHIELD Player.init))
     = 90.
Proof.
  split; [vm_compute; discriminate|].
  rewrite (proj1 (take_damage_pool (Player.apply_powerup SHIELD Player.init) 70
                    ltac:(vm_compute; discriminate) ltac:(vm_compute; discriminate)
                    ltac:(vm_compute; discriminate) ltac:(lia))).
  reflexivity.
Defined.

(** X4. Hits that the shield absorbs whole only lower the shield: they start
    no invincibility window, so two such hits in a row both land and the
    shield loses the sum. *)
Theorem shield_hits_give_no_invincibility (p : Player.t) (D1 D2 : Z) :
  (Player.invincible p <= 0)%Q ->
  0 < D1 -> 0 < D2 -> D1 + D2 <= Player.shield_hp p ->
  Player.take_damage D1 p = Player.set_shield_hp (Player.shield_hp p - D1) p
  /\ Player.take_damage D2 (Player.take_damage D1 p)
     = Player.set_shield_hp (Player.shield_hp p - D1 - D2) p.
Proof.
  intros I H1 H2 HS.
  assert (E : forall q D, (Player.invincible q <= 0)%Q ->
                0 < D -> D <= Player.shield_hp q ->
                Player.take_damage D q
                = Player.set_shield_hp (Player.shield_hp q - D) q).
  { intros q D Iq HD Hq.
    rewrite take_damage_vulnerable by assumption. cbv zeta.
    replace (0 <? Player.shield_hp q) with true by (symmetry; apply Z.ltb_lt; lia).
    rewrite Z.min_r by lia.
    replace (0 <? D - D) with false by (symmetry; apply Z.ltb_ge; lia).
    reflexivity. }
  rewrite (E p D1) by (assumption || lia). split; [reflexivity|].
  rewrite E; simpl; try assumption; try lia. reflexivity.
Qed.

Lemma shield_hits_give_no_invincibility_witness :
  (Player.invincible (Player.apply_powerup SHIELD Player.init) <= 0)%Q
  /\ 25 + 10 <= Player.shield_hp (Player.apply_powerup SHIELD Player.init)
  /\ Player.shield_hp
       (Player.take_damage 10
          (Player.take_damage 25 (Player.apply_powerup SHIELD Player.init)))
     = 25.
Proof.
  split; [vm_compute; discriminate|].
  split; [vm_compute; discriminate|].
  rewrite (proj2 (shield_hits_give_no_invincibility
                    (Player.apply_powerup SHIELD Player.init) 25 10
                    ltac:(vm_compute; discriminate) ltac:(lia) ltac:(lia)
                    ltac:(vm_compute; discriminate))).
  reflexivity.
Defined.

(** *** Timers across several updates *)

Lemma Qsum_nonneg (dts : list Q) :
  Forall (fun dt => (0 <= dt)%Q) dts -> (0 <= Qsum dts)%Q.
Proof.
  induction 1 as [|d ds Hd _ IH]; simpl; [apply Qle_refl|lra].
Qed.

Lemma Qmax0_lt_iff (c d s : Q) :
  (0 <= s)%Q -> (s < Qmax 0 (c - d))%Q <-> (d + s < c)%Q.
Proof.
  intro S. destruct (Q.max_spec 0 (c - d)) as [[L E]|[L E]]; rewrite E;
    split; intro H; lra.
Qed.

Lemma player_update_frame (dt : Q) (p : Player.t) :
  Player.hp (fst (Player.update dt p)) = Player.hp p
  /\ Player.shield_hp (fst (Player.update dt p)) = Player.shield_hp p
  /\ Player.alive (fst (Player.update dt p)) = Player.alive p
  /\ Player.x (fst (Player.update dt p)) = Player.x p
  /\ Player.y (fst (Player.update dt p)) = Player.y p
  /\ Player.invincible_cd (fst (Player.update dt p)) = Player.invincible_cd p
  /\ Player.pulse_max_cd (fst (Player.update dt p)) = Player.pulse_max_cd p
  /\ Player.shoot_rate (fst (Player.update dt p)) = Player.shoot_rate p
  /\ Player.invincible (fst (Player.update dt p)) = Qmax 0 (Player.invincible p - dt)
  /\ Player.pulse_cd (fst (Player.update dt p)) = Qmax 0 (Player.pulse_cd p - dt)
  /\ Player.shoot_cd (fst (Player.update dt p)) = Qmax 0 (Player.shoot_cd p - dt)
  /\ Player.hit_flash (fst (Player.update dt p)) = Qmax 0 (Player.hit_flash p - dt).
Proof.
  unfold Player.update.
  destruct (Qlt_bool 0 (Player.triple_timer p));
    destruct (Qlt_bool 0 (Player.rapid_fire_timer p)); simpl; auto 20.
Qed.

Lemma player_updates_frame (dts : list Q) : forall p : Player.t,
  Player.hp (player_updates dts p) = Player.hp p
  /\ Player.shield_hp (player_updates dts p) = Player.shield_hp p
  /\ Player.alive (player_updates dts p) = Player.alive p
  /\ Player.invincible_cd (player_updates dts p) = Player.invincible_cd p
  /\ Player.pulse_max_cd (player_updates dts p) = Player.pulse_max_cd p.
Proof.
  unfold player_updates.
  induction dts as [|d ds IH]; intro p; simpl; [auto|].
  destruct (IH (fst (Player.update d p))) as (A & B & C & D & E).
  destruct (player_update_frame d p) as (A' & B' & C' & _ & _ & D' & E' & _).
  repeat split; congruence.
Qed.

(** Over the rationals, a clamped timer is still running after the updates
    exactly when the time elapsed is less than what it held.  The program's
    floats round each subtraction, which can move the last frame by one:
    the properties below keep a millisecond away from that boundary. *)
Lemma player_updates_timers (dts : list Q) : forall p : Player.t,
  Forall (fun dt => (0 <= dt)%Q) dts ->
  ((0 < Player.invincible (player_updates dts p))%Q
   <-> (Qsum dts < Player.invincible p)%Q)
  /\ ((0 < Player.pulse_cd (player_updates dts p))%Q
      <-> (Qsum dts < Player.pulse_cd p)%Q)
  /\ ((0 < Player.shoot_cd (player_updates dts p))%Q
      <-> (Qsum dts < Player.shoot_cd p)%Q).
Proof.
  unfold player_updates.
  induction dts as [|d ds IH]; intros p F; simpl.
  - repeat split; intro H; lra.
  - inversion F as [|? ? Hd Fs]; subst.
    pose proof (Qsum_nonneg ds Fs) as S.
    destruct (IH (fst (Player.update d p)) Fs) as (I1 & I2 & I3).
    destruct (player_update_frame d p)
      as (_ & _ & _ & _ & _ & _ & _ & _ & E1 & E2 & E3 & _).
    rewrite E1 in I1. rewrite E2 in I2. rewrite E3 in I3.
    rewrite I1, I2, I3, !Qmax0_lt_iff by assumption.
    repeat split; intro H; lra.
Qed.

(** The clamped timers over several updates: with time steps that are not
    negative a timer never exceeds what it held (or 0, had it been
    negative), and after at least one update it is not negative. *)
Lemma player_updates_timer_bounds (dts : list Q) : forall p : Player.t,
  Forall (fun dt => (0 <= dt)%Q) dts ->
  ((Player.invincible (player_updates dts p) <= Qmax 0 (Player.invincible p))%Q
   /\ (Player.pulse_cd (player_updates dts p) <= Qmax 0 (Player.pulse_cd p))%Q
   /\ (Player.shoot_cd (player_updates dts p) <= Qmax 0 (Player.shoot_cd p))%Q)
  /\ (dts <> [] ->
      (0 <= Player.invincible (player_updates dts p))%Q
      /\ (0 <= Player.pulse_cd (player_updates dts p))%Q
      /\ (0 <= Player.shoot_cd (player_updates dts p))%Q).
Proof.
  unfold player_updates.
  induction dts as [|d ds IH]; intros p F; cbn [fold_left].
  - split; [|intro N; now elim N].
    repeat split; apply Q.le_max_r.
  - inversion F as [|? ? Hd Fs]; subst.
    destruct (IH (fst (Player.update d p)) Fs) as ((I1 & I2 & I3) & N).
    destruct (player_update_frame d p)
      as (_ & _ & _ & _ & _ & _ & _ & _ & E1 & E2 & E3 & _).
    rewrite E1 in I1. rewrite E2 in I2. rewrite E3 in I3.
    assert (M : forall a : Q, (Qmax 0 (Qmax 0 (a - d)) <= Qmax 0 a)%Q).
    { intro a.
      destruct (Q.max_spec 0 (a - d)) as [[L1 X1]|[L1 X1]];
        destruct (Q.max_spec 0 (Qmax 0 (a - d))) as [[L2 X2]|[L2 X2]];
        destruct (Q.max_spec 0 a) as [[L3 X3]|[L3 X3]];
        rewrite X2, X3; try rewrite X1; rewrite X1 in L2; lra. }
    split.
    + split; [|split]; (eapply Qle_trans; [eassumption|apply M]).
    + intros _. destruct ds as [|d2 ds'].
      * cbn [fold_left]. rewrite E1, E2, E3.
        repeat split; apply Q.le_max_l.
      * apply N. discriminate.
Qed.

Lemma player_updates_app (dts1 dts2 : list Q) (p : Player.t) :
  player_updates (dts1 ++ dts2) p
  = player_updates dts2 (player_updates dts1 p).
Proof. unfold player_updates. apply fold_left_app. Qed.

(** X5. A hit that reaches the hull starts the invincibility window of
    [invincible_cd] seconds.  An update by less than the time left keeps
    the player invincible, so that a further [take_damage] is ignored, and
    an update by the time left or more ends the window.  Over updates whose
    time steps are not negative the time left never grows, is never
    negative and, once at zero, stays there.  To the millisecond, the
    window lasts [invincible_cd]: hits are ignored while the time steps add
    up to at most a millisecond less, and the player is vulnerable once
    they add up to a millisecond more. *)
Theorem hull_hit_starts_invincibility
    (p : Player.t) (D D2 : Z) (dts : list Q) :
  (Player.invincible p <= 0)%Q ->
  0 <= Player.shield_hp p -> Player.shield_hp p < D ->
  (0 < Player.invincible_cd p)%Q ->
  Forall (fun dt => (0 <= dt)%Q) dts ->
  let q := Player.take_damage D p in
  Player.invincible q = Player.invincible_cd p
  /\ (forall dt, (dt < Player.invincible_cd p)%Q ->
        (0 < Player.invincible (fst (Player.update dt q)))%Q
        /\ Player.take_damage D2 (fst (Player.update dt q))
           = fst (Player.update dt q))
  /\ (forall dt, (Player.invincible_cd p <= dt)%Q ->
        (Player.invincible (fst (Player.update dt q)) == 0)%Q)
  /\ (Player.invincible (player_updates dts q) <= Player.invincible_cd p)%Q
  /\ (dts <> [] -> (0 <= Player.invincible (player_updates dts q))%Q)
  /\ (forall dts2, Forall (fun dt => (0 <= dt)%Q) dts2 ->
        (Player.invincible (player_updates dts q) <= 0)%Q ->
        (Player.invincible (player_updates (dts ++ dts2) q) <= 0)%Q)
  /\ ((Qsum dts <= Player.invincible_cd p - (1 # 1000))%Q ->
      Player.take_damage D2 (player_updates dts q) = player_updates dts q)
  /\ ((Player.invincible_cd p + (1 # 1000) <= Qsum dts)%Q ->
      (Player.invincible (player_updates dts q) <= 0)%Q).
Proof.
  intros I S HD Hc F q.
  assert (E : Player.invincible q = Player.invincible_cd p).
  { unfold q. rewrite take_damage_vulnerable by assumption. cbv zeta.
    destruct (0 <? Player.shield_hp p) eqn:E1;
      [apply Z.ltb_lt in E1; rewrite Z.min_l by lia
      |apply Z.ltb_ge in E1; rewrite Z.sub_0_r];
      (replace (0 <? _) with true by (symmetry; apply Z.ltb_lt; lia));
      reflexivity. }
  destruct (player_updates_timers dts q F) as (T & _).
  destruct (player_updates_timer_bounds dts q F) as ((B & _) & N).
  rewrite E in T, B.
  split; [exact E|].
  split.
  { intros dt L.
    destruct (player_update_frame dt q)
      as (_ & _ & _ & _ & _ & _ & _ & _ & E1 & _).
    assert (P : (0 < Player.invincible (fst (Player.update dt q)))%Q).
    { rewrite E1, E. apply Qmax0_pos_iff. lra. }
    split; [exact P|]. now apply take_damage_invincible. }
  split.
  { intros dt L.
    destruct (player_update_frame dt q)
      as (_ & _ & _ & _ & _ & _ & _ & _ & E1 & _).
    rewrite E1, E. apply Q.max_l. lra. }
  split.
  { eapply Qle_trans; [exact B|]. apply Q.max_lub; lra. }
  split; [intro Ne; apply (proj1 (N Ne))|].
  split.
  { intros dts2 F2 Z. rewrite player_updates_app.
    destruct (player_updates_timer_bounds dts2 (player_updates dts q) F2)
      as ((B2 & _) & _).
    eapply Qle_trans; [exact B2|]. apply Q.max_lub; [lra|exact Z]. }
  split; intro H.
  - apply take_damage_invincible. apply T. lra.
  - apply Qnot_lt_le. intro C. apply T in C. lra.
Qed.

Lemma hull_hit_starts_invincibility_witness :
  (Player.invincible Player.init <= 0)%Q
  /\ Player.shield_hp Player.init < 25
  /\ (0 < Player.invincible_cd Player.init)%Q
  /\ (Qsum [1%Q; (2 # 5)%Q] <= Player.invincible_cd Player.init - (1 # 1000))%Q
  /\ Player.hp (Player.take_damage 1000
                  (player_updates [1%Q; (2 # 5)%Q] (Player.take_damage 25 Player.init)))
     = 75.
Proof.
  split; [vm_compute; discriminate|]. split; [vm_compute; reflexivity|].
  split; [vm_compute; reflexivity|].
  split; [vm_compute; discriminate|].
  pose proof (hull_hit_starts_invincibility Player.init 25 1000 [1%Q; (2 # 5)%Q]
                ltac:(vm_compute; discriminate) ltac:(vm_compute; discriminate)
                ltac:(vm_compute; reflexivity) ltac:(vm_compute; reflexivity)
                ltac:(repeat constructor; vm_compute; discriminate)) as T.
  cbv zeta in T. destruct T as (_ & _ & _ & _ & _ & _ & T & _).
  rewrite T by (vm_compute; discriminate).
  vm_compute. reflexivity.
Defined.

(** X6. The pulse cooldown.  Without the key, or with the cooldown running,
    [try_pulse] is refused and changes nothing.  With the key held and the
    cooldown elapsed it fires and sets the cooldown to [pulse_max_cd], so
    that an immediate second try is refused.  Over updates whose time steps
    are not negative the cooldown never grows and is never negative.  To
    the millisecond, the cooldown lasts [pulse_max_cd]: the pulse is
    refused while the time steps add up to at most a millisecond less, and
    fires again once they add up to a millisecond more. *)
Theorem pulse_cooldown_gates (keys : Keys) (p : Player.t) (dts : list Q) :
  (K_x keys = false \/ (0 < Player.pulse_cd p)%Q ->
   Player.try_pulse keys p = (p, false))
  /\ (K_x keys = true -> (Player.pulse_cd p <= 0)%Q ->
      (0 < Player.pulse_max_cd p)%Q ->
      Forall (fun dt => (0 <= dt)%Q) dts ->
      let q := fst (Player.try_pulse keys p) in
      snd (Player.try_pulse keys p) = true
      /\ Player.pulse_cd q = Player.pulse_max_cd p
      /\ Player.try_pulse keys q = (q, false)
      /\ (Player.pulse_cd (player_updates dts q) <= Player.pulse_max_cd p)%Q
      /\ (dts <> [] -> (0 <= Player.pulse_cd (player_updates dts q))%Q)
      /\ ((Qsum dts <= Player.pulse_max_cd p - (1 # 1000))%Q ->
          snd (Player.try_pulse keys (player_updates dts q)) = false)
      /\ ((Player.pulse_max_cd p + (1 # 1000) <= Qsum dts)%Q ->
          snd (Player.try_pulse keys (player_updates dts q)) = true)).
Proof.
  assert (R : forall r, (0 < Player.pulse_cd r)%Q ->
                Player.try_pulse keys r = (r, false)).
  { intros r C. unfold Player.try_pulse.
    apply Qlt_bool_iff in C. rewrite C. now destruct (negb (K_x keys)). }
  split.
  - intros [K|C]; [unfold Player.try_pulse; now rewrite K|now apply R].
  - intros K C Hm F q.
    assert (E : Player.try_pulse keys p
                = (Player.mk (Player.x p) (Player.y p) (Player.speed p)
                     (Player.width p) (Player.height p) (Player.hp p)
                     (Player.max_hp p) (Player.alive p) (Player.shoot_cd p)
                     (Player.shoot_rate p) (Player.ammo_type p)
                     (Player.rapid_fire p) (Player.triple_timer p)
                     (Player.rapid_fire_timer p) (Player.shield_hp p)
                     (Player.max_shield p) (Player.invincible p)
                     (Player.invincible_cd p) (Player.pulse_max_cd p)
                     (Player.pulse_max_cd p) (Player.age p) (Player.hit_flash p)
                     (Player.tilt p) (Player.target_tilt p), true)).
    { unfold Player.try_pulse. rewrite K. simpl.
      apply Qlt_bool_false_iff in C. now rewrite C. }
    assert (Eq : Player.pulse_cd q = Player.pulse_max_cd p)
      by (unfold q; rewrite E; reflexivity).
    destruct (player_updates_timers dts q F) as (_ & T & _).
    destruct (player_updates_timer_bounds dts q F) as ((_ & B & _) & N).
    rewrite Eq in T, B.
    split; [rewrite E; reflexivity|]. split; [exact Eq|].
    split; [apply R; rewrite Eq; exact Hm|].
    split; [eapply Qle_trans; [exact B|]; apply Q.max_lub; lra|].
    split; [intro Ne; apply (proj1 (proj2 (N Ne)))|].
    split; intro H.
    + rewrite R; [reflexivity|]. apply T. lra.
    + unfold Player.try_pulse. rewrite K. simpl negb. cbv iota.
      destruct (Qlt_bool 0 (Player.pulse_cd (player_updates dts q))) eqn:Q;
        [|reflexivity].
      apply Qlt_bool_iff in Q. apply T in Q. exfalso. lra.
Qed.

Lemma pulse_cooldown_gates_witness :
  K_x pulse_key = true /\ (Player.pulse_cd Player.init <= 0)%Q
  /\ (0 < Player.pulse_max_cd Player.init)%Q
  /\ snd (Player.try_pulse pulse_key
            (player_updates [3%Q; 5%Q; (1 # 20)%Q]
               (fst (Player.try_pulse pulse_key Player.init)))) = true.
Proof.
  split; [reflexivity|]. split; [vm_compute; discriminate|].
  split; [vm_compute; reflexivity|].
  pose proof (proj2 (pulse_cooldown_gates pulse_key Player.init
                       [3%Q; 5%Q; (1 # 20)%Q])
                eq_refl ltac:(vm_compute; discriminate)
                ltac:(vm_compute; reflexivity)
                ltac:(repeat constructor; vm_compute; discriminate)) as T.
  cbv zeta in T. destruct T as (_ & _ & _ & _ & _ & _ & T).
  apply T. vm_compute. discriminate.
Defined.

Lemma try_shoot_fires `{MathLib} (keys : Keys) (p : Player.t) :
  K_SPACE keys || K_z keys = true -> (Player.shoot_cd p <= 0)%Q ->
  fst (Player.try_shoot keys p)
  = Player.set_shoot_cd
      (1 / (Player.shoot_rate p * (if Player.rapid_fire p then 2 else 1)))%Q p
  /\ List.length (snd (Player.try_shoot keys p))
     = match Player.ammo_type p with normal => 1%nat | triple => 3%nat end
  /\ Forall (fun b => Bullet.is_player b = true /\ Bullet.alive b = true
                      /\ Bullet.damage b = 20)
            (snd (Player.try_shoot keys p)).
Proof.
  intros K C. unfold Player.try_shoot. rewrite K. simpl negb. cbv iota.
  apply Qlt_bool_false_iff in C. rewrite C.
  split; [reflexivity|].
  destruct (Player.ammo_type p); simpl; split; try reflexivity;
    repeat constructor.
Qed.

(** X7. The shoot cooldown.  Without a fire key, or with the cooldown
    running, [try_shoot] fires nothing and changes nothing.  Otherwise it
    fires one bullet, or three in triple mode, all alive player bullets of
    damage 20, and sets the cooldown to [1 / rate], the rate doubled by
    rapid fire, so that an immediate second try fires nothing.  Over
    updates whose time steps are not negative the cooldown never grows and
    is never negative.  To the millisecond, the cooldown lasts [1 / rate]:
    nothing is fired while the time steps add up to at most a millisecond
    less, and the gun fires again once they add up to a millisecond
    more. *)
Theorem shoot_cooldown_gates `{MathLib}
    (keys : Keys) (p : Player.t) (dts : list Q) :
  (K_SPACE keys || K_z keys = false \/ (0 < Player.shoot_cd p)%Q ->
   Player.try_shoot keys p = (p, []))
  /\ (K_SPACE keys || K_z keys = true -> (Player.shoot_cd p <= 0)%Q ->
      (0 < Player.shoot_rate p)%Q ->
      Forall (fun dt => (0 <= dt)%Q) dts ->
      let cd := (1 / (Player.shoot_rate p
                      * (if Player.rapid_fire p then 2 else 1)))%Q in
      let q := fst (Player.try_shoot keys p) in
      List.length (snd (Player.try_shoot keys p))
      = match Player.ammo_type p with normal => 1%nat | triple => 3%nat end
      /\ Forall (fun b => Bullet.is_player b = true /\ Bullet.alive b = true
                          /\ Bullet.damage b = 20)
                (snd (Player.try_shoot keys p))
      /\ Player.shoot_cd q = cd
      /\ Player.try_shoot keys q = (q, [])
      /\ (Player.shoot_cd (player_updates dts q) <= cd)%Q
      /\ (dts <> [] -> (0 <= Player.shoot_cd (player_updates dts q))%Q)
      /\ ((Qsum dts <= cd - (1 # 1000))%Q ->
          snd (Player.try_shoot keys (player_updates dts q)) = [])
      /\ ((cd + (1 # 1000) <= Qsum dts)%Q ->
          snd (Player.try_shoot keys (player_updates dts q)) <> [])).
Proof.
  assert (R : forall r, (0 < Player.shoot_cd r)%Q ->
                Player.try_shoot keys r = (r, [])).
  { intros r C. unfold Player.try_shoot.
    apply Qlt_bool_iff in C. rewrite C.
    now destruct (negb (K_SPACE keys || K_z keys)). }
  split.
  - intros [K|C]; [unfold Player.try_shoot; now rewrite K|now apply R].
  - intros K C Hr F cd q.
    destruct (try_shoot_fires keys p K C) as (E & L & A).
    assert (Hc : (0 < cd)%Q).
    { unfold cd. apply Qlt_shift_div_l.
      - destruct (Player.rapid_fire p); nra.
      - lra. }
    assert (Eq : Player.shoot_cd q = cd) by (unfold q; rewrite E; reflexivity).
    destruct (player_updates_timers dts q F) as (_ & _ & T).
    destruct (player_updates_timer_bounds dts q F) as ((_ & _ & B) & N).
    rewrite Eq in T, B.
    split; [exact L|]. split; [exact A|]. split; [exact Eq|].
    split; [apply R; rewrite Eq; exact Hc|].
    split; [eapply Qle_trans; [exact B|]; apply Q.max_lub; lra|].
    split; [intro Ne; apply (proj2 (proj2 (N Ne)))|].
    split; intro X.
    + rewrite R; [reflexivity|]. apply T. lra.
    + assert (Q0 : (Player.shoot_cd (player_updates dts q) <= 0)%Q).
      { apply Qnot_lt_le. intro L2. apply T in L2. lra. }
      destruct (try_shoot_fires keys (player_updates dts q) K Q0) as (_ & L' & _).
      intro Nn. rewrite Nn in L'.
      destruct (Player.ammo_type (player_updates dts q)); discriminate.
Qed.

Lemma shoot_cooldown_gates_witness :
  K_SPACE (mkKeys false false false false false false false false true false false)
  || K_z (mkKeys false false false false false false false false true false false)
  = true
  /\ (Player.shoot_cd Player.init <= 0)%Q
  /\ (0 < Player.shoot_rate Player.init)%Q
  /\ snd (@Player.try_shoot math_approx
            (mkKeys false false false false false false false false true false false)
            (player_updates [(1 # 10)%Q; (1 # 20)%Q]
               (fst (@Player.try_shoot math_approx
                       (mkKeys false false false false false false false false
                               true false false)
                       Player.init))))
     = [].
Proof.
  split; [reflexivity|]. split; [vm_compute; discriminate|].
  split; [vm_compute; reflexivity|].
  pose proof (proj2 (@shoot_cooldown_gates math_approx
                       (mkKeys false false false false false false false false
                               true false false)
                       Player.init [(1 # 10)%Q; (1 # 20)%Q])
                eq_refl ltac:(vm_compute; discriminate)
                ltac:(vm_compute; reflexivity)
                ltac:(repeat constructor; vm_compute; discriminate)) as T.
  cbv zeta in T. destruct T as (_ & _ & _ & _ & _ & _ & T & _).
  apply T. vm_compute. discriminate.
Defined.

(** *** Time-limited power-ups *)

Lemma update_triple_running (dt : Q) (p : Player.t) :
  (0 < Player.triple_timer p)%Q ->
  Player.triple_timer (fst (Player.update dt p)) = (Player.triple_timer p - dt)%Q
  /\ Player.ammo_type (fst (Player.update dt p))
     = if Qle_bool (Player.triple_timer p - dt) 0 then normal else triple.
Proof.
  intro H. apply Qlt_bool_iff in H. unfold Player.update. rewrite H.
  destruct (Qlt_bool 0 (Player.rapid_fire_timer p)); simpl; auto.
Qed.

Lemma update_triple_over (dt : Q) (p : Player.t) :
  (Player.triple_timer p <= 0)%Q ->
  Player.triple_timer (fst (Player.update dt p)) = Player.triple_timer p
  /\ Player.ammo_type (fst (Player.update dt p)) = Player.ammo_type p.
Proof.
  intro H. apply Qlt_bool_false_iff in H. unfold Player.update. rewrite H.
  destruct (Qlt_bool 0 (Player.rapid_fire_timer p)); simpl; auto.
Qed.

Lemma update_rapid_running (dt : Q) (p : Player.t) :
  (0 < Player.rapid_fire_timer p)%Q ->
  Player.rapid_fire_timer (fst (Player.update dt p))
  = (Player.rapid_fire_timer p - dt)%Q
  /\ Player.rapid_fire (fst (Player.update dt p))
     = if Qle_bool (Player.rapid_fire_timer p - dt) 0 then false else true.
Proof.
  intro H. apply Qlt_bool_iff in H. unfold Player.update. rewrite H.
  destruct (Qlt_bool 0 (Player.triple_timer p)); simpl; auto.
Qed.

Lemma update_rapid_over (dt : Q) (p : Player.t) :
  (Player.rapid_fire_timer p <= 0)%Q ->
  Player.rapid_fire_timer (fst (Player.update dt p)) = Player.rapid_fire_timer p
  /\ Player.rapid_fire (fst (Player.update dt p)) = Player.rapid_fire p.
Proof.
  intro H. apply Qlt_bool_false_iff in H. unfold Player.update. rewrite H.
  destruct (Qlt_bool 0 (Player.triple_timer p)); simpl; auto.
Qed.

Lemma updates_triple_over (dts : list Q) : forall p : Player.t,
  (Player.triple_timer p <= 0)%Q ->
  Player.ammo_type (player_updates dts p) = Player.ammo_type p.
Proof.
  unfold player_updates.
  induction dts as [|d ds IH]; intros p H; simpl; [reflexivity|].
  destruct (update_triple_over d p H) as [T A].
  rewrite IH by (now rewrite T). exact A.
Qed.

Lemma updates_rapid_over (dts : list Q) : forall p : Player.t,
  (Player.rapid_fire_timer p <= 0)%Q ->
  Player.rapid_fire (player_updates dts p) = Player.rapid_fire p.
Proof.
  unfold player_updates.
  induction dts as [|d ds IH]; intros p H; simpl; [reflexivity|].
  destruct (update_rapid_over d p H) as [T A].
  rewrite IH by (now rewrite T). exact A.
Qed.

Lemma updates_triple_running (dts : list Q) : forall (d : Q) (p : Player.t),
  Forall (fun dt => (0 <= dt)%Q) (d :: dts) ->
  (0 < Player.triple_timer p)%Q ->
  Player.ammo_type (player_updates (d :: dts) p) = triple
  <-> (Qsum (d :: dts) < Player.triple_timer p)%Q.
Proof.
  induction dts as [|d2 ds IH]; intros d p F H;
    destruct (update_triple_running d p H) as [T A].
  - unfold player_updates. simpl. rewrite A.
    destruct (Qle_bool _ _) eqn:Q.
    + apply Qle_bool_iff in Q. split; [discriminate|]. intro L. lra.
    + split; [|reflexivity]. intros _.
      destruct (Qlt_le_dec (d + 0) (Player.triple_timer p)) as [L|L]; [exact L|].
      assert (Q' : Qle_bool (Player.triple_timer p - d) 0 = true)
        by (apply Qle_bool_iff; lra).
      congruence.
  - inversion F as [|? ? Hd Fs]; subst.
    pose proof (Qsum_nonneg _ Fs) as S.
    change (player_updates (d :: d2 :: ds) p)
      with (player_updates (d2 :: ds) (fst (Player.update d p))).
    destruct (Qlt_le_dec 0 (Player.triple_timer p - d)) as [L|L].
    + rewrite IH by (try assumption; now rewrite T).
      rewrite T. change (Qsum (d :: d2 :: ds)) with (d + Qsum (d2 :: ds))%Q.
      split; intro X; lra.
    + rewrite updates_triple_over by (now rewrite T). rewrite A.
      replace (Qle_bool (Player.triple_timer p - d) 0) with true
        by (symmetry; now apply Qle_bool_iff).
      change (Qsum (d :: d2 :: ds)) with (d + Qsum (d2 :: ds))%Q.
      split; [discriminate|]. intro X. lra.
Qed.

Lemma updates_rapid_running (dts : list Q) : forall (d : Q) (p : Player.t),
  Forall (fun dt => (0 <= dt)%Q) (d :: dts) ->
  (0 < Player.rapid_fire_timer p)%Q ->
  Player.rapid_fire (player_updates (d :: dts) p) = true
  <-> (Qsum (d :: dts) < Player.rapid_fire_timer p)%Q.
Proof.
  induction dts as [|d2 ds IH]; intros d p F H;
    destruct (update_rapid_running d p H) as [T A].
  - unfold player_updates. simpl. rewrite A.
    destruct (Qle_bool _ _) eqn:Q.
    + apply Qle_bool_iff in Q. split; [discriminate|]. intro L. lra.
    + split; [|reflexivity]. intros _.
      destruct (Qlt_le_dec (d + 0) (Player.rapid_fire_timer p)) as [L|L]; [exact L|].
      assert (Q' : Qle_bool (Player.rapid_fire_timer p - d) 0 = true)
        by (apply Qle_bool_iff; lra).
      congruence.
  - inversion F as [|? ? Hd Fs]; subst.
    pose proof (Qsum_nonneg _ Fs) as S.
    change (player_updates (d :: d2 :: ds) p)
      with (player_updates (d2 :: ds) (fst (Player.update d p))).
    destruct (Qlt_le_dec 0 (Player.rapid_fire_timer p - d)) as [L|L].
    + rewrite IH by (try assumption; now rewrite T).
      rewrite T. change (Qsum (d :: d2 :: ds)) with (d + Qsum (d2 :: ds))%Q.
      split; intro X; lra.
    + rewrite updates_rapid_over by (now rewrite T). rewrite A.
      replace (Qle_bool (Player.rapid_fire_timer p - d) 0) with true
        by (symmetry; now apply Qle_bool_iff).
      change (Qsum (d :: d2 :: ds)) with (d + Qsum (d2 :: ds))%Q.
      split; [discriminate|]. intro X. lra.
Qed.

(** X8. Time-limited power-ups.  A Triple pick-up lasts 8 seconds and a
    Rapid-fire pick-up 6 seconds: an update by less than that keeps the
    mode and an update by that much or more ends it.  To the millisecond
    this holds over several updates whose time steps are not negative: the
    mode is on while they add up to at most a millisecond less than its
    time, and off once they add up to a millisecond more.  A second pick-up
    restarts the time, it does not add to it. *)
Theorem timed_powerups_last (p : Player.t) (d : Q) (dts : list Q) :
  Forall (fun dt => (0 <= dt)%Q) (d :: dts) ->
  ((d < 8)%Q ->
   Player.ammo_type (fst (Player.update d (Player.apply_powerup TRIPLE p)))
   = triple)
  /\ ((8 <= d)%Q ->
      Player.ammo_type (fst (Player.update d (Player.apply_powerup TRIPLE p)))
      = normal)
  /\ ((d < 6)%Q ->
      Player.rapid_fire
        (fst (Player.update d (Player.apply_powerup RAPID_FIRE p))) = true)
  /\ ((6 <= d)%Q ->
      Player.rapid_fire
        (fst (Player.update d (Player.apply_powerup RAPID_FIRE p))) = false)
  /\ ((Qsum (d :: dts) <= 8 - (1 # 1000))%Q ->
      Player.ammo_type
        (player_updates (d :: dts) (Player.apply_powerup TRIPLE p)) = triple)
  /\ ((8 + (1 # 1000) <= Qsum (d :: dts))%Q ->
      Player.ammo_type
        (player_updates (d :: dts) (Player.apply_powerup TRIPLE p)) = normal)
  /\ ((Qsum (d :: dts) <= 6 - (1 # 1000))%Q ->
      Player.rapid_fire
        (player_updates (d :: dts) (Player.apply_powerup RAPID_FIRE p)) = true)
  /\ ((6 + (1 # 1000) <= Qsum (d :: dts))%Q ->
      Player.rapid_fire
        (player_updates (d :: dts) (Player.apply_powerup RAPID_FIRE p)) = false)
  /\ Player.apply_powerup TRIPLE (Player.apply_powerup TRIPLE p)
     = Player.apply_powerup TRIPLE p
  /\ Player.apply_powerup RAPID_FIRE (Player.apply_powerup RAPID_FIRE p)
     = Player.apply_powerup RAPID_FIRE p.
Proof.
  intro F.
  pose proof (updates_triple_running dts d (Player.apply_powerup TRIPLE p) F
                eq_refl) as T.
  pose proof (updates_rapid_running dts d (Player.apply_powerup RAPID_FIRE p) F
                eq_refl) as R.
  change (Player.triple_timer (Player.apply_powerup TRIPLE p)) with 8%Q in T.
  change (Player.rapid_fire_timer (Player.apply_powerup RAPID_FIRE p))
    with 6%Q in R.
  destruct (update_triple_running d (Player.apply_powerup TRIPLE p) eq_refl)
    as [_ T1].
  destruct (update_rapid_running d (Player.apply_powerup RAPID_FIRE p) eq_refl)
    as [_ R1].
  change (Player.triple_timer (Player.apply_powerup TRIPLE p)) with 8%Q in T1.
  change (Player.rapid_fire_timer (Player.apply_powerup RAPID_FIRE p))
    with 6%Q in R1.
  split.
  { intro L. rewrite T1.
    replace (Qle_bool (8 - d) 0) with false; [reflexivity|].
    symmetry. apply not_true_is_false. intro C. apply Qle_bool_iff in C. lra. }
  split.
  { intro L. rewrite T1.
    replace (Qle_bool (8 - d) 0) with true; [reflexivity|].
    symmetry. apply Qle_bool_iff. lra. }
  split.
  { intro L. rewrite R1.
    replace (Qle_bool (6 - d) 0) with false; [reflexivity|].
    symmetry. apply not_true_is_false. intro C. apply Qle_bool_iff in C. lra. }
  split.
  { intro L. rewrite R1.
    replace (Qle_bool (6 - d) 0) with true; [reflexivity|].
    symmetry. apply Qle_bool_iff. lra. }
  split; [intro L; apply T; lra|].
  split.
  { intro L.
    destruct (Player.ammo_type (player_updates (d :: dts) _)) eqn:A;
      [reflexivity|].
    exfalso. pose proof (proj1 T eq_refl). lra. }
  split; [intro L; apply R; lra|].
  split; [|split; reflexivity].
  intro L.
  destruct (Player.rapid_fire (player_updates (d :: dts) _)) eqn:A;
    [|reflexivity].
  exfalso. pose proof (proj1 R eq_refl). lra.
Qed.

Lemma timed_powerups_last_witness :
  Forall (fun dt => (0 <= dt)%Q) [5%Q; 2%Q; (3 # 2)%Q]
  /\ Player.ammo_type
       (player_updates [5%Q; 2%Q] (Player.apply_powerup TRIPLE Player.init)) = triple
  /\ Player.ammo_type
       (player_updates [5%Q; 2%Q; (3 # 2)%Q]
          (Player.apply_powerup TRIPLE Player.init)) = normal.
Proof.
  assert (F3 : Forall (fun dt => (0 <= dt)%Q) [5%Q; 2%Q; (3 # 2)%Q])
    by (repeat constructor; vm_compute; discriminate).
  assert (F2 : Forall (fun dt => (0 <= dt)%Q) [5%Q; 2%Q])
    by (repeat constructor; vm_compute; discriminate).
  split; [exact F3|]. split.
  - apply (proj1 (proj2 (proj2 (proj2 (proj2
             (timed_powerups_last Player.init 5 [2%Q] F2)))))).
    vm_compute. discriminate.
  - apply (proj1 (proj2 (proj2 (proj2 (proj2 (proj2
             (timed_powerups_last Player.init 5 [2%Q; (3 # 2)%Q] F3))))))).
    vm_compute. discriminate.
Defined.

(** X9. Power-ups.  Health adds 40 capped at [max_hp], so a health within
    [0 .. max_hp] stays there and never drops; Shield sets the shield to
    [max_shield] whatever it was; no power-up changes the alive flag or the
    invincibility, and none but Health changes the health. *)
Theorem apply_powerup_effects (kind : PowerUpType) (p : Player.t) :
  Player.hp (Player.apply_powerup HEALTH p)
  = Z.min (Player.max_hp p) (Player.hp p + 40)
  /\ (Player.hp p <= Player.max_hp p ->
      Player.hp p <= Player.hp (Player.apply_powerup HEALTH p) <= Player.max_hp p)
  /\ Player.shield_hp (Player.apply_powerup SHIELD p) = Player.max_shield p
  /\ Player.apply_powerup SHIELD (Player.apply_powerup SHIELD p)
     = Player.apply_powerup SHIELD p
  /\ Player.alive (Player.apply_powerup kind p) = Player.alive p
  /\ Player.invincible (Player.apply_powerup kind p) = Player.invincible p
  /\ (kind <> HEALTH -> Player.hp (Player.apply_powerup kind p) = Player.hp p)
  /\ (kind <> SHIELD ->
      Player.shield_hp (Player.apply_powerup kind p) = Player.shield_hp p).
Proof.
  split; [reflexivity|]. split; [simpl; lia|].
  split; [reflexivity|]. split; [reflexivity|].
  destruct kind; simpl; repeat split; intros; try reflexivity; congruence.
Qed.

Lemma apply_powerup_effects_witness :
  Player.hp (Player.take_damage 25 Player.init)
  <= Player.max_hp (Player.take_damage 25 Player.init)
  /\ Player.hp (Player.take_damage 25 Player.init)
     <= Player.hp (Player.apply_powerup HEALTH (Player.take_damage 25 Player.init))
     <= Player.max_hp (Player.take_damage 25 Player.init).
Proof.
  split; [vm_compute; discriminate|].
  apply (proj1 (proj2 (apply_powerup_effects HEALTH
                         (Player.take_damage 25 Player.init)))).
  vm_compute. discriminate.
Defined.

(** ** Enemies *)

Lemma enemy_init_stats (x y : Q) (k : EnemyType) (r : Rng) :
  Enemy.hp (fst (Enemy.init x y k r)) = cfg_hp (ENEMY_CONFIGS k)
  /\ Enemy.alive (fst (Enemy.init x y k r)) = true
  /\ Enemy.score (fst (Enemy.init x y k r)) = cfg_score (ENEMY_CONFIGS k)
  /\ Enemy.size (fst (Enemy.init x y k r)) = cfg_size (ENEMY_CONFIGS k)
  /\ Enemy.kind (fst (Enemy.init x y k r)) = k.
Proof.
  unfold Enemy.init, random_uniform, random_random. simpl. auto.
Qed.

Lemma enemy_hits_hp (n : nat) (d : Z) (e : Enemy.t) :
  Enemy.hp (enemy_hits n d e) = Enemy.hp e - Z.of_nat n * d.
Proof.
  unfold enemy_hits. induction n as [|n IH].
  - simpl. lia.
  - rewrite Nat2Z.inj_succ. simpl Nat.iter. unfold Enemy.take_damage at 1.
    simpl. rewrite IH. lia.
Qed.

Lemma enemy_hits_alive (n : nat) (d : Z) (e : Enemy.t) :
  Enemy.alive e = true -> 0 <= d ->
  Enemy.alive (enemy_hits (S n) d e) = true
  <-> 0 < Enemy.hp e - Z.of_nat (S n) * d.
Proof.
  intros A D. induction n as [|n IH].
  - change (enemy_hits 1 d e) with (Enemy.take_damage d e).
    unfold Enemy.take_damage. cbn [Enemy.alive]. rewrite A.
    replace (Z.of_nat 1 * d) with d by lia.
    destruct (Enemy.hp e - d <=? 0) eqn:E;
      [apply Z.leb_le in E | apply Z.leb_gt in E]; split; intro H;
      try discriminate; try reflexivity; lia.
  - change (enemy_hits (S (S n)) d e)
      with (Enemy.take_damage d (enemy_hits (S n) d e)).
    unfold Enemy.take_damage at 1. cbn [Enemy.alive].
    rewrite enemy_hits_hp.
    rewrite !Nat2Z.inj_succ in *.
    destruct (_ <=? 0) eqn:E;
      [apply Z.leb_le in E | apply Z.leb_gt in E].
    + split; [discriminate|]. intro H. lia.
    + split; [intros _; lia|]. intros _. apply IH. lia.
Qed.

(** X10. Damage on an enemy accumulates: after [n] hits of a non-negative
    amount [d] the HP is the initial HP less [n * d], and the enemy is
    still alive exactly when that is positive.  A fresh enemy therefore
    survives [n] player bullets (20 each) exactly when [20 * n] is below the
    HP of its kind: a Scout falls to the first bullet, a Hunter to the
    third, a Tank to the sixth. *)
Theorem enemy_damage_accumulates (e : Enemy.t) (d : Z) (n : nat) :
  Enemy.hp (enemy_hits n d e) = Enemy.hp e - Z.of_nat n * d
  /\ (Enemy.alive e = true -> 0 <= d ->
      (Enemy.alive (enemy_hits (S n) d e) = true
       <-> 0 < Enemy.hp e - Z.of_nat (S n) * d))
  /\ (forall x y k r,
        Enemy.alive (enemy_hits n 20 (fst (Enemy.init x y k r))) = true
        <-> 20 * Z.of_nat n < cfg_hp (ENEMY_CONFIGS k)).
Proof.
  split; [apply enemy_hits_hp|]. split; [apply enemy_hits_alive|].
  intros x y k r.
  destruct (enemy_init_stats x y k r) as (Hp & A & _).
  destruct n as [|m].
  - change (enemy_hits 0 20 (fst (Enemy.init x y k r)))
      with (fst (Enemy.init x y k r)).
    rewrite A.
    split; [intros _; destruct k; reflexivity|reflexivity].
  - rewrite enemy_hits_alive by (assumption || lia). rewrite Hp. lia.
Qed.

Lemma enemy_damage_accumulates_witness :
  Enemy.alive (hunter_at 100 100) = true /\ 0 <= 20
  /\ Enemy.alive (enemy_hits 2 20 (hunter_at 100 100)) = true
  /\ (Enemy.alive (enemy_hits 3 20 (hunter_at 100 100)) = true -> False).
Proof.
  destruct (enemy_damage_accumulates (hunter_at 100 100) 20 1) as (_ & A2 & _).
  destruct (enemy_damage_accumulates (hunter_at 100 100) 20 2) as (_ & A3 & _).
  split; [reflexivity|]. split; [lia|]. split.
  - apply A2; [reflexivity|lia|vm_compute; reflexivity].
  - intro H. apply A3 in H; [|reflexivity|lia]. vm_compute in H. discriminate.
Defined.

Lemma enemy_update_frame `{MathLib} (dt px : Q) (e : Enemy.t) :
  Enemy.hp (fst (Enemy.update dt px e)) = Enemy.hp e
  /\ Enemy.score (fst (Enemy.update dt px e)) = Enemy.score e
  /\ Enemy.kind (fst (Enemy.update dt px e)) = Enemy.kind e
  /\ Enemy.size (fst (Enemy.update dt px e)) = Enemy.size e
  /\ Enemy.speed (fst (Enemy.update dt px e)) = Enemy.speed e
  /\ Enemy.move_type (fst (Enemy.update dt px e)) = Enemy.move_type e
  /\ Enemy.fire_rate (fst (Enemy.update dt px e)) = Enemy.fire_rate e.
Proof.
  unfold Enemy.update.
  destruct (Enemy.move_type e); destruct (Qle_bool _ _); simpl; auto 10.
Qed.

(** X11. Whatever its movement pattern and whatever [math.sin] returns,
    an enemy whose size fits the playfield is, after [update], between
    [size] and [BASE_W - size] horizontally; it is marked not alive once it
    is more than 60 px below the bottom edge and keeps its alive flag
    otherwise; its HP, score value, kind and size are untouched. *)
Theorem enemy_update_stays_on_screen `{MathLib} (dt px : Q) (e : Enemy.t) :
  2 * Enemy.size e <= BASE_W ->
  (inject_Z (Enemy.size e) <= Enemy.x (fst (Enemy.update dt px e)))%Q
  /\ (Enemy.x (fst (Enemy.update dt px e)) <= inject_Z (BASE_W - Enemy.size e))%Q
  /\ ((inject_Z (BASE_H + 60) < Enemy.y (fst (Enemy.update dt px e)))%Q ->
      Enemy.alive (fst (Enemy.update dt px e)) = false)
  /\ ((Enemy.y (fst (Enemy.update dt px e)) <= inject_Z (BASE_H + 60))%Q ->
      Enemy.alive (fst (Enemy.update dt px e)) = Enemy.alive e)
  /\ Enemy.hp (fst (Enemy.update dt px e)) = Enemy.hp e
  /\ Enemy.score (fst (Enemy.update dt px e)) = Enemy.score e
  /\ Enemy.kind (fst (Enemy.update dt px e)) = Enemy.kind e
  /\ Enemy.size (fst (Enemy.update dt px e)) = Enemy.size e.
Proof.
  intro S.
  assert (B : (inject_Z (Enemy.size e) <= inject_Z (BASE_W - Enemy.size e))%Q)
    by (rewrite <- Zle_Qle; lia).
  destruct (enemy_update_frame dt px e) as (F1 & F2 & F3 & F4 & _).
  repeat split; try assumption;
    unfold Enemy.update;
    destruct (Enemy.move_type e); destruct (Qle_bool _ _); simpl;
    try (apply clamp_bounds; exact B);
    intro L;
    try (apply Qlt_bool_iff in L; now rewrite L);
    try (apply Qlt_bool_false_iff in L; now rewrite L).
Qed.

Lemma enemy_update_stays_on_screen_witness :
  2 * Enemy.size (scout_at 470 100) <= BASE_W
  /\ (Enemy.x (fst (@Enemy.update math_approx (1 # 20) 240 (scout_at 470 100)))
      <= inject_Z (BASE_W - Enemy.size (scout_at 470 100)))%Q.
Proof.
  split; [vm_compute; discriminate|].
  apply (@enemy_update_stays_on_screen math_approx). vm_compute. discriminate.
Defined.

(** X12. Enemy fire.  While the fire cooldown, less the time step, is
    positive the enemy fires nothing.  Once it is zero or less the cooldown
    restarts at [1 / fire_rate] and the enemy fires from just below its
    body: three bullets for a Tank, one for the other kinds, all of them
    alive enemy bullets of damage 10. *)
Theorem enemy_fire_pattern `{MathLib} (dt px : Q) (e : Enemy.t) :
  ((0 < Enemy.fire_cd e - dt)%Q ->
   snd (Enemy.update dt px e) = []
   /\ Enemy.fire_cd (fst (Enemy.update dt px e)) = (Enemy.fire_cd e - dt)%Q)
  /\ ((Enemy.fire_cd e - dt <= 0)%Q ->
      Enemy.fire_cd (fst (Enemy.update dt px e)) = (1 / Enemy.fire_rate e)%Q
      /\ List.length (snd (Enemy.update dt px e))
         = match Enemy.kind e with TANK => 3%nat | _ => 1%nat end
      /\ Forall (fun b =>
                   Bullet.is_player b = false /\ Bullet.alive b = true
                   /\ Bullet.damage b = 10
                   /\ Bullet.x b = Enemy.x (fst (Enemy.update dt px e))
                   /\ Bullet.y b
                      = (Enemy.y (fst (Enemy.update dt px e))
                         + inject_Z (Enemy.size e))%Q)
                (snd (Enemy.update dt px e))).
Proof.
  split; intro C.
  - assert (Q : Qle_bool (Enemy.fire_cd e - dt) 0 = false).
    { destruct (Qle_bool _ _) eqn:Q; [|reflexivity].
      apply Qle_bool_iff in Q. lra. }
    unfold Enemy.update. destruct (Enemy.move_type e); rewrite Q; simpl; auto.
  - apply Qle_bool_iff in C. unfold Enemy.update.
    destruct (Enemy.move_type e); rewrite C; simpl;
      unfold Enemy._fire; simpl; destruct (Enemy.kind e); simpl;
      repeat split; repeat constructor.
Qed.

Lemma enemy_fire_pattern_witness :
  (Enemy.fire_cd (Enemy.set_fire_cd (1 # 100) (hunter_at 240 520)) - (1 # 20) <= 0)%Q
  /\ List.length
       (snd (@Enemy.update math_approx (1 # 20) 240
               (Enemy.set_fire_cd (1 # 100) (hunter_at 240 520)))) = 1%nat.
Proof.
  split; [vm_compute; discriminate|].
  apply (proj2 (@enemy_fire_pattern math_approx (1 # 20) 240
                  (Enemy.set_fire_cd (1 # 100) (hunter_at 240 520)))).
  vm_compute. discriminate.
Defined.

Lemma clamp_id (v lo hi : Q) :
  (lo <= v)%Q -> (v <= hi)%Q -> (clamp v lo hi == v)%Q.
Proof.
  intros L U. unfold clamp.
  destruct (Q.min_spec hi v) as [[L1 E1]|[L1 E1]];
    destruct (Q.max_spec lo (Qmin hi v)) as [[L2 E2]|[L2 E2]];
    rewrite E2; rewrite E1 in L2; try rewrite E1; lra.
Qed.

(** The horizontal step of the tracking pattern. *)
Lemma track_step_bounds (dx dt s : Q) :
  (0 <= dt)%Q -> (dt <= 2 # 5)%Q -> (0 <= s)%Q ->
  (- (s * dt) <= clamp (dx * (5 # 2) * dt) (- s * dt) (s * dt) <= s * dt)%Q
  /\ ((0 <= dx)%Q -> (0 <= clamp (dx * (5 # 2) * dt) (- s * dt) (s * dt) <= dx)%Q)
  /\ ((dx <= 0)%Q -> (dx <= clamp (dx * (5 # 2) * dt) (- s * dt) (s * dt) <= 0)%Q).
Proof.
  intros D0 D1 S.
  assert (SD : (0 <= s * dt)%Q) by (apply Qmult_le_0_compat; assumption).
  assert (V1 : (0 <= dx)%Q -> (0 <= dx * (5 # 2) * dt <= dx)%Q) by (intro; nra).
  assert (V2 : (dx <= 0)%Q -> (dx <= dx * (5 # 2) * dt <= 0)%Q) by (intro; nra).
  unfold clamp.
  destruct (Q.min_spec (s * dt) (dx * (5 # 2) * dt)) as [[L1 E1]|[L1 E1]];
    destruct (Q.max_spec (- s * dt) (Qmin (s * dt) (dx * (5 # 2) * dt)))
      as [[L2 E2]|[L2 E2]];
    rewrite E2; rewrite E1 in L2; try rewrite E1;
    (split; [|split; intro X; [specialize (V1 X)|specialize (V2 X)]]); lra.
Qed.

Lemma enemy_update_track `{MathLib} (dt px : Q) (e : Enemy.t) :
  Enemy.move_type e = track ->
  Enemy.x (fst (Enemy.update dt px e))
  = clamp (Enemy.x e
           + clamp ((px - Enemy.x e) * (5 # 2) * dt)
                   (- Enemy.speed e * dt) (Enemy.speed e * dt))%Q
          (inject_Z (Enemy.size e)) (inject_Z (BASE_W - Enemy.size e))
  /\ Enemy.y (fst (Enemy.update dt px e))
     = (Enemy.y e + Enemy.speed e * (11 # 20) * dt)%Q.
Proof.
  intro T. unfold Enemy.update. rewrite T.
  destruct (Qle_bool _ _); simpl; auto.
Qed.

(** X13. Tracking.  For a time step between 0 and 0.4 s, an enemy with the
    tracking pattern (the Hunter) whose column and whose target column are
    on the screen moves towards the player's column without passing it, by
    at most [speed * dt] horizontally, and descends by 55% of
    [speed * dt]. *)
Theorem tracking_enemy_closes_in `{MathLib} (dt px : Q) (e : Enemy.t) :
  Enemy.move_type e = track ->
  (0 <= dt)%Q -> (dt <= 2 # 5)%Q -> (0 <= Enemy.speed e)%Q ->
  (inject_Z (Enemy.size e) <= Enemy.x e)%Q ->
  (Enemy.x e <= inject_Z (BASE_W - Enemy.size e))%Q ->
  (inject_Z (Enemy.size e) <= px)%Q ->
  (px <= inject_Z (BASE_W - Enemy.size e))%Q ->
  ((Enemy.x e <= px)%Q ->
   (Enemy.x e <= Enemy.x (fst (Enemy.update dt px e)))%Q
   /\ (Enemy.x (fst (Enemy.update dt px e)) <= px)%Q)
  /\ ((px <= Enemy.x e)%Q ->
      (px <= Enemy.x (fst (Enemy.update dt px e)))%Q
      /\ (Enemy.x (fst (Enemy.update dt px e)) <= Enemy.x e)%Q)
  /\ (Enemy.x (fst (Enemy.update dt px e)) - Enemy.x e <= Enemy.speed e * dt)%Q
  /\ (Enemy.x e - Enemy.x (fst (Enemy.update dt px e)) <= Enemy.speed e * dt)%Q
  /\ (Enemy.y (fst (Enemy.update dt px e))
      == Enemy.y e + (11 # 20) * (Enemy.speed e * dt))%Q.
Proof.
  intros T D0 D1 S X1 X2 P1 P2.
  destruct (enemy_update_track dt px e T) as [EX EY]. rewrite EX, EY.
  destruct (track_step_bounds (px - Enemy.x e) dt (Enemy.speed e) D0 D1 S)
    as (B & Pos & Neg).
  set (step := clamp ((px - Enemy.x e) * (5 # 2) * dt)
                     (- Enemy.speed e * dt) (Enemy.speed e * dt)) in *.
  assert (In : (inject_Z (Enemy.size e) <= Enemy.x e + step)%Q
               /\ (Enemy.x e + step <= inject_Z (BASE_W - Enemy.size e))%Q).
  { destruct (Qlt_le_dec px (Enemy.x e)) as [C|C].
    - assert (N : (px - Enemy.x e <= 0)%Q) by lra. specialize (Neg N). lra.
    - assert (N : (0 <= px - Enemy.x e)%Q) by lra. specialize (Pos N). lra. }
  destruct In as [I1 I2].
  pose proof (clamp_id _ _ _ I1 I2) as E. rewrite E.
  split; [|split; [|split; [|split]]].
  - intro C. assert (N : (0 <= px - Enemy.x e)%Q) by lra. specialize (Pos N). lra.
  - intro C. assert (N : (px - Enemy.x e <= 0)%Q) by lra. specialize (Neg N). lra.
  - lra.
  - lra.
  - lra.
Qed.

Lemma tracking_enemy_closes_in_witness :
  Enemy.move_type (hunter_at 100 100) = track
  /\ (Enemy.x (hunter_at 100 100) <= 240)%Q
  /\ (Enemy.x (hunter_at 100 100)
      <= Enemy.x (fst (@Enemy.update math_approx (1 # 20) 240 (hunter_at 100 100))))%Q
  /\ (Enemy.x (fst (@Enemy.update math_approx (1 # 20) 240 (hunter_at 100 100)))
      <= 240)%Q.
Proof.
  split; [reflexivity|]. split; [vm_compute; discriminate|].
  apply (proj1 (@tracking_enemy_closes_in math_approx (1 # 20) 240 (hunter_at 100 100)
                  eq_refl
                  ltac:(vm_compute; discriminate) ltac:(vm_compute; discriminate)
                  ltac:(vm_compute; discriminate) ltac:(vm_compute; discriminate)
                  ltac:(vm_compute; discriminate) ltac:(vm_compute; discriminate)
                  ltac:(vm_compute; discriminate))).
  vm_compute. discriminate.
Defined.

(** ** Bullets *)

(** X14. [Bullet.update] moves the bullet by its velocity times the time
    step and records the position it leaves at the end of the trail, which
    never holds more than five positions; the bullet is marked not alive
    once it is more than 20 px outside the playfield and keeps its alive
    flag otherwise; team, damage and velocity do not change. *)
Theorem bullet_update_effects (dt : Q) (b : Bullet.t) :
  Bullet.x (Bullet.update dt b) = (Bullet.x b + Bullet.vx b * dt)%Q
  /\ Bullet.y (Bullet.update dt b) = (Bullet.y b + Bullet.vy b * dt)%Q
  /\ ((List.length (Bullet.trail b) <= 5)%nat ->
      (List.length (Bullet.trail (Bullet.update dt b)) <= 5)%nat
      /\ last (Bullet.trail (Bullet.update dt b)) (0, 0)%Q
         = (Bullet.x b, Bullet.y b))
  /\ ((Bullet.y (Bullet.update dt b) < -20)%Q
      \/ (inject_Z (BASE_H + 20) < Bullet.y (Bullet.update dt b))%Q
      \/ (Bullet.x (Bullet.update dt b) < -20)%Q
      \/ (inject_Z (BASE_W + 20) < Bullet.x (Bullet.update dt b))%Q ->
      Bullet.alive (Bullet.update dt b) = false)
  /\ ((-20 <= Bullet.y (Bullet.update dt b))%Q ->
      (Bullet.y (Bullet.update dt b) <= inject_Z (BASE_H + 20))%Q ->
      (-20 <= Bullet.x (Bullet.update dt b))%Q ->
      (Bullet.x (Bullet.update dt b) <= inject_Z (BASE_W + 20))%Q ->
      Bullet.alive (Bullet.update dt b) = Bullet.alive b)
  /\ Bullet.is_player (Bullet.update dt b) = Bullet.is_player b
  /\ Bullet.damage (Bullet.update dt b) = Bullet.damage b
  /\ Bullet.vx (Bullet.update dt b) = Bullet.vx b
  /\ Bullet.vy (Bullet.update dt b) = Bullet.vy b.
Proof.
  split; [reflexivity|]. split; [reflexivity|].
  split; [|split; [|split; [|repeat split]]].
  - intro L. unfold Bullet.update. simpl Bullet.trail.
    rewrite length_app. simpl List.length.
    destruct (5 <? Z.of_nat (List.length (Bullet.trail b) + 1)) eqn:E.
    + apply Z.ltb_lt in E.
      destruct (Bullet.trail b) as [|t0 rest] eqn:Tr.
      * simpl in E. lia.
      * simpl. rewrite length_app. simpl in *. split; [lia|].
        apply last_last.
    + apply Z.ltb_ge in E. rewrite length_app. simpl. split; [lia|].
      apply last_last.
  - intro O. unfold Bullet.update. simpl.
    destruct O as [O|[O|[O|O]]]; apply Qlt_bool_iff in O; simpl in O;
      rewrite O; simpl; rewrite ?orb_true_r; reflexivity.
  - intros Y1 Y2 X1 X2. unfold Bullet.update. simpl.
    apply Qlt_bool_false_iff in Y1, Y2, X1, X2. simpl in *.
    now rewrite Y1, Y2, X1, X2.
Qed.

Lemma bullet_update_effects_witness :
  (List.length (Bullet.trail (Bullet.init 240 5 0 (- BULLET_SPEED) true)) <= 5)%nat
  /\ (Bullet.y (Bullet.update (1 # 20) (Bullet.init 240 5 0 (- BULLET_SPEED) true))
      < -20)%Q
  /\ Bullet.alive (Bullet.update (1 # 20) (Bullet.init 240 5 0 (- BULLET_SPEED) true))
     = false.
Proof.
  split; [simpl; lia|]. split; [vm_compute; reflexivity|].
  apply (proj1 (proj2 (proj2 (proj2
           (bullet_update_effects (1 # 20)
              (Bullet.init 240 5 0 (- BULLET_SPEED) true)))))).
  left. vm_compute. reflexivity.
Defined.

(** ** A whole tick *)

Ltac proceeds_split :=
  unfold proceeds;
  split; [|split; [|split; [|split; [|split]]]].

Lemma proceeds_refl (g : Game.t) : proceeds g g.
Proof. proceeds_split; auto. intros. lia. Qed.

Lemma proceeds_trans (g1 g2 g3 : Game.t) :
  proceeds g1 g2 -> proceeds g2 g3 -> proceeds g1 g3.
Proof.
  unfold proceeds.
  intros (S1 & H1 & T1 & C1 & E1 & L1) (S2 & H2 & T2 & C2 & E2 & L2).
  proceeds_split; try congruence; auto.
  intros C E. specialize (L1 C E). specialize (L2 (C1 C) (E1 E)). lia.
Qed.

(** A step that changes none of the fields that [proceeds] looks at. *)
Lemma proceeds_fields (g g' : Game.t) :
  Game.state g' = Game.state g -> Game.high_score g' = Game.high_score g ->
  Game.tick g' = Game.tick g -> Game.combo_chain g' = Game.combo_chain g ->
  Game.multiplier g' = Game.multiplier g -> Game.enemies g' = Game.enemies g ->
  Game.score g' = Game.score g ->
  proceeds g g'.
Proof.
  intros S H T C M E Sc. proceeds_split; auto; unfold combo_ok;
    rewrite ?C, ?M, ?E, ?Sc; auto. intros. lia.
Qed.

Lemma proceeds_break (g : Game.t) : proceeds g (Game._break_combo g).
Proof.
  proceeds_split; auto; unfold combo_ok; simpl; intros.
  - split; [lia|reflexivity].
  - lia.
Qed.

Lemma on_enemy_killed_steady (e : Enemy.t) (g : Game.t) :
  Game.high_score (Game._on_enemy_killed e g) = Game.high_score g
  /\ Game.tick (Game._on_enemy_killed e g) = Game.tick g.
Proof.
  unfold Game._on_enemy_killed.
  destruct (random_random _) as [u r1]. cbv zeta.
  destruct (Qlt_bool u POWERUP_CHANCE).
  - destruct (PowerUp.init _ _ r1) as [pu r2]. simpl. auto.
  - simpl. auto.
Qed.

Lemma multiplier_at_least_one (c : Z) : 0 <= c -> 1 <= Z.min 5 (1 + c / 3) <= 5.
Proof.
  intro H. pose proof (Z.div_pos c 3 H ltac:(lia)). lia.
Qed.

Lemma proceeds_killed (e : Enemy.t) (g : Game.t) :
  (enemy_scores_ok (Game.enemies g) -> 0 <= Enemy.score e) ->
  proceeds g (Game._on_enemy_killed e g).
Proof.
  intro He.
  destruct (on_enemy_killed_combo e g) as (C & M & _ & Sc).
  destruct (on_enemy_killed_frame e g) as (S & _ & E & _).
  destruct (on_enemy_killed_steady e g) as (H & T).
  proceeds_split; auto; unfold combo_ok; rewrite ?C, ?M, ?E, ?Sc; auto.
  - intros [C0 _]. split; [lia|reflexivity].
  - intros [C0 _] Es. specialize (He Es).
    pose proof (multiplier_at_least_one (Game.combo_chain g + 1) ltac:(lia)). nia.
Qed.

Lemma proceeds_set_enemies (es : list Enemy.t) (g : Game.t) :
  (enemy_scores_ok (Game.enemies g) -> enemy_scores_ok es) ->
  proceeds g (Game.set_enemies es g).
Proof.
  intro H. proceeds_split; auto. intros. simpl. lia.
Qed.

Lemma proceeds_damage_player (a : Z) (g : Game.t) :
  proceeds g (Game.damage_player a g).
Proof.
  unfold Game.damage_player. destruct (_ <? _).
  - apply proceeds_trans with (Game.set_player (Player.take_damage a (Game.player g)) g).
    + apply proceeds_fields; reflexivity.
    + apply proceeds_break.
  - apply proceeds_fields; reflexivity.
Qed.

Lemma take_damage_keeps_score (a : Z) (e : Enemy.t) :
  Enemy.score (Enemy.take_damage a e) = Enemy.score e.
Proof. reflexivity. Qed.

Lemma hit_first_enemy_scores (b : Bullet.t) (es : list Enemy.t) :
  forall es' e', Game.hit_first_enemy b es = Some (es', e') ->
  In e' es' /\ (enemy_scores_ok es -> enemy_scores_ok es').
Proof.
  unfold enemy_scores_ok.
  induction es as [|e rest IH]; intros es' e' H; simpl in H; [discriminate|].
  destruct (Enemy.alive e && colliderect (Bullet.rect b) (Enemy.rect e)).
  - inversion H; subst. split; [now left|].
    intro F. inversion F; subst. constructor; [|assumption].
    now rewrite take_damage_keeps_score.
  - destruct (Game.hit_first_enemy b rest) as [[rest' e1]|]; [|discriminate].
    inversion H; subst. destruct (IH _ _ eq_refl) as [I F'].
    split; [now right|]. intro F. inversion F; subst.
    constructor; auto.
Qed.

Lemma proceeds_collide_bullet (pr : Rect) (b : Bullet.t) (g : Game.t) :
  proceeds g (snd (Game.collide_bullet pr b g)).
Proof.
  unfold Game.collide_bullet.
  destruct (negb (Bullet.alive b)); [apply proceeds_refl|].
  destruct (Bullet.is_player b).
  - destruct (Game.hit_first_enemy b (Game.enemies g)) as [[es' e']|] eqn:Hf;
      [|apply proceeds_refl].
    destruct (hit_first_enemy_scores _ _ _ _ Hf) as [I F].
    simpl.
    assert (P : proceeds g (Game.call (sound_play "hit" (1 # 2))
                  (Game.call (emit_hit (Bullet.x b) (Bullet.y b))
                     (Game.set_enemies es' g)))).
    { apply proceeds_trans with (Game.set_enemies es' g).
      - now apply proceeds_set_enemies.
      - apply proceeds_fields; reflexivity. }
    destruct (negb (Enemy.alive e')); [|exact P].
    eapply proceeds_trans; [exact P|].
    apply proceeds_killed. simpl. intro Es.
    unfold enemy_scores_ok in Es. rewrite Forall_forall in Es. now apply Es.
  - destruct (colliderect _ _); [|apply proceeds_refl]. simpl.
    apply proceeds_trans with (Game.damage_player (Bullet.damage b) g).
    + apply proceeds_damage_player.
    + apply proceeds_fields; reflexivity.
Qed.

Lemma proceeds_collide_bullets (pr : Rect) (bs : list Bullet.t) : forall g,
  proceeds g (snd (Game.collide_bullets pr bs g)).
Proof.
  induction bs as [|b rest IH]; intro g; simpl; [apply proceeds_refl|].
  pose proof (proceeds_collide_bullet pr b g) as P.
  destruct (Game.collide_bullet pr b g) as [b' g1]. simpl in P.
  specialize (IH g1).
  destruct (Game.collide_bullets pr rest g1) as [rest' g2]. simpl in *.
  eapply proceeds_trans; eassumption.
Qed.

Lemma collide_body_result (pr : Rect) (e : Enemy.t) (g : Game.t) :
  proceeds g (snd (Game.collide_body pr e g))
  /\ Game.enemies (snd (Game.collide_body pr e g)) = Game.enemies g
  /\ Enemy.score (fst (Game.collide_body pr e g)) = Enemy.score e.
Proof.
  unfold Game.collide_body. destruct (_ && _); simpl.
  - split; [|split; [|reflexivity]].
    + apply proceeds_trans with (Game.damage_player 25 g).
      * apply proceeds_damage_player.
      * apply proceeds_fields; reflexivity.
    + apply (proj1 (damage_player_frame _ _)).
  - split; [apply proceeds_refl|auto].
Qed.

Lemma collide_bodies_result (pr : Rect) (es : list Enemy.t) : forall g,
  proceeds g (snd (Game.collide_bodies pr es g))
  /\ Game.enemies (snd (Game.collide_bodies pr es g)) = Game.enemies g
  /\ (enemy_scores_ok es -> enemy_scores_ok (fst (Game.collide_bodies pr es g))).
Proof.
  induction es as [|e rest IH]; intro g; simpl.
  - split; [apply proceeds_refl|auto].
  - destruct (collide_body_result pr e g) as (P & E & Sc).
    destruct (Game.collide_body pr e g) as [e' g1]. simpl in *.
    destruct (IH g1) as (P2 & E2 & F2).
    destruct (Game.collide_bodies pr rest g1) as [rest' g2]. simpl in *.
    split; [eapply proceeds_trans; eassumption|].
    split; [congruence|].
    unfold enemy_scores_ok in *.
    intro F. inversion F; subst. constructor; [lia|auto].
Qed.

Lemma proceeds_collect_powerups (pr : Rect) (ps : list PowerUp.t) : forall g,
  proceeds g (snd (Game.collect_powerups pr ps g)).
Proof.
  induction ps as [|p rest IH]; intro g; simpl; [apply proceeds_refl|].
  assert (P : proceeds g (snd (Game.collect_powerup pr p g))).
  { unfold Game.collect_powerup. destruct (_ && _); simpl.
    - apply proceeds_fields; reflexivity.
    - apply proceeds_refl. }
  destruct (Game.collect_powerup pr p g) as [p' g1]. simpl in P.
  specialize (IH g1).
  destruct (Game.collect_powerups pr rest g1) as [rest' g2]. simpl in *.
  eapply proceeds_trans; eassumption.
Qed.

Lemma proceeds_check_collisions (g : Game.t) :
  proceeds g (Game._check_collisions g).
Proof.
  unfold Game._check_collisions.
  set (pr := Player.rect (Game.player g)).
  assert (P1 : proceeds g (Game.bullets_pass pr g)).
  { unfold Game.bullets_pass.
    pose proof (proceeds_collide_bullets pr (Game.bullets g) g) as P.
    destruct (Game.collide_bullets pr (Game.bullets g) g) as [bs g1]. simpl in P.
    eapply proceeds_trans; [exact P|]. apply proceeds_fields; reflexivity. }
  assert (P2 : forall s, proceeds s (Game.bodies_pass pr s)).
  { intro s. unfold Game.bodies_pass.
    destruct (collide_bodies_result pr (Game.enemies s) s) as (P & E & F).
    destruct (Game.collide_bodies pr (Game.enemies s) s) as [es g1]. simpl in *.
    eapply proceeds_trans; [exact P|].
    apply proceeds_set_enemies. rewrite E. exact F. }
  assert (P3 : forall s, proceeds s (Game.powerups_pass pr s)).
  { intro s. unfold Game.powerups_pass.
    pose proof (proceeds_collect_powerups pr (Game.powerups s) s) as P.
    destruct (Game.collect_powerups pr (Game.powerups s) s) as [ps g1]. simpl in P.
    eapply proceeds_trans; [exact P|]. apply proceeds_fields; reflexivity. }
  eapply proceeds_trans; [exact P1|].
  eapply proceeds_trans; [apply P2|apply P3].
Qed.

Lemma proceeds_calls_all (cs : list Call) : forall g, proceeds g (calls_all cs g).
Proof.
  unfold calls_all. induction cs as [|c rest IH]; intro g; simpl.
  - apply proceeds_refl.
  - eapply proceeds_trans; [|apply IH]. apply proceeds_fields; reflexivity.
Qed.

Lemma proceeds_kills_all (es : list Enemy.t) : forall g,
  (enemy_scores_ok (Game.enemies g) -> enemy_scores_ok es) ->
  proceeds g (kills_all es g).
Proof.
  unfold kills_all, enemy_scores_ok.
  induction es as [|e rest IH]; intros g H; simpl.
  - apply proceeds_refl.
  - apply proceeds_trans with (Game._on_enemy_killed e g).
    + apply proceeds_killed. intro F. specialize (H F). now inversion H.
    + apply IH. rewrite (proj1 (proj2 (proj2 (on_enemy_killed_frame e g)))).
      intro F. specialize (H F). now inversion H.
Qed.

Lemma pulse_results_scores {M : MathLib} (px py : Q) (es : list Enemy.t) :
  enemy_scores_ok es ->
  enemy_scores_ok (map (pulse_enemy_result px py) es)
  /\ enemy_scores_ok (pulse_kills px py es).
Proof.
  unfold enemy_scores_ok. rewrite !Forall_forall. intro F. split.
  - intros x I. apply in_map_iff in I. destruct I as (e & <- & I).
    unfold pulse_enemy_result. destruct (Game.pulse_hits_enemy px py e);
      [rewrite take_damage_keeps_score|]; now apply F.
  - intros x I. apply pulse_kills_iff in I.
    destruct I as (e & I & _ & _ & -> & _).
    rewrite take_damage_keeps_score. now apply F.
Qed.

Lemma proceeds_trigger_pulse {M : MathLib} (g : Game.t) : proceeds g (Game._trigger_pulse g).
Proof.
  rewrite trigger_pulse_spec.
  set (px := Player.x (Game.player g)). set (py := Player.y (Game.player g)).
  set (g1 := calls_all _ g).
  assert (P1 : proceeds g g1) by apply proceeds_calls_all.
  assert (E1 : Game.enemies g1 = Game.enemies g)
    by apply (proj1 (calls_all_frame _ _)).
  set (g2 := Game.set_bullets _ g1).
  assert (P2 : proceeds g1 g2) by (apply proceeds_fields; reflexivity).
  set (g3 := kills_all _ g2).
  assert (P3 : proceeds g2 g3).
  { apply proceeds_kills_all. simpl. rewrite E1.
    intro F. apply (pulse_results_scores px py _ F). }
  eapply proceeds_trans; [exact P1|].
  eapply proceeds_trans; [exact P2|].
  eapply proceeds_trans; [exact P3|].
  apply proceeds_set_enemies.
  unfold g3. rewrite (proj1 (proj2 (kills_all_frame _ _))). simpl. rewrite E1.
  intro F. apply (pulse_results_scores px py _ F).
Qed.

Lemma update_enemies_scores `{MathLib} (dt px : Q) (es : list Enemy.t) :
  enemy_scores_ok es -> enemy_scores_ok (fst (Game.update_enemies dt px es)).
Proof.
  unfold enemy_scores_ok.
  induction es as [|e rest IH]; intro F; simpl; [constructor|].
  inversion F; subst.
  pose proof (proj1 (proj2 (enemy_update_frame dt px e))) as Sc.
  destruct (Enemy.update dt px e) as [e' fired]. simpl in Sc.
  specialize (IH H3).
  destruct (Game.update_enemies dt px rest) as [rest' fired']. simpl in *.
  constructor; [lia|assumption].
Qed.

Lemma proceeds_on_player_death_fields (g : Game.t) :
  Game.state (Game._on_player_death g) = GAME_OVER
  /\ Game.high_score (Game._on_player_death g) = Z.max (Game.high_score g) (Game.score g)
  /\ Game.new_record (Game._on_player_death g) = (Game.high_score g <? Game.score g)
  /\ Game.tick (Game._on_player_death g) = Game.tick g
  /\ Game.player (Game._on_player_death g) = Game.player g
  /\ Game.enemies (Game._on_player_death g) = Game.enemies g
  /\ Game.bullets (Game._on_player_death g) = Game.bullets g
  /\ Game.powerups (Game._on_player_death g) = Game.powerups g
  /\ Game.score (Game._on_player_death g) = Game.score g
  /\ Game.combo_chain (Game._on_player_death g) = Game.combo_chain g
  /\ Game.multiplier (Game._on_player_death g) = Game.multiplier g.
Proof.
  unfold Game._on_player_death. simpl.
  destruct (Game.high_score g <? Game.score g) eqn:E;
    [apply Z.ltb_lt in E | apply Z.ltb_ge in E]; repeat split; lia.
Qed.


Lemma proceeds_set_rng v g : proceeds g (Game.set_rng v g).
Proof. apply proceeds_fields; reflexivity. Qed.
Lemma proceeds_set_stars v g : proceeds g (Game.set_stars v g).
Proof. apply proceeds_fields; reflexivity. Qed.
Lemma proceeds_set_player v g : proceeds g (Game.set_player v g).
Proof. apply proceeds_fields; reflexivity. Qed.
Lemma proceeds_set_combo_timer v g : proceeds g (Game.set_combo_timer v g).
Proof. apply proceeds_fields; reflexivity. Qed.
Lemma proceeds_set_bullets v g : proceeds g (Game.set_bullets v g).
Proof. apply proceeds_fields; reflexivity. Qed.
Lemma proceeds_set_powerups v g : proceeds g (Game.set_powerups v g).
Proof. apply proceeds_fields; reflexivity. Qed.
Lemma proceeds_set_spawner v g : proceeds g (Game.set_spawner v g).
Proof. apply proceeds_fields; reflexivity. Qed.
Lemma proceeds_call c g : proceeds g (Game.call c g).
Proof. apply proceeds_fields; reflexivity. Qed.

Lemma spawned_enemy_score (x y : Q) (k : EnemyType) (r : Rng) (es : list Enemy.t) :
  enemy_scores_ok es -> enemy_scores_ok (es ++ [fst (Enemy.init x y k r)]).
Proof.
  unfold enemy_scores_ok. intro F. apply Forall_app. split; [exact F|].
  constructor; [|constructor].
  rewrite (proj1 (proj2 (proj2 (enemy_init_stats x y k r)))).
  destruct k; simpl; lia.
Qed.



(** One step of the walk along the nested updates of the state. *)
Ltac walk :=
  lazymatch goal with
  | |- proceeds ?g ?g => apply proceeds_refl
  | |- proceeds ?g (Game.set_rng ?v ?x) =>
      apply (proceeds_trans g x); [walk|apply proceeds_set_rng]
  | |- proceeds ?g (Game.set_stars ?v ?x) =>
      apply (proceeds_trans g x); [walk|apply proceeds_set_stars]
  | |- proceeds ?g (Game.set_player ?v ?x) =>
      apply (proceeds_trans g x); [walk|apply proceeds_set_player]
  | |- proceeds ?g (Game.set_combo_timer ?v ?x) =>
      apply (proceeds_trans g x); [walk|apply proceeds_set_combo_timer]
  | |- proceeds ?g (Game.set_bullets ?v ?x) =>
      apply (proceeds_trans g x); [walk|apply proceeds_set_bullets]
  | |- proceeds ?g (Game.set_powerups ?v ?x) =>
      apply (proceeds_trans g x); [walk|apply proceeds_set_powerups]
  | |- proceeds ?g (Game.set_spawner ?v ?x) =>
      apply (proceeds_trans g x); [walk|apply proceeds_set_spawner]
  | |- proceeds ?g (Game.call ?c ?x) =>
      apply (proceeds_trans g x); [walk|apply proceeds_call]
  | |- proceeds ?g (Game._break_combo ?x) =>
      apply (proceeds_trans g x); [walk|apply proceeds_break]
  | |- proceeds ?g (Game._trigger_pulse ?x) =>
      apply (proceeds_trans g x); [walk|apply proceeds_trigger_pulse]
  | |- proceeds ?g (fold_left (fun s c => Game.call c s) ?l ?x) =>
      apply (proceeds_trans g x); [walk|apply (proceeds_calls_all l x)]
  | |- proceeds ?g (Game.set_enemies ?es ?x) =>
      apply (proceeds_trans g x);
      [walk
      |apply proceeds_set_enemies;
       first [assumption
             |match goal with SE : forall es, _ |- _ => apply SE end]]
  | |- proceeds ?g (if ?c then _ else _) => destruct c; walk
  | |- proceeds ?g (match ?l with [] => _ | _ :: _ => _ end) => destruct l; walk
  | |- proceeds ?g (match ?o with Some _ => _ | None => _ end) => destruct o; walk
  | |- proceeds ?g (let (_, _) := Enemy.init ?x ?y ?k ?r in _) =>
      let SE := fresh "SE" in
      pose proof (spawned_enemy_score x y k r) as SE;
      destruct (Enemy.init x y k r); simpl fst in SE; walk
  | |- proceeds ?g (let (_, _) := ?v in _) => destruct v; walk
  end.

(** One [let] of [_update]: the value bound becomes a variable that
    [proceeds] from the initial state. *)
Ltac advance_let :=
  lazymatch goal with
  | P : proceeds ?g0 ?gk
    |- shaped ?g0 (let x := Game._check_collisions ?gk in _) =>
      exists gk; split; [reflexivity|exact P]
  | P : proceeds ?g0 ?gk |- shaped ?g0 (let x := ?v in _) =>
      let P' := fresh "P" in
      assert (P' : proceeds g0 v)
        by (apply (proceeds_trans g0 gk); [exact P|walk]);
      clear P; revert P'; generalize v;
      let s := fresh "s" in
      intros s P';
      lazymatch goal with
      | |- shaped _ (let y := ?w in @?b y) =>
          let r := eval cbv beta in (b w) in change (shaped g0 r)
      end
  | |- shaped ?g0 (let (_, _) := Game.update_enemies ?a ?b ?c in _) =>
      let UE := fresh "UE" in
      pose proof (update_enemies_scores a b c) as UE;
      destruct (Game.update_enemies a b c); simpl fst in UE
  | |- shaped ?g0 (let (_, _) := ?v in _) => destruct v
  end.

Lemma update_shape `{MathLib} (dt : Q) (keys : Keys) (g : Game.t) :
  shaped g (Game._update dt keys g).
Proof.
  pose proof (proceeds_refl g) as P.
  cbv delta [Game._update]. cbv beta.
  repeat advance_let.
Qed.

Lemma proceeds_prune (g : Game.t) : proceeds g (prune g).
Proof.
  unfold prune.
  apply proceeds_trans with (Game.set_enemies (filter Enemy.alive (Game.enemies g)) g).
  - apply proceeds_set_enemies. unfold enemy_scores_ok.
    rewrite !Forall_forall. intros F x I. apply filter_In in I. now apply F.
  - eapply proceeds_trans; [apply proceeds_set_bullets|apply proceeds_set_powerups].
Qed.

Lemma prune_lists (g : Game.t) :
  Game.enemies (prune g) = filter Enemy.alive (Game.enemies g)
  /\ Game.bullets (prune g) = filter Bullet.alive (Game.bullets g)
  /\ Game.powerups (prune g) = filter PowerUp.alive (Game.powerups g)
  /\ Game.player (prune g) = Game.player g.
Proof. unfold prune. simpl. auto. Qed.

Lemma finish_alive (g : Game.t) :
  Player.alive (Game.player g) = true -> finish g = g.
Proof. intro A. unfold finish. now rewrite A. Qed.

Lemma finish_dead (g : Game.t) :
  Player.alive (Game.player g) = false -> finish g = Game._on_player_death g.
Proof. intro A. unfold finish. now rewrite A. Qed.

Lemma finish_fields (g : Game.t) :
  Game.tick (finish g) = Game.tick g
  /\ Game.player (finish g) = Game.player g
  /\ Game.enemies (finish g) = Game.enemies g
  /\ Game.bullets (finish g) = Game.bullets g
  /\ Game.powerups (finish g) = Game.powerups g
  /\ Game.score (finish g) = Game.score g
  /\ Game.combo_chain (finish g) = Game.combo_chain g
  /\ Game.multiplier (finish g) = Game.multiplier g
  /\ Game.high_score g <= Game.high_score (finish g).
Proof.
  unfold finish. destruct (negb (Player.alive (Game.player g))).
  - destruct (proceeds_on_player_death_fields g)
      as (_ & Hs & _ & T & P & E & B & Pw & S & C & M).
    rewrite Hs. repeat split; auto. lia.
  - repeat split; auto. lia.
Qed.

(** X15. One tick keeps the session consistent.  If the combo is consistent
    (chain not negative, multiplier equal to [min 5 (1 + chain / 3)]) and no
    enemy has a negative score value, then after [_update] both still hold,
    the multiplier is within 1..5 and the score has not dropped; in any
    case the clock is untouched and the high score has not dropped.  The
    state built by [Game.__init__] is consistent. *)
Theorem tick_keeps_session_consistent `{MathLib}
    (dt : Q) (keys : Keys) (g : Game.t) :
  (combo_ok g -> enemy_scores_ok (Game.enemies g) ->
   combo_ok (Game._update dt keys g)
   /\ enemy_scores_ok (Game.enemies (Game._update dt keys g))
   /\ 1 <= Game.multiplier (Game._update dt keys g) <= 5
   /\ Game.score g <= Game.score (Game._update dt keys g))
  /\ Game.tick (Game._update dt keys g) = Game.tick g
  /\ Game.high_score g <= Game.high_score (Game._update dt keys g)
  /\ (forall r, combo_ok (Game.init r) /\ Game.enemies (Game.init r) = []).
Proof.
  destruct (update_shape dt keys g) as (g1 & E & P1).
  pose proof (proceeds_trans _ _ _ P1
                (proceeds_trans _ _ _ (proceeds_check_collisions g1)
                   (proceeds_prune _))) as P.
  destruct P as (_ & Hi & T & C & Es & Sc).
  destruct (finish_fields (prune (Game._check_collisions g1)))
    as (FT & _ & FE & _ & _ & FS & FC & FM & FH).
  rewrite E. split; [|split; [|split]].
  - intros C0 E0. specialize (C C0). specialize (Es E0). specialize (Sc C0 E0).
    assert (C' : combo_ok (finish (prune (Game._check_collisions g1)))).
    { unfold combo_ok in *. rewrite FC, FM. exact C. }
    split; [exact C'|]. split; [now rewrite FE|]. split.
    + destruct C' as [C1 C2]. rewrite C2. now apply multiplier_at_least_one.
    + rewrite FS. exact Sc.
  - now rewrite FT.
  - rewrite <- Hi. exact FH.
  - intro r. unfold Game.init, Game._init_session. simpl Game.rng.
    destruct (StarField.init r) as [st r']. simpl.
    split; [|reflexivity]. unfold combo_ok. simpl. split; [lia|reflexivity].
Qed.

(** X16. After [_update] every enemy, bullet and power-up left in the lists
    is alive: what the tick deactivated has been pruned. *)
Theorem tick_prunes_dead_entities `{MathLib} (dt : Q) (keys : Keys) (g : Game.t) :
  Forall (fun e => Enemy.alive e = true) (Game.enemies (Game._update dt keys g))
  /\ Forall (fun b => Bullet.alive b = true) (Game.bullets (Game._update dt keys g))
  /\ Forall (fun p => PowerUp.alive p = true)
            (Game.powerups (Game._update dt keys g)).
Proof.
  destruct (update_shape dt keys g) as (g1 & E & _). rewrite E.
  destruct (finish_fields (prune (Game._check_collisions g1)))
    as (_ & _ & FE & FB & FP & _).
  destruct (prune_lists (Game._check_collisions g1)) as (PE & PB & PP & _).
  rewrite FE, FB, FP, PE, PB, PP.
  repeat split; apply Forall_forall; intros x I; apply filter_In in I; tauto.
Qed.

(** X17. A tick of a game that is Playing ends in Game-over exactly when
    the player is not alive at its end; then the high score is the larger
    of the old high score and the final score, and the new-record flag
    says whether the score beat it.  Otherwise the game is still Playing
    and the high score is untouched. *)
Theorem game_over_iff_player_dead `{MathLib} (dt : Q) (keys : Keys) (g : Game.t) :
  Game.state g = PLAYING ->
  (Game.state (Game._update dt keys g) = GAME_OVER
   <-> Player.alive (Game.player (Game._update dt keys g)) = false)
  /\ (Player.alive (Game.player (Game._update dt keys g)) = true ->
      Game.state (Game._update dt keys g) = PLAYING
      /\ Game.high_score (Game._update dt keys g) = Game.high_score g)
  /\ (Player.alive (Game.player (Game._update dt keys g)) = false ->
      Game.high_score (Game._update dt keys g)
      = Z.max (Game.high_score g) (Game.score (Game._update dt keys g))
      /\ Game.new_record (Game._update dt keys g)
         = (Game.high_score g <? Game.score (Game._update dt keys g))).
Proof.
  intro S.
  destruct (update_shape dt keys g) as (g1 & E & P1).
  pose proof (proceeds_trans _ _ _ P1
                (proceeds_trans _ _ _ (proceeds_check_collisions g1)
                   (proceeds_prune _))) as P.
  destruct P as (St & Hi & _).
  rewrite E. set (x := prune (Game._check_collisions g1)) in *.
  rewrite S in St.
  destruct (Player.alive (Game.player x)) eqn:A.
  - rewrite (finish_alive x A). rewrite A, St, Hi.
    split; [split; discriminate|]. split; [auto|discriminate].
  - rewrite (finish_dead x A).
    destruct (proceeds_on_player_death_fields x)
      as (Ds & Dh & Dn & _ & Dp & _ & _ & _ & Dsc & _).
    rewrite Ds, Dh, Dn, Dp, Dsc, A, Hi.
    split; [split; reflexivity|]. split; [discriminate|auto].
Qed.

Lemma tick_keeps_session_consistent_witness :
  combo_ok pulse_session /\ enemy_scores_ok (Game.enemies pulse_session)
  /\ Game.score pulse_session
     <= Game.score (@Game._update math_approx (Game.frame_dt 16) pulse_key pulse_session)
  /\ Game.score (@Game._update math_approx (Game.frame_dt 16) pulse_key pulse_session)
     = 250.
Proof.
  assert (C : combo_ok pulse_session)
    by (split; [vm_compute; discriminate|vm_compute; reflexivity]).
  assert (E : enemy_scores_ok (Game.enemies pulse_session))
    by (repeat constructor; vm_compute; discriminate).
  split; [exact C|]. split; [exact E|]. split.
  - apply (proj1 (@tick_keeps_session_consistent math_approx
                    (Game.frame_dt 16) pulse_key pulse_session) C E).
  - vm_compute. reflexivity.
Defined.

Lemma game_over_iff_player_dead_witness :
  Game.state pulse_session = PLAYING
  /\ Game.state (@Game._update math_approx (Game.frame_dt 16) pulse_key pulse_session)
     = PLAYING.
Proof.
  assert (S : Game.state pulse_session = PLAYING) by (vm_compute; reflexivity).
  split; [exact S|].
  apply (proj1 (proj2 (@game_over_iff_player_dead math_approx
                         (Game.frame_dt 16) pulse_key pulse_session S))).
  vm_compute. reflexivity.
Defined.

(** ** The collision pass *)

(** X18. First match wins.  The enemy scan of a player bullet hits nothing
    exactly when the bullet overlaps no alive enemy; when it hits, exactly
    one enemy of the list changes: the first alive enemy that the bullet
    overlaps takes the bullet's damage, and every enemy before it was
    missed. *)
Theorem first_match_wins (b : Bullet.t) (es : list Enemy.t) :
  (Game.hit_first_enemy b es = None <-> forall x, In x es -> misses b x)
  /\ (forall es' e', Game.hit_first_enemy b es = Some (es', e') ->
      exists l1 e l2,
        es = l1 ++ e :: l2 /\ es' = l1 ++ e' :: l2
        /\ e' = Enemy.take_damage (Bullet.damage b) e
        /\ Enemy.alive e = true
        /\ colliderect (Bullet.rect b) (Enemy.rect e) = true
        /\ forall x, In x l1 -> misses b x).
Proof.
  split.
  - split; [|apply hit_first_enemy_none].
    induction es as [|e rest IH]; intros H x I; [destruct I|].
    simpl in H.
    destruct (Enemy.alive e && colliderect (Bullet.rect b) (Enemy.rect e)) eqn:C;
      [discriminate|].
    destruct (Game.hit_first_enemy b rest) as [[l h]|] eqn:R; [discriminate|].
    destruct I as [<-|I]; [exact C|]. now apply IH.
  - induction es as [|e rest IH]; intros es' e' H; simpl in H; [discriminate|].
    destruct (Enemy.alive e && colliderect (Bullet.rect b) (Enemy.rect e)) eqn:C.
    + inversion H; subst. apply andb_true_iff in C. destruct C as [A O].
      exists [], e, rest. repeat split; auto. intros x [].
    + destruct (Game.hit_first_enemy b rest) as [[l h]|] eqn:R; [|discriminate].
      inversion H; subst.
      destruct (IH _ _ eq_refl) as (l1 & e0 & l2 & E1 & E2 & E3 & A & O & M).
      exists (e :: l1), e0, l2. subst. repeat split; auto.
      intros x [<-|I]; [exact C|now apply M].
Qed.

Lemma first_match_wins_witness :
  Game.hit_first_enemy (Bullet.init 100 100 0 (- BULLET_SPEED) true)
    [scout_at 300 300; scout_at 100 100; scout_at 101 101]
  = Some ([scout_at 300 300; Enemy.take_damage 20 (scout_at 100 100); scout_at 101 101],
          Enemy.take_damage 20 (scout_at 100 100))
  /\ exists l1 e l2,
       [scout_at 300 300; scout_at 100 100; scout_at 101 101] = l1 ++ e :: l2
       /\ Enemy.alive e = true.
Proof.
  assert (E : Game.hit_first_enemy (Bullet.init 100 100 0 (- BULLET_SPEED) true)
                [scout_at 300 300; scout_at 100 100; scout_at 101 101]
              = Some ([scout_at 300 300; Enemy.take_damage 20 (scout_at 100 100);
                       scout_at 101 101],
                      Enemy.take_damage 20 (scout_at 100 100)))
    by (vm_compute; reflexivity).
  split; [exact E|].
  destruct (proj2 (first_match_wins _ _) _ _ E) as (l1 & e & l2 & E1 & _ & _ & A & _).
  exists l1, e, l2. split; assumption.
Defined.

Lemma bullet_after_refl (b : Bullet.t) : bullet_after b b.
Proof. now left. Qed.

Lemma enemy_after_refl (e : Enemy.t) : enemy_after e e.
Proof. unfold enemy_after. repeat split; auto. Qed.

Lemma enemy_after_trans (e1 e2 e3 : Enemy.t) :
  enemy_after e1 e2 -> enemy_after e2 e3 -> enemy_after e1 e3.
Proof.
  unfold enemy_after.
  intros (X1 & Y1 & K1 & S1 & C1 & D1 & R1) (X2 & Y2 & K2 & S2 & C2 & D2 & R2).
  repeat split; try congruence; auto.
  intro A. rewrite D2; [now apply D1|]. now rewrite (D1 A).
Qed.

Lemma enemy_after_damage (d : Z) (e : Enemy.t) :
  Enemy.alive e = true -> enemy_after e (Enemy.take_damage d e).
Proof.
  intro A. unfold enemy_after, Enemy.take_damage. simpl.
  repeat split; auto. congruence.
Qed.

Lemma enemy_after_deactivate (e : Enemy.t) :
  Enemy.alive e = true -> enemy_after e (Enemy.set_alive false e).
Proof.
  intro A. unfold enemy_after. simpl. repeat split; auto; congruence.
Qed.

Lemma Forall2_refl_on {A : Type} (R : A -> A -> Prop) (l : list A) :
  (forall a, R a a) -> Forall2 R l l.
Proof. intro H. induction l; constructor; auto. Qed.

Lemma Forall2_trans_on {A : Type} (R : A -> A -> Prop) :
  (forall a b c, R a b -> R b c -> R a c) ->
  forall l1 l2 l3, Forall2 R l1 l2 -> Forall2 R l2 l3 -> Forall2 R l1 l3.
Proof.
  intros T l1 l2 l3 H. revert l3.
  induction H as [|a b l1 l2 Rab _ IH]; intros l3 H3; inversion H3; subst;
    constructor; eauto.
Qed.

Lemma hit_first_enemy_after (b : Bullet.t) (es : list Enemy.t) :
  forall es' e', Game.hit_first_enemy b es = Some (es', e') ->
  Forall2 enemy_after es es'.
Proof.
  induction es as [|e rest IH]; intros es' e' H; simpl in H; [discriminate|].
  destruct (Enemy.alive e && colliderect (Bullet.rect b) (Enemy.rect e)) eqn:C.
  - inversion H; subst. apply andb_true_iff in C. destruct C as [A _].
    constructor; [now apply enemy_after_damage|].
    apply Forall2_refl_on, enemy_after_refl.
  - destruct (Game.hit_first_enemy b rest) as [[l h]|] eqn:R; [|discriminate].
    inversion H; subst. constructor; [apply enemy_after_refl|].
    eapply IH; eauto.
Qed.

Lemma collide_bullet_after (pr : Rect) (b : Bullet.t) (g : Game.t) :
  bullet_after b (fst (Game.collide_bullet pr b g))
  /\ Forall2 enemy_after (Game.enemies g)
             (Game.enemies (snd (Game.collide_bullet pr b g))).
Proof.
  unfold Game.collide_bullet.
  destruct (Bullet.alive b) eqn:A; simpl negb; cbv iota;
    [|split; [apply bullet_after_refl|apply Forall2_refl_on, enemy_after_refl]].
  destruct (Bullet.is_player b).
  - destruct (Game.hit_first_enemy b (Game.enemies g)) as [[es' e']|] eqn:Hf;
      [|split; [apply bullet_after_refl|apply Forall2_refl_on, enemy_after_refl]].
    simpl. split; [right; auto|].
    pose proof (hit_first_enemy_after _ _ _ _ Hf) as F.
    destruct (negb (Enemy.alive e')); [|exact F].
    now rewrite (proj1 (proj2 (proj2 (on_enemy_killed_frame _ _)))).
  - destruct (colliderect _ _); simpl.
    + split; [right; auto|].
      rewrite (proj1 (damage_player_frame _ _)).
      apply Forall2_refl_on, enemy_after_refl.
    + split; [apply bullet_after_refl|apply Forall2_refl_on, enemy_after_refl].
Qed.

Lemma collide_bullets_after (pr : Rect) (bs : list Bullet.t) : forall g,
  Forall2 bullet_after bs (fst (Game.collide_bullets pr bs g))
  /\ Forall2 enemy_after (Game.enemies g)
             (Game.enemies (snd (Game.collide_bullets pr bs g))).
Proof.
  induction bs as [|b rest IH]; intro g; simpl.
  - split; [constructor|apply Forall2_refl_on, enemy_after_refl].
  - destruct (collide_bullet_after pr b g) as [B E].
    destruct (Game.collide_bullet pr b g) as [b' g1]. simpl in *.
    destruct (IH g1) as [B2 E2].
    destruct (Game.collide_bullets pr rest g1) as [rest' g2]. simpl in *.
    split; [now constructor|].
    eapply Forall2_trans_on; [apply enemy_after_trans|exact E|exact E2].
Qed.

Lemma collide_bodies_after (pr : Rect) (es : list Enemy.t) : forall g,
  Forall2 enemy_after es (fst (Game.collide_bodies pr es g)).
Proof.
  induction es as [|e rest IH]; intro g; simpl; [constructor|].
  assert (A : enemy_after e (fst (Game.collide_body pr e g))).
  { unfold Game.collide_body.
    destruct (Enemy.alive e) eqn:Al; simpl; [|apply enemy_after_refl].
    destruct (colliderect _ _); simpl;
      [now apply enemy_after_deactivate|apply enemy_after_refl]. }
  destruct (Game.collide_body pr e g) as [e' g1]. simpl in A.
  specialize (IH g1).
  destruct (Game.collide_bodies pr rest g1) as [rest' g2]. simpl in *.
  now constructor.
Qed.

(** X19. The collision pass neither adds nor removes a bullet or an enemy,
    and revives nothing.  Position by position, a bullet is left as it was
    or, if it was alive, deactivated; an enemy keeps its position, kind,
    size and score value, is left untouched if it was not alive, and is
    alive afterwards only if it was alive before. *)
Theorem collisions_keep_the_lists (g : Game.t) :
  Forall2 bullet_after (Game.bullets g) (Game.bullets (Game._check_collisions g))
  /\ Forall2 enemy_after (Game.enemies g) (Game.enemies (Game._check_collisions g))
  /\ List.length (Game.bullets (Game._check_collisions g))
     = List.length (Game.bullets g)
  /\ List.length (Game.enemies (Game._check_collisions g))
     = List.length (Game.enemies g).
Proof.
  assert (B : Forall2 bullet_after (Game.bullets g)
                (Game.bullets (Game._check_collisions g))
              /\ Forall2 enemy_after (Game.enemies g)
                   (Game.enemies (Game._check_collisions g))).
  { unfold Game._check_collisions.
    set (pr := Player.rect (Game.player g)).
    destruct (powerups_pass_frame pr (Game.bodies_pass pr (Game.bullets_pass pr g)))
      as (PB & PE & _).
    rewrite PB, PE, bodies_pass_bullets, bodies_pass_enemies,
      bullets_pass_bullets.
    destruct (collide_bullets_after pr (Game.bullets g) g) as [Bs Es].
    split; [exact Bs|].
    eapply Forall2_trans_on; [apply enemy_after_trans| |apply collide_bodies_after].
    now rewrite bullets_pass_enemies. }
  destruct B as [Bs Es]. split; [exact Bs|]. split; [exact Es|].
  split; symmetry; eapply Forall2_length; eassumption.
Qed.

Lemma collide_bullet_sides (pr : Rect) (b : Bullet.t) (g : Game.t) :
  (Bullet.alive b = true -> Bullet.is_player b = true ->
   Game.player (snd (Game.collide_bullet pr b g)) = Game.player g)
  /\ (Bullet.alive b = true -> Bullet.is_player b = false ->
      Game.enemies (snd (Game.collide_bullet pr b g)) = Game.enemies g
      /\ Game.score (snd (Game.collide_bullet pr b g)) = Game.score g
      /\ Game.powerups (snd (Game.collide_bullet pr b g)) = Game.powerups g)
  /\ (Bullet.alive b = false -> Game.collide_bullet pr b g = (b, g)).
Proof.
  unfold Game.collide_bullet. split; [|split].
  - intros A P. rewrite A, P. simpl negb. cbv iota.
    destruct (Game.hit_first_enemy b (Game.enemies g)) as [[es' e']|];
      [|reflexivity].
    simpl. destruct (negb (Enemy.alive e')); [|reflexivity].
    now rewrite (proj1 (proj2 (on_enemy_killed_frame _ _))).
  - intros A P. rewrite A, P. simpl negb. cbv iota.
    destruct (colliderect _ _); [|auto]. simpl.
    destruct (damage_player_frame (Bullet.damage b) g) as (E & _ & W & S & _).
    auto.
  - intro A. now rewrite A.
Qed.

(** X20. No friendly fire.  If every alive bullet is a player bullet, the
    bullet loop of the collision pass leaves the player unchanged; if every
    alive bullet is an enemy bullet, it leaves the enemies, the score and
    the power-ups unchanged. *)
Theorem no_friendly_fire (pr : Rect) (g : Game.t) :
  ((forall b, In b (Game.bullets g) -> Bullet.alive b = true ->
      Bullet.is_player b = true) ->
   Game.player (Game.bullets_pass pr g) = Game.player g)
  /\ ((forall b, In b (Game.bullets g) -> Bullet.alive b = true ->
         Bullet.is_player b = false) ->
      Game.enemies (Game.bullets_pass pr g) = Game.enemies g
      /\ Game.score (Game.bullets_pass pr g) = Game.score g
      /\ Game.powerups (Game.bullets_pass pr g) = Game.powerups g).
Proof.
  assert (L1 : forall bs s,
             (forall b, In b bs -> Bullet.alive b = true ->
                Bullet.is_player b = true) ->
             Game.player (snd (Game.collide_bullets pr bs s)) = Game.player s).
  { induction bs as [|b rest IH]; intros s H; simpl; [reflexivity|].
    destruct (collide_bullet_sides pr b s) as (P & _ & D).
    destruct (Bullet.alive b) eqn:A.
    - specialize (P eq_refl (H b (or_introl eq_refl) A)).
      destruct (Game.collide_bullet pr b s) as [b' s1]. simpl in P.
      specialize (IH s1 (fun x I => H x (or_intror I))).
      destruct (Game.collide_bullets pr rest s1). simpl in *. congruence.
    - rewrite (D eq_refl).
      specialize (IH s (fun x I => H x (or_intror I))).
      now destruct (Game.collide_bullets pr rest s). }
  assert (L2 : forall bs s,
             (forall b, In b bs -> Bullet.alive b = true ->
                Bullet.is_player b = false) ->
             Game.enemies (snd (Game.collide_bullets pr bs s)) = Game.enemies s
             /\ Game.score (snd (Game.collide_bullets pr bs s)) = Game.score s
             /\ Game.powerups (snd (Game.collide_bullets pr bs s))
                = Game.powerups s).
  { induction bs as [|b rest IH]; intros s H; simpl; [auto|].
    destruct (collide_bullet_sides pr b s) as (_ & P & D).
    destruct (Bullet.alive b) eqn:A.
    - destruct (P eq_refl (H b (or_introl eq_refl) A)) as (E & S & W).
      destruct (Game.collide_bullet pr b s) as [b' s1]. simpl in *.
      destruct (IH s1 (fun x I => H x (or_intror I))) as (E2 & S2 & W2).
      destruct (Game.collide_bullets pr rest s1). simpl in *.
      repeat split; congruence.
    - rewrite (D eq_refl).
      specialize (IH s (fun x I => H x (or_intror I))).
      now destruct (Game.collide_bullets pr rest s). }
  split; intro H; unfold Game.bullets_pass.
  - specialize (L1 (Game.bullets g) g H).
    now destruct (Game.collide_bullets pr (Game.bullets g) g).
  - specialize (L2 (Game.bullets g) g H).
    now destruct (Game.collide_bullets pr (Game.bullets g) g).
Qed.

Lemma no_friendly_fire_witness :
  (forall b, In b (Game.bullets two_bullets_session) ->
     Bullet.alive b = true -> Bullet.is_player b = true)
  /\ Game.player (Game.bullets_pass (Player.rect (Game.player two_bullets_session))
                    two_bullets_session)
     = Game.player two_bullets_session.
Proof.
  assert (H : forall b, In b (Game.bullets two_bullets_session) ->
                Bullet.alive b = true -> Bullet.is_player b = true).
  { intros b I _. vm_compute in I. destruct I as [<-|[<-|[]]]; reflexivity. }
  split; [exact H|].
  exact (proj1 (no_friendly_fire _ two_bullets_session) H).
Defined.

Lemma take_damage_total (p : Player.t) (D : Z) :
  (Player.invincible p <= 0)%Q ->
  0 <= Player.hp p -> 0 <= Player.shield_hp p -> 0 <= D ->
  Player.hp (Player.take_damage D p) + Player.shield_hp (Player.take_damage D p)
  = Z.max 0 (Player.hp p + Player.shield_hp p - D).
Proof.
  intros I H S HD. rewrite take_damage_vulnerable by assumption. cbv zeta.
  destruct (0 <? Player.shield_hp p) eqn:E1;
    [apply Z.ltb_lt in E1 | apply Z.ltb_ge in E1];
    destruct (0 <? _) eqn:E2;
    [apply Z.ltb_lt in E2 | apply Z.ltb_ge in E2
    |apply Z.ltb_lt in E2 | apply Z.ltb_ge in E2];
    unfold Player.land_damage; simpl;
    try (destruct (_ <=? 0) eqn:E3;
         [apply Z.leb_le in E3 | apply Z.leb_gt in E3]);
    simpl in *; lia.
Qed.

Lemma damage_player_lands (a : Z) (g : Game.t) :
  (Player.invincible (Game.player g) <= 0)%Q ->
  0 < Player.hp (Game.player g) -> 0 <= Player.shield_hp (Game.player g) ->
  0 < a ->
  Game.damage_player a g
  = Game._break_combo
      (Game.set_player (Player.take_damage a (Game.player g)) g).
Proof.
  intros I H S A. unfold Game.damage_player. simpl Game.player.
  rewrite take_damage_total by (assumption || lia).
  replace (Z.max 0 _ <? _) with true; [reflexivity|].
  symmetry. apply Z.ltb_lt. lia.
Qed.

(** X21. Contact with a vulnerable player.  When an alive enemy, or an
    alive enemy bullet, overlaps a player that is not invincible and has
    health left, the player takes the damage (25 for a body, the bullet's
    damage for a bullet): health and shield together drop by that amount,
    stopping at zero.  The combo is reset to chain 0, timer 0 and
    multiplier 1, the enemy or bullet is deactivated (its alive flag is
    false afterwards), and the score is left as it was: a body contact is
    no kill. *)
Theorem contact_with_vulnerable_player
    (pr : Rect) (e : Enemy.t) (b : Bullet.t) (g : Game.t) :
  (Player.invincible (Game.player g) <= 0)%Q ->
  0 < Player.hp (Game.player g) -> 0 <= Player.shield_hp (Game.player g) ->
  (Enemy.alive e = true -> colliderect (Enemy.rect e) pr = true ->
   fst (Game.collide_body pr e g) = Enemy.set_alive false e
   /\ Enemy.alive (fst (Game.collide_body pr e g)) = false
   /\ Game.player (snd (Game.collide_body pr e g))
      = Player.take_damage 25 (Game.player g)
   /\ Player.hp (Game.player (snd (Game.collide_body pr e g)))
      + Player.shield_hp (Game.player (snd (Game.collide_body pr e g)))
      = Z.max 0 (Player.hp (Game.player g) + Player.shield_hp (Game.player g) - 25)
   /\ Game.combo_chain (snd (Game.collide_body pr e g)) = 0
   /\ Game.combo_timer (snd (Game.collide_body pr e g)) = 0%Q
   /\ Game.multiplier (snd (Game.collide_body pr e g)) = 1
   /\ Game.score (snd (Game.collide_body pr e g)) = Game.score g)
  /\ (Bullet.alive b = true -> Bullet.is_player b = false ->
      0 < Bullet.damage b -> colliderect (Bullet.rect b) pr = true ->
      fst (Game.collide_bullet pr b g) = Bullet.set_alive false b
      /\ Bullet.alive (fst (Game.collide_bullet pr b g)) = false
      /\ Game.player (snd (Game.collide_bullet pr b g))
         = Player.take_damage (Bullet.damage b) (Game.player g)
      /\ Player.hp (Game.player (snd (Game.collide_bullet pr b g)))
         + Player.shield_hp (Game.player (snd (Game.collide_bullet pr b g)))
         = Z.max 0 (Player.hp (Game.player g) + Player.shield_hp (Game.player g)
                    - Bullet.damage b)
      /\ Game.combo_chain (snd (Game.collide_bullet pr b g)) = 0
      /\ Game.combo_timer (snd (Game.collide_bullet pr b g)) = 0%Q
      /\ Game.multiplier (snd (Game.collide_bullet pr b g)) = 1
      /\ Game.score (snd (Game.collide_bullet pr b g)) = Game.score g).
Proof.
  intros I H S. split.
  - intros A C. unfold Game.collide_body. rewrite A, C. simpl andb. cbv iota.
    rewrite damage_player_lands by (assumption || lia).
    pose proof (take_damage_total (Game.player g) 25 I ltac:(lia) S ltac:(lia))
      as T.
    simpl. auto 12.
  - intros A P D C. unfold Game.collide_bullet.
    rewrite A, P, C. simpl negb. cbv iota.
    rewrite damage_player_lands by assumption.
    pose proof (take_damage_total (Game.player g) (Bullet.damage b) I
                  ltac:(lia) S ltac:(lia)) as T.
    simpl. auto 12.
Qed.

(** Scenario B of the spec: health 100, no shield, contact with a Scout. *)
Lemma contact_with_vulnerable_player_witness :
  (Player.invincible (Game.player playing0) <= 0)%Q
  /\ 0 < Player.hp (Game.player playing0)
  /\ Player.hp (Game.player
                  (snd (Game.collide_body (Player.rect (Game.player playing0))
                          (scout_at 240 620) playing0)))
     = 75.
Proof.
  split; [vm_compute; discriminate|]. split; [vm_compute; reflexivity|].
  rewrite (proj1 (proj2 (proj2 (proj1 (contact_with_vulnerable_player
             (Player.rect (Game.player playing0)) (scout_at 240 620)
             (Bullet.init 0 0 0 0 false) playing0
             ltac:(vm_compute; discriminate) ltac:(vm_compute; reflexivity)
             ltac:(vm_compute; discriminate))
           ltac:(vm_compute; reflexivity) ltac:(vm_compute; reflexivity))))).
  vm_compute. reflexivity.
Defined.

(** ** The loop and its events *)

Lemma init_session_fields (g : Game.t) :
  Game.state (Game._init_session g) = Game.state g
  /\ Game.high_score (Game._init_session g) = Game.high_score g
  /\ Game.tick (Game._init_session g) = Game.tick g
  /\ Game.calls (Game._init_session g) = Game.calls g
  /\ Game.player (Game._init_session g) = Player.init
  /\ Game.enemies (Game._init_session g) = []
  /\ Game.bullets (Game._init_session g) = []
  /\ Game.powerups (Game._init_session g) = []
  /\ Game.spawner (Game._init_session g) = EnemySpawner.init
  /\ Game.score (Game._init_session g) = 0
  /\ Game.new_record (Game._init_session g) = false
  /\ Game.combo_chain (Game._init_session g) = 0
  /\ Game.combo_timer (Game._init_session g) = 0%Q
  /\ Game.multiplier (Game._init_session g) = 1
  /\ List.length (Game.stars (Game._init_session g)) = 120%nat.
Proof.
  unfold Game._init_session.
  assert (L : forall n spd r, List.length (fst (StarField.layer n spd r)) = n).
  { induction n as [|n IH]; intros spd r; simpl; [reflexivity|].
    unfold random_uniform, random_random. simpl.
    specialize (IH spd (mkRng (draws r) (S (S (S (cursor r)))))).
    destruct (StarField.layer n spd _). simpl in *. now rewrite IH. }
  assert (S : List.length (fst (StarField.init (Game.rng g))) = 120%nat).
  { unfold StarField.init.
    pose proof (L 40%nat 1 (Game.rng g)) as L1.
    destruct (StarField.layer 40 1 (Game.rng g)) as [l1 r1].
    pose proof (L 40%nat 2 r1) as L2.
    destruct (StarField.layer 40 2 r1) as [l2 r2].
    pose proof (L 40%nat 3 r2) as L3.
    destruct (StarField.layer 40 3 r2) as [l3 r3].
    simpl in *. rewrite !length_app, L1, L2, L3. reflexivity. }
  destruct (StarField.init (Game.rng g)) as [st r]. simpl in *.
  repeat split; auto.
Qed.

Lemma start_game_fields (g : Game.t) :
  Game.state (Game._start_game g) = PLAYING
  /\ Game.high_score (Game._start_game g) = Game.high_score g
  /\ Game.tick (Game._start_game g) = Game.tick g
  /\ Game.player (Game._start_game g) = Player.init
  /\ Game.enemies (Game._start_game g) = []
  /\ Game.bullets (Game._start_game g) = []
  /\ Game.powerups (Game._start_game g) = []
  /\ Game.score (Game._start_game g) = 0
  /\ Game.combo_chain (Game._start_game g) = 0
  /\ Game.multiplier (Game._start_game g) = 1
  /\ Game.stars (Game._start_game g) = Game.stars (Game._init_session g).
Proof.
  unfold Game._start_game, Game._init_session.
  destruct (StarField.init (Game.rng g)) as [st r]. simpl. auto 20.
Qed.

Lemma handle_event_steady (ev : Event) (g g' : Game.t) :
  Game.handle_event ev g = Some g' ->
  Game.tick g' = Game.tick g /\ Game.high_score g' = Game.high_score g.
Proof.
  pose proof (start_game_fields g) as F.
  remember (Game._start_game g) as sg eqn:Esg.
  destruct F as (_ & Hh & Ht & _).
  unfold Game.handle_event. intro E. rewrite <- Esg in E.
  destruct ev as [|[]|]; destruct (Game.state g);
    try discriminate; injection E as <-;
    first [split; [exact Ht|exact Hh] | split; reflexivity].
Qed.

Lemma handle_events_steady (evs : list Event) : forall g g',
  Game._handle_events evs g = Some g' ->
  Game.tick g' = Game.tick g /\ Game.high_score g' = Game.high_score g.
Proof.
  induction evs as [|ev rest IH]; intros g g' E; simpl in E.
  - inversion E; auto.
  - destruct (Game.handle_event ev g) as [g1|] eqn:E1; [|discriminate].
    destruct (handle_event_steady _ _ _ E1) as [T1 H1].
    destruct (IH _ _ E) as [T2 H2]. split; congruence.
Qed.

Lemma update_steady `{MathLib} (dt : Q) (keys : Keys) (g : Game.t) :
  Game.tick (Game._update dt keys g) = Game.tick g
  /\ Game.high_score g <= Game.high_score (Game._update dt keys g).
Proof.
  destruct (update_shape dt keys g) as (g1 & E & P1).
  pose proof (proceeds_trans _ _ _ P1
                (proceeds_trans _ _ _ (proceeds_check_collisions g1)
                   (proceeds_prune _))) as P.
  destruct P as (_ & Hi & T & _).
  destruct (finish_fields (prune (Game._check_collisions g1)))
    as (FT & _ & _ & _ & _ & _ & _ & _ & FH).
  rewrite E. split; [congruence|]. now rewrite <- Hi.
Qed.

(** X22. Every iteration of the loop that does not exit advances the
    animation clock by exactly the capped frame time and never lowers the
    high score, whatever the state, the events and the keys.  In the menu
    and on the game-over screen, without events, it scrolls the stars and
    leaves state, player, entities, score and combo as they were; on the
    game-over screen it also updates the particles, which is the one call
    added to the trace, and in the menu it calls no collaborator. *)
Theorem iteration_advances_clock `{MathLib}
    (ms : Z) (evs : list Event) (keys : Keys) (g g' : Game.t) :
  (Game.run_iteration ms evs keys g = Some g' ->
   Game.tick g' = (Game.tick g + Game.frame_dt ms)%Q
   /\ Game.high_score g <= Game.high_score g')
  /\ (Game.state g = MENU \/ Game.state g = GAME_OVER ->
      Game.run_iteration ms [] keys g = Some g' ->
      Game.state g' = Game.state g
      /\ Game.player g' = Game.player g
      /\ Game.enemies g' = Game.enemies g
      /\ Game.bullets g' = Game.bullets g
      /\ Game.powerups g' = Game.powerups g
      /\ Game.score g' = Game.score g
      /\ Game.combo_chain g' = Game.combo_chain g
      /\ Game.stars g'
         = fst (StarField.update (Game.frame_dt ms) (Game.stars g) (Game.rng g))
      /\ Game.rng g'
         = snd (StarField.update (Game.frame_dt ms) (Game.stars g) (Game.rng g))
      /\ (Game.state g = MENU -> Game.calls g' = Game.calls g)
      /\ (Game.state g = GAME_OVER ->
          Game.calls g'
          = Game.calls g ++ [particles_update (Game.frame_dt ms)])).
Proof.
  split.
  - unfold Game.run_iteration.
    destruct (Game._handle_events evs _) as [g2|] eqn:E; [|discriminate].
    destruct (handle_events_steady _ _ _ E) as [T Hs]. simpl in T, Hs.
    intro R. inversion R as [R']. clear R.
    destruct (Game.state g2).
    + destruct (StarField.update _ _ _) as [st r]. simpl.
      split; [exact T|lia].
    + destruct (update_steady (Game.frame_dt ms) keys g2) as [UT UH].
      split; [congruence|lia].
    + destruct (StarField.update _ _ _) as [st r]. simpl.
      split; [exact T|lia].
    + split; [exact T|lia].
  - intros S R. unfold Game.run_iteration in R. simpl in R.
    destruct S as [S|S]; rewrite S in R;
      destruct (StarField.update _ _ _) as [st r]; inversion R; subst; simpl;
      repeat split; auto; intro S'; rewrite S in S'; discriminate.
Qed.

Lemma iteration_advances_clock_witness :
  exists g',
    @Game.run_iteration math_approx 16 [KEYDOWN KEY_SPACE] no_keys game0 = Some g'
    /\ Game.tick g' = (Game.tick game0 + Game.frame_dt 16)%Q.
Proof.
  destruct (@Game.run_iteration math_approx 16 [KEYDOWN KEY_SPACE] no_keys game0)
    as [g'|] eqn:R.
  - exists g'. split; [reflexivity|].
    exact (proj1 (proj1 (@iteration_advances_clock math_approx 16
                           [KEYDOWN KEY_SPACE] no_keys game0 g') R)).
  - exfalso. vm_compute in R. discriminate.
Defined.

Lemma handle_events_quit (evs : list Event) : forall g,
  In QUIT evs -> Game._handle_events evs g = None.
Proof.
  induction evs as [|ev rest IH]; intros g I; [destruct I|].
  simpl. destruct I as [->|I]; [reflexivity|].
  destruct (Game.handle_event ev g); [now apply IH|reflexivity].
Qed.

(** X23. The events.  A QUIT event anywhere in the queue exits.  ESCAPE
    exits while Playing and is ignored in every other state.  SPACE starts
    a fresh session from the menu or the game-over screen and is ignored
    while Playing or Paused, so pressing it twice starts one session, not
    two.  The pause key toggles between Playing and Paused, so two presses
    in one frame cancel out, and it is ignored in the menu and on the
    game-over screen.  A fresh session is Playing with score 0, a new
    player, no entities and 120 stars, and keeps the high score. *)
Theorem events_state_machine (g : Game.t) :
  (forall evs, In QUIT evs -> Game._handle_events evs g = None)
  /\ (Game._handle_events [KEYDOWN KEY_ESCAPE] g = None <-> Game.state g = PLAYING)
  /\ (Game.state g <> PLAYING ->
      Game._handle_events [KEYDOWN KEY_ESCAPE] g = Some g)
  /\ (in_play (Game.state g) ->
      Game._handle_events [KEYDOWN KEY_SPACE] g = Some g)
  /\ (Game.state g = MENU \/ Game.state g = GAME_OVER ->
      Game._handle_events [KEYDOWN KEY_SPACE] g = Some (Game._start_game g))
  /\ Game._handle_events [KEYDOWN KEY_SPACE; KEYDOWN KEY_SPACE] g
     = Game._handle_events [KEYDOWN KEY_SPACE] g
  /\ (in_play (Game.state g) ->
      Game._handle_events [KEYDOWN KEY_p; KEYDOWN KEY_p] g = Some g)
  /\ (Game.state g = MENU \/ Game.state g = GAME_OVER ->
      Game._handle_events [KEYDOWN KEY_p] g = Some g)
  /\ (Game.state (Game._start_game g) = PLAYING
      /\ Game.score (Game._start_game g) = 0
      /\ Game.high_score (Game._start_game g) = Game.high_score g
      /\ Game.player (Game._start_game g) = Player.init
      /\ Game.enemies (Game._start_game g) = []
      /\ Game.bullets (Game._start_game g) = []
      /\ Game.powerups (Game._start_game g) = []
      /\ Game.combo_chain (Game._start_game g) = 0
      /\ Game.multiplier (Game._start_game g) = 1
      /\ List.length (Game.stars (Game._start_game g)) = 120%nat).
Proof.
  pose proof (init_session_fields g) as I.
  pose proof (start_game_fields g) as F.
  remember (Game._init_session g) as ig eqn:Eig.
  remember (Game._start_game g) as sg eqn:Esg.
  destruct I as (_ & _ & _ & _ & _ & _ & _ & _ & _ & _ & _ & _ & _ & _ & Ist).
  destruct F as (St & Sh & _ & Sp & Se & Sb & Sw & Ssc & Sc & Sm & Sst).
  split; [intros evs I; now apply handle_events_quit|].
  unfold Game._handle_events, Game.handle_event. rewrite <- Esg.
  split; [destruct (Game.state g); split; congruence|].
  split; [intro N; destruct (Game.state g); congruence|].
  split; [intros [S|S]; now rewrite S|].
  split; [intros [S|S]; now rewrite S|].
  split; [destruct (Game.state g) eqn:S; try rewrite St; try rewrite S;
          reflexivity|].
  split.
  { intros [S|S]; rewrite S; cbn [Game.state Game.set_state]; rewrite <- S;
      now destruct g. }
  split; [intros [S|S]; now rewrite S|].
  rewrite Sst. repeat split; assumption.
Qed.

Lemma events_state_machine_witness :
  in_play (Game.state paused0)
  /\ Game._handle_events [KEYDOWN KEY_p; KEYDOWN KEY_p] paused0 = Some paused0
  /\ Game._handle_events [KEYDOWN KEY_ESCAPE] paused0 = Some paused0.
Proof.
  assert (P : in_play (Game.state paused0)) by (right; vm_compute; reflexivity).
  destruct (events_state_machine paused0) as (_ & _ & E & _ & _ & _ & PP & _).
  split; [exact P|]. split; [exact (PP P)|].
  apply E. vm_compute. discriminate.
Defined.

(** ** The spawner's choices *)

Lemma difficulty_range (s : Z) :
  0 <= s -> (0 <= EnemySpawner.difficulty s <= 1)%Q.
Proof.
  intro H. unfold EnemySpawner.difficulty.
  assert (0 <= inject_Z s / 5000)%Q.
  { apply Qle_shift_div_l; [reflexivity|].
    rewrite Qmult_0_l. change 0%Q with (inject_Z 0). now rewrite <- Zle_Qle. }
  destruct (Q.min_spec (inject_Z s / 5000) 1) as [[L E]|[L E]]; rewrite E; lra.
Qed.

Lemma pick_enemy_type_cases (d : Q) (r : Rng) :
  let u := draws r (cursor r) in
  let k := fst (EnemySpawner._pick_enemy_type d r) in
  (k = TANK /\ u < d * (1 # 5))%Q
  \/ (k = HUNTER /\ d * (1 # 5) <= u /\ u < d * (1 # 5) + ((3 # 20) + d * (7 # 20)))%Q
  \/ (k = SCOUT /\ d * (1 # 5) <= u /\ d * (1 # 5) + ((3 # 20) + d * (7 # 20)) <= u)%Q.
Proof.
  unfold EnemySpawner._pick_enemy_type, random_random. cbn [fst].
  destruct (Qlt_bool _ (d * (1 # 5))) eqn:E1.
  - left. apply Qlt_bool_iff in E1. auto.
  - apply Qlt_bool_false_iff in E1.
    destruct (Qlt_bool _ _) eqn:E2.
    + right; left. apply Qlt_bool_iff in E2. auto.
    + right; right. apply Qlt_bool_false_iff in E2. auto.
Qed.

(** X24. Which kind the spawner picks.  For a score that is not negative
    the difficulty lies in [0, 1], and with the draw [u] of
    [random.random()] the pick is a Tank exactly when [u < 0.2 d], a Hunter
    exactly when [0.2 d <= u < 0.15 + 0.55 d] and a Scout otherwise.  So a
    draw of 0.7 or more is a Scout at every score, no Tank is picked at score
    0, and with the same draw a higher score never picks a weaker kind.  One
    draw is used. *)
Theorem pick_enemy_type_thresholds (s : Z) (r : Rng) :
  0 <= s ->
  let d := EnemySpawner.difficulty s in
  let u := draws r (cursor r) in
  let k := fst (EnemySpawner._pick_enemy_type d r) in
  (0 <= d <= 1)%Q
  /\ (k = TANK <-> (u < d * (1 # 5))%Q)
  /\ (k = HUNTER <-> (d * (1 # 5) <= u /\ u < (3 # 20) + d * (11 # 20))%Q)
  /\ (k = SCOUT <-> ((3 # 20) + d * (11 # 20) <= u)%Q)
  /\ ((7 # 10 <= u)%Q -> k = SCOUT)
  /\ (s = 0 -> (0 <= u)%Q -> k <> TANK)
  /\ (forall s2, s <= s2 ->
        kind_rank k
        <= kind_rank (fst (EnemySpawner._pick_enemy_type
                             (EnemySpawner.difficulty s2) r)))
  /\ snd (EnemySpawner._pick_enemy_type d r) = mkRng (draws r) (S (cursor r)).
Proof.
  intros Hs d u k.
  pose proof (difficulty_range s Hs) as D. fold d in D.
  pose proof (pick_enemy_type_cases d r) as C. cbv zeta in C. fold u k in C.
  split; [exact D|].
  split.
  { split; intro H.
    - destruct C as [[_ C]|[[K _]|[K _]]]; [exact C|congruence|congruence].
    - destruct C as [[K _]|[[_ [C _]]|[_ [C _]]]]; [exact K|lra|lra]. }
  split.
  { split; intro H.
    - destruct C as [[K _]|[[_ [C1 C2]]|[K _]]]; [congruence| |congruence].
      split; lra.
    - destruct C as [[_ C]|[[K _]|[_ [_ C]]]]; [lra|exact K|lra]. }
  split.
  { split; intro H.
    - destruct C as [[K _]|[[K _]|[_ [_ C]]]]; [congruence|congruence|lra].
    - destruct C as [[_ C]|[[_ [_ C]]|[K _]]]; [lra|lra|exact K]. }
  split.
  { intro H. destruct C as [[_ C]|[[_ [_ C]]|[K _]]]; [lra|lra|exact K]. }
  split.
  { intros Z0 U K. destruct C as [[_ C]|[[K' _]|[K' _]]]; [|congruence|congruence].
    assert (D0 : (d == 0)%Q) by (subst d s; vm_compute; reflexivity).
    lra. }
  split.
  { intros s2 H2.
    pose proof (difficulty_mono s s2 H2) as M. fold d in M.
    pose proof (pick_enemy_type_cases (EnemySpawner.difficulty s2) r) as C2.
    cbv zeta in C2. fold u in C2.
    destruct C as [[-> C]|[[-> [Ca Cb]]|[-> [Ca Cb]]]];
      destruct C2 as [[-> C2]|[[-> [C2a C2b]]|[-> [C2a C2b]]]];
      cbn [kind_rank]; try lia; exfalso; lra. }
  reflexivity.
Qed.

Lemma pick_enemy_type_thresholds_witness :
  0 <= 5000
  /\ fst (EnemySpawner._pick_enemy_type (EnemySpawner.difficulty 5000) rng_half)
     = HUNTER.
Proof.
  split; [lia|].
  apply (proj1 (proj2 (proj2 (pick_enemy_type_thresholds 5000 rng_half
                                ltac:(lia))))).
  vm_compute. split; [discriminate|reflexivity].
Defined.

Lemma current_cd_at_least (s : Z) : (3 # 5 <= EnemySpawner.current_cd s)%Q.
Proof.
  unfold EnemySpawner.current_cd, lerp, ENEMY_SPAWN_CD.
  pose proof (Q.le_min_r (inject_Z s / 5000) 1) as M.
  fold (EnemySpawner.difficulty s) in M. lra.
Qed.

Lemma spawner_quiet (steps : list (Q * Z)) : forall (sp : EnemySpawner.t) (r : Rng),
  Forall (fun p => (0 <= fst p)%Q) steps ->
  (EnemySpawner.timer sp + Qsum (map fst steps) < 3 # 5)%Q ->
  Forall (fun k => k = None) (fst (fst (spawner_updates steps sp r)))
  /\ (EnemySpawner.timer (snd (fst (spawner_updates steps sp r)))
      == EnemySpawner.timer sp + Qsum (map fst steps))%Q
  /\ snd (spawner_updates steps sp r) = r.
Proof.
  induction steps as [|[dt s] rest IH]; intros sp r F L.
  - simpl. split; [constructor|]. split; [lra|reflexivity].
  - inversion F as [|? ? F1 F2]; subst. simpl in F1, L.
    pose proof (Qsum_nonneg (map fst rest)) as N.
    assert (N' : (0 <= Qsum (map fst rest))%Q).
    { apply N. clear -F2. induction F2; simpl; constructor; auto. }
    pose proof (current_cd_at_least s) as C.
    cbn [spawner_updates]. unfold EnemySpawner.update.
    destruct (Qle_bool _ _) eqn:E.
    { apply Qle_bool_iff in E. exfalso. lra. }
    specialize (IH (EnemySpawner.mk (EnemySpawner.spawn_cd sp)
                      (EnemySpawner.timer sp + dt) (EnemySpawner.wave_of s)) r F2).
    cbn [EnemySpawner.timer] in IH.
    destruct (spawner_updates rest _ r) as [[ks sp2] r2].
    cbn [fst snd map Qsum fold_right] in *.
    destruct IH as (I1 & I2 & I3); [lra|].
    split; [constructor; auto|]. split; [|exact I3].
    rewrite I2. unfold Qsum. lra.
Qed.

(** X25. Spawns are spaced.  A call of [EnemySpawner.update] that spawns
    resets the timer to 0 and discards the time beyond the interval; the
    calls after it spawn nothing and draw no random number as long as their
    time steps, none negative, add up to less than 0.6 s, whatever the
    scores, and the timer then holds their sum.  A call that does not spawn
    adds its time step to the timer. *)
Theorem spawns_are_spaced (dt : Q) (s : Z) (sp : EnemySpawner.t) (r : Rng)
    (steps : list (Q * Z)) :
  let '(k, sp1, r1) := EnemySpawner.update dt s sp r in
  (k = None -> EnemySpawner.timer sp1 = (EnemySpawner.timer sp + dt)%Q /\ r1 = r)
  /\ (k <> None ->
      Forall (fun p => (0 <= fst p)%Q) steps ->
      (Qsum (map fst steps) < 3 # 5)%Q ->
      EnemySpawner.timer sp1 = 0%Q
      /\ Forall (fun k' => k' = None) (fst (fst (spawner_updates steps sp1 r1)))
      /\ (EnemySpawner.timer (snd (fst (spawner_updates steps sp1 r1)))
          == Qsum (map fst steps))%Q
      /\ snd (spawner_updates steps sp1 r1) = r1).
Proof.
  unfold EnemySpawner.update.
  destruct (Qle_bool _ _).
  - destruct (EnemySpawner._pick_enemy_type _ r) as [k r1].
    split; [discriminate|]. intros _ F L.
    split; [reflexivity|].
    destruct (spawner_quiet steps
                (EnemySpawner.mk (EnemySpawner.spawn_cd sp) 0
                   (EnemySpawner.wave_of s)) r1 F) as (A & B & C).
    { cbn [EnemySpawner.timer]. lra. }
    split; [exact A|]. split; [|exact C].
    rewrite B. cbn [EnemySpawner.timer]. lra.
  - split; [intros _; split; reflexivity|]. intro K. now contradiction K.
Qed.

Lemma spawns_are_spaced_witness :
  fst (fst (EnemySpawner.update (1 # 20) 0 (EnemySpawner.mk (9 # 5) (9 # 5) 1)
              rng_half)) <> None
  /\ Forall (fun k' => k' = None)
       (fst (fst (spawner_updates (repeat (1 # 20, 0) 11)
                    (snd (fst (EnemySpawner.update (1 # 20) 0
                                 (EnemySpawner.mk (9 # 5) (9 # 5) 1) rng_half)))
                    (snd (EnemySpawner.update (1 # 20) 0
                            (EnemySpawner.mk (9 # 5) (9 # 5) 1) rng_half))))).
Proof.
  pose proof (spawns_are_spaced (1 # 20) 0 (EnemySpawner.mk (9 # 5) (9 # 5) 1)
                rng_half (repeat (1 # 20, 0) 11)) as T.
  destruct (EnemySpawner.update (1 # 20) 0 (EnemySpawner.mk (9 # 5) (9 # 5) 1)
              rng_half) as [[k sp1] r1] eqn:U.
  assert (K : k <> None).
  { vm_compute in U. injection U as <- _ _. discriminate. }
  split; [exact K|].
  cbn [fst snd].
  refine (proj1 (proj2 (proj2 T K _ _))).
  - repeat constructor; discriminate.
  - vm_compute. reflexivity.
Defined.

(** ** The star field *)

(** X26. The star field scrolls in place.  [StarField.update] keeps the
    number of stars, their order, speeds and sizes; a star whose new [y]
    would pass [BASE_H] restarts at [y = 0] with a freshly drawn [x], every
    other star keeps its [x] and moves down by [speed * 60 * dt]; no star
    ends below [BASE_H]; one random number is drawn per wrapped star.  With
    a time step that is not negative no star ends above the top, and with
    draws in [0, 1] every star keeps its [x] on the screen. *)
Theorem starfield_update_in_place (dt : Q) (stars : StarField.t) (r : Rng) :
  List.length (fst (StarField.update dt stars r)) = List.length stars
  /\ Forall2 (fun s s' =>
                star_speed s' = star_speed s /\ star_size s' = star_size s
                /\ (star_wraps dt s = false ->
                    star_x s' = star_x s
                    /\ star_y s' = (star_y s + star_speed s * 60 * dt)%Q)
                /\ (star_wraps dt s = true -> star_y s' = 0%Q))
       stars (fst (StarField.update dt stars r))
  /\ Forall (fun s' => (star_y s' <= inject_Z BASE_H)%Q)
       (fst (StarField.update dt stars r))
  /\ draws (snd (StarField.update dt stars r)) = draws r
  /\ cursor (snd (StarField.update dt stars r))
     = (cursor r + List.length (filter (star_wraps dt) stars))%nat
  /\ ((0 <= dt)%Q ->
      Forall (fun s => (0 <= star_speed s)%Q /\ (0 <= star_y s)%Q) stars ->
      Forall (fun s' => (0 <= star_y s')%Q) (fst (StarField.update dt stars r)))
  /\ (unit_draws r ->
      Forall (fun s => (0 <= star_x s <= inject_Z BASE_W)%Q) stars ->
      Forall (fun s' => (0 <= star_x s' <= inject_Z BASE_W)%Q)
        (fst (StarField.update dt stars r))).
Proof.
  revert r. induction stars as [|s rest IH]; intro r.
  - simpl. repeat split; try constructor. lia.
  - cbn [StarField.update filter]. fold (star_wraps dt s).
    destruct (star_wraps dt s) eqn:W.
    + unfold random_uniform, random_random.
      specialize (IH (mkRng (draws r) (S (cursor r)))).
      destruct (StarField.update dt rest _) as [rest' r2].
      cbn [fst snd List.length draws cursor] in *.
      destruct IH as (L & F2 & FY & D & C & NY & NX).
      split; [now rewrite L|].
      split; [constructor; [|exact F2]; cbn; repeat split; congruence|].
      split; [constructor; [cbn; discriminate|exact FY]|].
      split; [exact D|]. split; [rewrite C; lia|].
      split.
      * intros Hd F. inversion F; subst.
        constructor; [cbn; lra|auto].
      * intros U F. inversion F; subst.
        constructor.
        -- cbn [star_x]. pose proof (U (cursor r)) as Ur.
           unfold BASE_W. change (inject_Z 480) with 480%Q. nra.
        -- apply NX; [|assumption]. exact U.
    + specialize (IH r).
      destruct (StarField.update dt rest r) as [rest' r2].
      cbn [fst snd List.length] in *.
      destruct IH as (L & F2 & FY & D & C & NY & NX).
      split; [now rewrite L|].
      split; [constructor; [|exact F2]; cbn; repeat split; congruence|].
      split.
      { constructor; [|exact FY]. cbn [star_y].
        apply Qlt_bool_false_iff in W. exact W. }
      split; [exact D|]. split; [exact C|].
      split.
      * intros Hd F. inversion F as [|? ? [S1 S2] F']; subst.
        constructor; [cbn [star_y]; nra|auto].
      * intros U F. inversion F; subst.
        constructor; [cbn [star_x]; assumption|auto].
Qed.


Lemma starfield_update_in_place_witness :
  (0 <= 1 # 20)%Q
  /\ Forall (fun s => (0 <= star_speed s)%Q /\ (0 <= star_y s)%Q)
       [mkStar 10 719 3 2; mkStar 20 100 1 1]
  /\ Forall (fun s' => (0 <= star_y s')%Q)
       (fst (StarField.update (1 # 20) [mkStar 10 719 3 2; mkStar 20 100 1 1]
               rng_half)).
Proof.
  assert (D : (0 <= 1 # 20)%Q) by discriminate.
  assert (F : Forall (fun s => (0 <= star_speed s)%Q /\ (0 <= star_y s)%Q)
                [mkStar 10 719 3 2; mkStar 20 100 1 1])
    by (repeat constructor; discriminate).
  split; [exact D|]. split; [exact F|].
  exact (proj1 (proj2 (proj2 (proj2 (proj2 (proj2
           (starfield_update_in_place (1 # 20)
              [mkStar 10 719 3 2; mkStar 20 100 1 1] rng_half)))))) D F).
Defined.

Lemma layer_spec (n : nat) (spd : Z) : forall (r : Rng),
  List.length (fst (StarField.layer n spd r)) = n
  /\ snd (StarField.layer n spd r) = mkRng (draws r) (cursor r + 3 * n)
  /\ (1 <= spd -> unit_draws r ->
      Forall (star_of_layer spd) (fst (StarField.layer n spd r))).
Proof.
  induction n as [|n IH]; intro r.
  - simpl. split; [reflexivity|]. split; [|constructor].
    rewrite Nat.add_0_r. now destruct r.
  - cbn [StarField.layer]. unfold random_uniform, random_random.
    specialize (IH (mkRng (draws r) (S (S (S (cursor r)))))).
    destruct (StarField.layer n spd _) as [rest r4].
    cbn [fst snd List.length draws cursor] in *.
    destruct IH as (L & R & F).
    split; [now rewrite L|].
    split; [rewrite R; f_equal; lia|].
    intros Hs U. constructor; [|apply F; [exact Hs|exact U]].
    pose proof (U (cursor r)) as U0.
    pose proof (U (S (cursor r))) as U1.
    pose proof (U (S (S (cursor r)))) as U2.
    assert (Q1 : (1 <= inject_Z spd)%Q).
    { change 1%Q with (inject_Z 1). now rewrite <- Zle_Qle. }
    unfold star_of_layer, BASE_W, BASE_H.
    cbn [star_x star_y star_speed star_size].
    change (inject_Z 480) with 480%Q. change (inject_Z 720) with 720%Q.
    split; [nra|]. split; [nra|]. split; [nra|].
    destruct (spd =? 1) eqn:E1; [apply Z.eqb_eq in E1; subst; reflexivity|].
    destruct (spd =? 2) eqn:E2; [apply Z.eqb_eq in E2; subst; reflexivity|].
    apply Z.eqb_neq in E1, E2.
    destruct (spd <=? 2) eqn:E3; [apply Z.leb_le in E3; lia|reflexivity].
Qed.

(** X27. The star field as built.  [StarField.__init__] makes three layers
    of 40 stars, 120 in all, from 360 random numbers.  With draws in [0, 1]
    every star starts on the screen; the stars of the layers have speeds
    within 20 % of 1, 2 and 3 and sizes 1, 1 and 2. *)
Theorem starfield_init_layers (r : Rng) :
  exists l1 l2 l3 : list Star,
    fst (StarField.init r) = l1 ++ l2 ++ l3
    /\ List.length l1 = 40%nat /\ List.length l2 = 40%nat
    /\ List.length l3 = 40%nat
    /\ List.length (fst (StarField.init r)) = 120%nat
    /\ snd (StarField.init r) = mkRng (draws r) (cursor r + 360)
    /\ (unit_draws r ->
        Forall (star_of_layer 1) l1 /\ Forall (star_of_layer 2) l2
        /\ Forall (star_of_layer 3) l3).
Proof.
  unfold StarField.init.
  destruct (layer_spec 40 1 r) as (L1 & R1 & F1).
  destruct (StarField.layer 40 1 r) as [l1 r1].
  destruct (layer_spec 40 2 r1) as (L2 & R2 & F2).
  destruct (StarField.layer 40 2 r1) as [l2 r2].
  destruct (layer_spec 40 3 r2) as (L3 & R3 & F3).
  destruct (StarField.layer 40 3 r2) as [l3 r3].
  cbn [fst snd] in *. subst r1 r2 r3. cbn [draws cursor] in *.
  exists l1, l2, l3.
  split; [reflexivity|]. split; [exact L1|]. split; [exact L2|].
  split; [exact L3|].
  split; [rewrite !length_app, L1, L2, L3; reflexivity|].
  split; [f_equal; lia|].
  intro U. split; [apply F1; [lia|exact U]|].
  split; [apply F2; [lia|exact U]|apply F3; [lia|exact U]].
Qed.

Lemma starfield_init_layers_witness :
  unit_draws rng_half
  /\ exists l1 l2 l3 : list Star,
       fst (StarField.init rng_half) = l1 ++ l2 ++ l3
       /\ Forall (star_of_layer 1) l1 /\ Forall (star_of_layer 2) l2
       /\ Forall (star_of_layer 3) l3.
Proof.
  assert (U : unit_draws rng_half) by (intro n; split; discriminate).
  split; [exact U|].
  destruct (starfield_init_layers rng_half)
    as (l1 & l2 & l3 & E & _ & _ & _ & _ & _ & F).
  exists l1, l2, l3. split; [exact E|exact (F U)].
Defined.

(** ** Particles *)

Lemma outliving_ext (c c' : Q) (ps : ParticleSystem.t) :
  (c == c')%Q -> outliving c ps = outliving c' ps.
Proof.
  intro E. unfold outliving. apply filter_ext. intro p.
  destruct (Qlt_bool c (p_life p)) eqn:A; destruct (Qlt_bool c' (p_life p)) eqn:B;
    try reflexivity; exfalso;
    repeat match goal with
           | H : Qlt_bool _ _ = true |- _ => apply Qlt_bool_iff in H
           | H : Qlt_bool _ _ = false |- _ => apply Qlt_bool_false_iff in H
           end; lra.
Qed.

Lemma particle_update_step (dt c : Q) (ps : ParticleSystem.t) :
  (0 <= c)%Q ->
  Forall2 (aged dt) (outliving (dt + c) ps)
          (outliving c (ParticleSystem.update dt ps)).
Proof.
  intro Hc. induction ps as [|p rest IH]; [constructor|].
  unfold outliving in *. cbn [filter ParticleSystem.update].
  destruct (Qlt_bool 0 (p_life p - dt)) eqn:A.
  - cbn [filter p_life].
    destruct (Qlt_bool (dt + c) (p_life p)) eqn:B;
      destruct (Qlt_bool c (p_life p - dt)) eqn:C;
      repeat match goal with
             | H : Qlt_bool _ _ = true |- _ => apply Qlt_bool_iff in H
             | H : Qlt_bool _ _ = false |- _ => apply Qlt_bool_false_iff in H
             end; try (exfalso; lra); [|exact IH].
    constructor; [|exact IH].
    unfold aged. cbn. repeat split; reflexivity.
  - destruct (Qlt_bool (dt + c) (p_life p)) eqn:B;
      repeat match goal with
             | H : Qlt_bool _ _ = true |- _ => apply Qlt_bool_iff in H
             | H : Qlt_bool _ _ = false |- _ => apply Qlt_bool_false_iff in H
             end; [exfalso; lra|exact IH].
Qed.

Lemma aged_compose (a b : Q) (p q s : Particle) :
  aged a p q -> aged b q s -> aged (a + b) p s.
Proof.
  intros (L1 & X1 & V1 & W1 & M1 & S1 & G1) (L2 & X2 & V2 & W2 & M2 & S2 & G2).
  unfold aged. rewrite L2, X2, V2, W2, M2, S2, G2, L1, X1, V1, W1, M1, S1, G1.
  repeat split; try reflexivity; ring.
Qed.

Lemma aged_zero (p : Particle) : aged 0 p p.
Proof. unfold aged. repeat split; try reflexivity; ring. Qed.

Lemma aged_ext (a b : Q) (p q : Particle) :
  (a == b)%Q -> aged a p q -> aged b p q.
Proof.
  intros E (L & X & V & R). unfold aged. rewrite <- E. auto.
Qed.

Lemma Forall2_compose {A : Type} (R S T : A -> A -> Prop) :
  (forall a b c, R a b -> S b c -> T a c) ->
  forall l1 l2 l3, Forall2 R l1 l2 -> Forall2 S l2 l3 -> Forall2 T l1 l3.
Proof.
  intros H l1 l2 l3 F. revert l3.
  induction F as [|a b l1 l2 Rab _ IH]; intros l3 F3; inversion F3; subst;
    constructor; eauto.
Qed.

Lemma particle_updates_aged (dts : list Q) : forall (c : Q) (ps : ParticleSystem.t),
  Forall (fun dt => (0 <= dt)%Q) dts -> (0 <= c)%Q ->
  Forall2 (aged (Qsum dts)) (outliving (Qsum dts + c) ps)
          (outliving c (particle_updates dts ps)).
Proof.
  induction dts as [|dt rest IH]; intros c ps F Hc.
  - cbn [particle_updates fold_left Qsum fold_right].
    rewrite (outliving_ext (0 + c) c) by ring.
    apply Forall2_refl_on, aged_zero.
  - inversion F as [|? ? Hd F']; subst.
    pose proof (Qsum_nonneg rest F') as N.
    change (particle_updates (dt :: rest) ps)
      with (particle_updates rest (ParticleSystem.update dt ps)).
    change (Qsum (dt :: rest)) with (dt + Qsum rest)%Q.
    rewrite (outliving_ext (dt + Qsum rest + c) (dt + (Qsum rest + c))) by ring.
    apply Forall2_compose
      with (R := aged dt) (S := aged (Qsum rest))
           (l2 := outliving (Qsum rest + c) (ParticleSystem.update dt ps)).
    + intros a b d. apply aged_compose.
    + apply particle_update_step. lra.
    + apply IH; assumption.
Qed.

Lemma particle_update_positive (dt : Q) (ps : ParticleSystem.t) :
  Forall (fun p => (0 < p_life p)%Q) (ParticleSystem.update dt ps).
Proof.
  induction ps as [|p rest IH]; [constructor|].
  cbn [ParticleSystem.update].
  destruct (Qlt_bool 0 (p_life p - dt)) eqn:A; [|exact IH].
  constructor; [|exact IH]. cbn. now apply Qlt_bool_iff.
Qed.

Lemma particle_updates_positive (dts : list Q) : forall (ps : ParticleSystem.t),
  dts <> [] ->
  Forall (fun p => (0 < p_life p)%Q) (particle_updates dts ps).
Proof.
  induction dts as [|dt rest IH]; intros ps N; [congruence|].
  change (particle_updates (dt :: rest) ps)
    with (particle_updates rest (ParticleSystem.update dt ps)).
  destruct rest as [|d2 rest']; [apply particle_update_positive|].
  apply IH. discriminate.
Qed.

Lemma outliving_all (ps : ParticleSystem.t) :
  Forall (fun p => (0 < p_life p)%Q) ps -> outliving 0 ps = ps.
Proof.
  induction 1 as [|p rest Hp _ IH]; [reflexivity|].
  unfold outliving in *. cbn [filter].
  apply Qlt_bool_iff in Hp. now rewrite Hp, IH.
Qed.

Lemma particle_update_map (dt : Q) (ps : ParticleSystem.t) :
  ParticleSystem.update dt ps = map (particle_step dt) (outliving dt ps).
Proof.
  induction ps as [|p rest IH]; [reflexivity|].
  unfold outliving in *. cbn [ParticleSystem.update filter].
  assert (E : Qlt_bool 0 (p_life p - dt) = Qlt_bool dt (p_life p)).
  { destruct (Qlt_bool 0 (p_life p - dt)) eqn:A;
      destruct (Qlt_bool dt (p_life p)) eqn:B; try reflexivity; exfalso;
      repeat match goal with
             | H : Qlt_bool _ _ = true |- _ => apply Qlt_bool_iff in H
             | H : Qlt_bool _ _ = false |- _ => apply Qlt_bool_false_iff in H
             end; lra. }
  rewrite E. destruct (Qlt_bool dt (p_life p)); cbn [map]; now rewrite IH.
Qed.

Lemma particle_updates_length (dts : list Q) : forall ps : ParticleSystem.t,
  (List.length (particle_updates dts ps) <= List.length ps)%nat.
Proof.
  unfold particle_updates.
  induction dts as [|dt rest IH]; intro ps; cbn [fold_left]; [lia|].
  eapply Nat.le_trans; [apply IH|].
  rewrite particle_update_map, length_map. unfold outliving.
  apply filter_length_le.
Qed.

Lemma particle_updates_origin (dts : list Q) : forall ps : ParticleSystem.t,
  Forall (fun dt => (0 <= dt)%Q) dts ->
  Forall (fun p' => exists p, In p ps /\ same_make p p'
                              /\ (p_life p' <= p_life p)%Q)
         (particle_updates dts ps).
Proof.
  unfold particle_updates.
  induction dts as [|dt rest IH]; intros ps F; cbn [fold_left].
  - apply Forall_forall. intros p I. exists p.
    split; [exact I|]. split; [repeat split|apply Qle_refl].
  - inversion F as [|? ? Hd F']; subst.
    specialize (IH (ParticleSystem.update dt ps) F').
    rewrite Forall_forall in *. intros p' I.
    destruct (IH p' I) as (p1 & I1 & (M1 & M2 & M3 & M4) & L1).
    rewrite particle_update_map in I1. apply in_map_iff in I1.
    destruct I1 as (p & <- & I0). unfold outliving in I0.
    apply filter_In in I0. destruct I0 as [I0 _].
    exists p. split; [exact I0|].
    cbn [particle_step p_vx p_max_life p_size p_gravity p_life] in *.
    split; [repeat split; assumption|lra].
Qed.

(** X28. Particles fade out.  One call of [ParticleSystem.update] keeps
    exactly the particles whose life exceeds the time step, in their order,
    each moved by its velocity, pulled by its gravity and with the time
    step taken off its life.  After one or more calls every particle left
    has a positive life; the number of particles never grows; with time
    steps that are not negative every particle left stems from an earlier
    one with the same horizontal speed, size, total life and gravity and no
    more life than before.  To the millisecond a particle lives for its
    life: all are gone once the time steps add up to a millisecond more
    than every life, and all are kept while they add up to a millisecond
    less. *)
Theorem particles_live_their_life
    (dt : Q) (dts : list Q) (ps : ParticleSystem.t) :
  ParticleSystem.update dt ps = map (particle_step dt) (outliving dt ps)
  /\ (dts <> [] ->
      Forall (fun p => (0 < p_life p)%Q) (particle_updates dts ps))
  /\ (List.length (particle_updates dts ps) <= List.length ps)%nat
  /\ (Forall (fun dt' => (0 <= dt')%Q) dts ->
      Forall (fun p' => exists p, In p ps /\ same_make p p'
                                  /\ (p_life p' <= p_life p)%Q)
             (particle_updates dts ps))
  /\ (dts <> [] -> Forall (fun dt' => (0 <= dt')%Q) dts ->
      Forall (fun p => (p_life p + (1 # 1000) <= Qsum dts)%Q) ps ->
      particle_updates dts ps = [])
  /\ (Forall (fun dt' => (0 <= dt')%Q) dts ->
      Forall (fun p => (Qsum dts + (1 # 1000) <= p_life p)%Q) ps ->
      List.length (particle_updates dts ps) = List.length ps).
Proof.
  split; [apply particle_update_map|].
  split; [apply particle_updates_positive|].
  split; [apply particle_updates_length|].
  split; [apply particle_updates_origin|].
  split.
  - intros N F L.
    pose proof (particle_updates_positive dts ps N) as P.
    pose proof (particle_updates_aged dts 0 ps F ltac:(lra)) as A.
    rewrite (outliving_ext (Qsum dts + 0) (Qsum dts)) in A by ring.
    rewrite (outliving_all _ P) in A.
    assert (E : outliving (Qsum dts) ps = []).
    { clear -L. induction L as [|p rest Hp _ IH]; [reflexivity|].
      unfold outliving in *. cbn [filter].
      assert (Hq : Qlt_bool (Qsum dts) (p_life p) = false)
        by (apply Qlt_bool_false_iff; lra).
      now rewrite Hq. }
    rewrite E in A. inversion A. reflexivity.
  - intros F L.
    destruct dts as [|d ds]; [reflexivity|].
    pose proof (particle_updates_positive (d :: ds) ps ltac:(discriminate)) as P.
    pose proof (particle_updates_aged (d :: ds) 0 ps F ltac:(lra)) as A.
    rewrite (outliving_ext (Qsum (d :: ds) + 0) (Qsum (d :: ds))) in A by ring.
    rewrite (outliving_all _ P) in A.
    assert (E : outliving (Qsum (d :: ds)) ps = ps).
    { clear -L. induction L as [|p rest Hp _ IH]; [reflexivity|].
      unfold outliving in *. cbn [filter].
      assert (Hq : Qlt_bool (Qsum (d :: ds)) (p_life p) = true)
        by (apply Qlt_bool_iff; lra).
      now rewrite Hq, IH. }
    rewrite E in A. symmetry. exact (Forall2_length A).
Qed.

Lemma particles_live_their_life_witness :
  [1 # 20; 1 # 20]%Q <> []
  /\ Forall (fun dt => (0 <= dt)%Q) [1 # 20; 1 # 20]%Q
  /\ Forall (fun p => (p_life p + (1 # 1000) <= Qsum [1 # 20; 1 # 20]%Q)%Q)
       [mkParticle 0 0 10 0 (1 # 20) (1 # 2) 2 80;
        mkParticle 0 0 10 0 (9 # 100) (1 # 2) 2 80]
  /\ particle_updates [1 # 20; 1 # 20]%Q
       [mkParticle 0 0 10 0 (1 # 20) (1 # 2) 2 80;
        mkParticle 0 0 10 0 (9 # 100) (1 # 2) 2 80] = [].
Proof.
  assert (N : [1 # 20; 1 # 20]%Q <> []) by discriminate.
  assert (F : Forall (fun dt => (0 <= dt)%Q) [1 # 20; 1 # 20]%Q)
    by (repeat constructor; discriminate).
  assert (L : Forall (fun p => (p_life p + (1 # 1000)
                                <= Qsum [1 # 20; 1 # 20]%Q)%Q)
                [mkParticle 0 0 10 0 (1 # 20) (1 # 2) 2 80;
                 mkParticle 0 0 10 0 (9 # 100) (1 # 2) 2 80])
    by (repeat constructor; vm_compute; discriminate).
  split; [exact N|]. split; [exact F|]. split; [exact L|].
  exact (proj1 (proj2 (proj2 (proj2 (proj2
           (particles_live_their_life 0 [1 # 20; 1 # 20]%Q
              [mkParticle 0 0 10 0 (1 # 20) (1 # 2) 2 80;
               mkParticle 0 0 10 0 (9 # 100) (1 # 2) 2 80]))))) N F L).
Defined.

(** ** Power-ups *)

Lemma powerup_updates_spec (dts : list Q) : forall (p : PowerUp.t),
  Forall (fun dt => (0 <= dt)%Q) dts -> (0 <= PowerUp.speed p)%Q ->
  let p' := powerup_updates dts p in
  (PowerUp.y p' == PowerUp.y p + PowerUp.speed p * Qsum dts)%Q
  /\ (PowerUp.age p' == PowerUp.age p + Qsum dts)%Q
  /\ PowerUp.x p' = PowerUp.x p
  /\ PowerUp.kind p' = PowerUp.kind p
  /\ PowerUp.speed p' = PowerUp.speed p
  /\ PowerUp.radius p' = PowerUp.radius p
  /\ (PowerUp.alive p' = true <->
      PowerUp.alive p = true
      /\ (dts = [] \/ (PowerUp.y p' <= inject_Z (BASE_H + 30))%Q)).
Proof.
  induction dts as [|dt rest IH]; intros p F Hs p'; subst p'.
  - cbn [powerup_updates fold_left Qsum fold_right].
    repeat split; try reflexivity; try ring; try tauto.
  - inversion F as [|? ? Hd F']; subst.
    pose proof (Qsum_nonneg rest F') as N.
    change (powerup_updates (dt :: rest) p)
      with (powerup_updates rest (PowerUp.update dt p)).
    change (Qsum (dt :: rest)) with (dt + Qsum rest)%Q.
    specialize (IH (PowerUp.update dt p) F' Hs). cbv zeta in IH.
    destruct IH as (Y & A & X & K & S & R & L).
    cbn [PowerUp.update PowerUp.y PowerUp.age PowerUp.x PowerUp.kind
         PowerUp.speed PowerUp.radius PowerUp.alive] in Y, A, X, K, S, R, L.
    split; [rewrite Y; ring|]. split; [rewrite A; ring|].
    split; [exact X|]. split; [exact K|]. split; [exact S|]. split; [exact R|].
    rewrite L. clear L.
    assert (M : (PowerUp.y p + PowerUp.speed p * dt
                 <= PowerUp.y (powerup_updates rest (PowerUp.update dt p)))%Q).
    { rewrite Y. nra. }
    destruct (Qlt_bool _ (PowerUp.y p + PowerUp.speed p * dt)) eqn:E.
    + apply Qlt_bool_iff in E. split.
      * intros [D _]. discriminate.
      * intros [_ [D|D]]; [discriminate|]. exfalso. lra.
    + apply Qlt_bool_false_iff in E. split.
      * intros [Al [->|D]]; (split; [exact Al|right]); [|exact D].
        cbn [powerup_updates fold_left PowerUp.update PowerUp.y]. exact E.
      * intros [Al [D|D]]; [discriminate|]. split; [exact Al|]. now right.
Qed.

(** X29. A power-up falls and expires.  Over calls of [PowerUp.update]
    whose time steps are not negative, a power-up of non-negative speed
    keeps its [x], kind, speed and radius, never moves up and never gets
    younger; once not alive it stays so, and after at least one call it is
    alive exactly when it was alive and its [y] is at most [BASE_H + 30].
    A power-up built by [PowerUp.__init__] at [(x, y)] starts there, alive,
    of age 0, radius 12 and speed 80; to a thousandth of a pixel it expires
    at [y = 750]: it is alive while [y + 80 T] is at most 749.999 and not
    alive once it is 750.001 or more, [T] being the sum of the time
    steps. *)
Theorem powerup_falls_and_expires (dts : list Q) (p : PowerUp.t) :
  Forall (fun dt => (0 <= dt)%Q) dts -> (0 <= PowerUp.speed p)%Q ->
  let p' := powerup_updates dts p in
  (PowerUp.x p' = PowerUp.x p
   /\ PowerUp.kind p' = PowerUp.kind p
   /\ PowerUp.speed p' = PowerUp.speed p
   /\ PowerUp.radius p' = PowerUp.radius p
   /\ (PowerUp.y p <= PowerUp.y p')%Q
   /\ (PowerUp.age p <= PowerUp.age p')%Q
   /\ (PowerUp.alive p = false -> PowerUp.alive p' = false)
   /\ (dts <> [] ->
       PowerUp.alive p' = true <->
       PowerUp.alive p = true /\ (PowerUp.y p' <= inject_Z (BASE_H + 30))%Q))
  /\ (forall x y r,
        p = fst (PowerUp.init x y r) ->
        PowerUp.x p = x /\ PowerUp.y p = y /\ PowerUp.alive p = true
        /\ PowerUp.age p = 0%Q /\ PowerUp.radius p = 12
        /\ PowerUp.speed p = 80%Q
        /\ ((y + 80 * Qsum dts <= 750 - (1 # 1000))%Q ->
            PowerUp.alive p' = true)
        /\ (dts <> [] -> (750 + (1 # 1000) <= y + 80 * Qsum dts)%Q ->
            PowerUp.alive p' = false)).
Proof.
  intros F Hs p'.
  pose proof (Qsum_nonneg dts F) as N.
  destruct (powerup_updates_spec dts p F Hs) as (Y & A & X & K & S & R & L).
  fold p' in Y, A, X, K, S, R, L.
  split.
  - split; [exact X|]. split; [exact K|]. split; [exact S|]. split; [exact R|].
    split; [rewrite Y; nra|]. split; [rewrite A; lra|].
    split.
    + intro D. destruct (PowerUp.alive p') eqn:Al; [|reflexivity].
      destruct (proj1 L eq_refl) as [Al' _]. congruence.
    + intro Ne. rewrite L. split.
      * intros [Al [D|D]]; [contradiction|auto].
      * intros [Al D]. auto.
  - intros x y r E.
    assert (I : PowerUp.x p = x /\ PowerUp.y p = y /\ PowerUp.alive p = true
                /\ PowerUp.age p = 0%Q /\ PowerUp.radius p = 12
                /\ PowerUp.speed p = 80%Q).
    { rewrite E. unfold PowerUp.init.
      destruct (random_choice_kind r) as [k r']. cbn. repeat split. }
    destruct I as (Ix & Iy & Ia & Ig & Ir & Is).
    repeat (split; [assumption|]).
    rewrite Iy, Is in Y.
    split.
    + intro D. apply L. split; [exact Ia|].
      destruct dts as [|d ds]; [now left|right].
      rewrite Y. change (inject_Z (BASE_H + 30)) with 750%Q. lra.
    + intros Ne D. destruct (PowerUp.alive p') eqn:Al; [|reflexivity].
      destruct (proj1 L eq_refl) as [_ [C|C]]; [contradiction|].
      rewrite Y in C. change (inject_Z (BASE_H + 30)) with 750%Q in C.
      exfalso. lra.
Qed.

Lemma powerup_falls_and_expires_witness :
  Forall (fun dt => (0 <= dt)%Q) [1 # 20; 1 # 20]%Q
  /\ (0 <= PowerUp.speed (fst (PowerUp.init 100 740 rng_half)))%Q
  /\ (740 + 80 * Qsum [1 # 20; 1 # 20]%Q <= 750 - (1 # 1000))%Q
  /\ PowerUp.alive (powerup_updates [1 # 20; 1 # 20]%Q
                      (fst (PowerUp.init 100 740 rng_half))) = true.
Proof.
  assert (F : Forall (fun dt => (0 <= dt)%Q) [1 # 20; 1 # 20]%Q)
    by (repeat constructor; discriminate).
  assert (S : (0 <= PowerUp.speed (fst (PowerUp.init 100 740 rng_half)))%Q)
    by (vm_compute; discriminate).
  assert (D : (740 + 80 * Qsum [1 # 20; 1 # 20]%Q <= 750 - (1 # 1000))%Q)
    by (vm_compute; discriminate).
  split; [exact F|]. split; [exact S|]. split; [exact D|].
  exact (proj1 (proj2 (proj2 (proj2 (proj2 (proj2 (proj2
           (proj2 (powerup_falls_and_expires [1 # 20; 1 # 20]%Q
                     (fst (PowerUp.init 100 740 rng_half)) F S)
              100%Q 740%Q rng_half eq_refl))))))) D).
Defined.

Lemma discard_draws_spec (n : nat) (r : Rng) :
  draws (discard_draws n r) = draws r
  /\ cursor (discard_draws n r) = (n + cursor r)%nat.
Proof.
  unfold discard_draws. induction n as [|n [D C]]; [split; reflexivity|].
  change (Nat.iter (S n) ?f ?x) with (f (Nat.iter n f x)).
  set (r' := Nat.iter n _ r) in *.
  unfold random_random. cbn [snd draws cursor].
  split; [exact D|]. rewrite C. reflexivity.
Qed.

(** X30. What a kill drops.  The explosion of a kill (20 particles) takes
    80 random numbers first; the one after them decides the drop: below
    [POWERUP_CHANCE] (0.18), [_on_enemy_killed] appends one power-up, alive
    and of age 0, at the killed enemy's position, behind the power-ups
    already there; otherwise the power-ups are unchanged and the generator
    stands 81 draws further.  In both cases the player, the enemies, the
    bullets and the state are untouched, and the kill is in the trace: the
    score pop, the explosion and its sound. *)
Theorem kill_drops_powerup (e : Enemy.t) (g : Game.t) :
  let u := draws (Game.rng g) (80 + cursor (Game.rng g)) in
  let g' := Game._on_enemy_killed e g in
  ((u < POWERUP_CHANCE)%Q ->
   exists p, Game.powerups g' = Game.powerups g ++ [p]
             /\ PowerUp.x p = Enemy.x e /\ PowerUp.y p = Enemy.y e
             /\ PowerUp.alive p = true /\ PowerUp.age p = 0%Q)
  /\ ((POWERUP_CHANCE <= u)%Q ->
      Game.powerups g' = Game.powerups g
      /\ cursor (Game.rng g') = (81 + cursor (Game.rng g))%nat)
  /\ draws (Game.rng g') = draws (Game.rng g)
  /\ (81 + cursor (Game.rng g) <= cursor (Game.rng g'))%nat
  /\ Game.calls g'
     = Game.calls g
       ++ [pop_score; emit_explosion (Enemy.x e) (Enemy.y e) 20;
           sound_play "explosion" (3 # 5)]
  /\ Game.state g' = Game.state g
  /\ Game.player g' = Game.player g
  /\ Game.enemies g' = Game.enemies g
  /\ Game.bullets g' = Game.bullets g.
Proof.
  intros u g'. subst u g'.
  destruct (discard_draws_spec 80 (Game.rng g)) as [D C].
  unfold Game._on_enemy_killed, random_random. cbv zeta.
  cbn [Game.call Game.rng Game.powerups Game.calls call_draws].
  change (4 * 20)%nat with 80%nat.
  change (discard_draws 0) with (@id Rng). unfold id.
  set (r := discard_draws 80 (Game.rng g)) in *.
  rewrite D, C.
  destruct (Qlt_bool _ POWERUP_CHANCE) eqn:E.
  - apply Qlt_bool_iff in E.
    unfold PowerUp.init, random_choice_kind, random_random, Game.call.
    cbn [Game.set_powerups Game.set_rng Game.powerups Game.rng Game.calls
         Game.state Game.player Game.enemies Game.bullets fst snd draws cursor].
    rewrite <- !app_assoc. cbn [app].
    split.
    + intros _. eexists. split; [reflexivity|]. cbn. auto.
    + split; [intro L; exfalso; lra|]. repeat split; lia.
  - apply Qlt_bool_false_iff in E. unfold Game.call.
    cbn [Game.set_powerups Game.set_rng Game.powerups Game.rng Game.calls
         Game.state Game.player Game.enemies Game.bullets fst snd draws cursor].
    rewrite <- !app_assoc. cbn [app].
    split; [intro L; exfalso; lra|].
    split; [intros _; split; reflexivity|]. repeat split; lia.
Qed.

Lemma kill_drops_powerup_witness :
  (draws (Game.rng lucky_session) (80 + cursor (Game.rng lucky_session))
   < POWERUP_CHANCE)%Q
  /\ exists p,
       Game.powerups (Game._on_enemy_killed (scout_at 100 100) lucky_session)
       = Game.powerups lucky_session ++ [p]
       /\ PowerUp.x p = Enemy.x (scout_at 100 100)
       /\ PowerUp.y p = Enemy.y (scout_at 100 100)
       /\ PowerUp.alive p = true /\ PowerUp.age p = 0%Q.
Proof.
  assert (U : (draws (Game.rng lucky_session)
                 (80 + cursor (Game.rng lucky_session)) < POWERUP_CHANCE)%Q)
    by (vm_compute; reflexivity).
  split; [exact U|].
  exact (proj1 (kill_drops_powerup (scout_at 100 100) lucky_session) U).
Defined.
